(** * lib/explorer.js: the transaction/address resolution helpers

    A shallow embedding of [convert_to_satoshi], [syncLoop], [is_unique],
    [prepare_vout], [get_input_addresses], [prepare_vin], [rpcCommand] and
    [get_supply], with the JavaScript built-ins they rely on
    ([parseFloat], [Number.prototype.toFixed], [String.prototype.replace],
    [parseInt], [+], [-], [/] on Numbers) modelled after ECMA-262 on
    IEEE-754 binary64 values; then of [calculate_total], the daemon
    getters, [get_hashrate] and [balance_supply], and of the [limit] of
    /top-holder in routes/api.js ([Math.min], [Math.max], [parseInt]
    without a radix). *)

From Stdlib Require Import ZArith List String Ascii Bool Lia Floats.SpecFloat.
Import ListNotations.

#[local] Open Scope string_scope.
#[local] Open Scope list_scope.
#[local] Open Scope Z_scope.

(** ** JavaScript Numbers *)

Module Num.

(** A Number is a binary64 value; [spec_float] is the Standard Library's
    description of them: signed zeros, infinities, NaN and
    [S754_finite s m e] for (-1)^s * m * 2^e. *)
Definition number := spec_float.

Definition prec : Z := 53.
Definition emax : Z := 1024.

Definition NaN : number := S754_nan.
Definition pzero : number := S754_zero false.

Definition isNaN (x : number) : bool :=
  match x with S754_nan => true | _ => false end.

(** [binade p q], for [0 < p] and [0 < q]: the exponent [b] with
    2^b <= p / q < 2^(b+1). *)
Definition binade (p q : Z) : Z :=
  let d := Z.log2 p - Z.log2 q in
  if q * 2 ^ Z.max d 0 <=? p * 2 ^ Z.max (- d) 0 then d else d - 1.

(** The integer nearest to [num / den], the even one on a tie. *)
Definition div_nearest_even (num den : Z) : Z :=
  let m := num / den in
  let r := num mod den in
  if (den <? 2 * r) || ((den =? 2 * r) && Z.odd m) then m + 1 else m.

Definition finite (neg : bool) (m e : Z) : number :=
  if 971 <? e then S754_infinity neg else S754_finite neg (Z.to_pos m) e.

(** [round_Q neg p q], for [0 <= p] and [0 < q]: the Number nearest to
    (-1)^neg * p / q, ties to the even mantissa ("the Number value for"
    a mathematical value, ECMA-262 6.1.6.1): a 53-bit mantissa at the
    exponent of the binade, or the subnormal exponent -1074. *)
Definition round_Q (neg : bool) (p q : Z) : number :=
  if p =? 0 then S754_zero neg else
  let e := Z.max (binade p q - 52) (-1074) in
  let m := div_nearest_even (p * 2 ^ Z.max (- e) 0) (q * 2 ^ Z.max e 0) in
  if m =? 0 then S754_zero neg
  else if m =? 2 ^ 53 then finite neg (2 ^ 52) (e + 1)
  else finite neg m e.

(** The Number for an integer. *)
Definition of_Z (z : Z) : number := round_Q (z <? 0) (Z.abs z) 1.

(** The integer a Number stands for, when it is one. *)
Definition to_Z (x : number) : option Z :=
  match x with
  | S754_zero _ => Some 0
  | S754_finite s m e =>
      if 0 <=? e then Some (cond_Zopp s (Z.pos m * 2 ^ e))
      else if Z.pos m mod 2 ^ (- e) =? 0
           then Some (cond_Zopp s (Z.pos m / 2 ^ (- e)))
           else None
  | _ => None
  end.

Definition add : number -> number -> number := SFadd prec emax.
Definition sub : number -> number -> number := SFsub prec emax.
Definition div : number -> number -> number := SFdiv prec emax.

Definition is_neg (x : number) : bool :=
  match x with
  | S754_finite s _ _ => s
  | S754_infinity s => s
  | _ => false
  end.

End Num.

(** ** Primitive values and objects of scalar fields *)

Inductive prim :=
| PUndefined
| PNull
| PBool (b : bool)
| PNum (x : Num.number)
| PStr (s : string).

Inductive jsval :=
| JPrim (p : prim)
| JObj (fields : list (string * prim)).

(** ToBoolean. *)
Definition truthy (p : prim) : bool :=
  match p with
  | PUndefined | PNull => false
  | PBool b => b
  | PNum (S754_zero _) | PNum S754_nan => false
  | PNum _ => true
  | PStr s => negb (s =? "")%string
  end.

(** [a || b]. *)
Definition js_or (a b : prim) : prim := if truthy a then a else b.

(** Property read [o.k]; a missing property, or a property of a primitive
    that has none of that name, reads as [undefined]. *)
Fixpoint lookup_field (k : string) (fields : list (string * prim)) : prim :=
  match fields with
  | [] => PUndefined
  | (k', v) :: rest => if (k' =? k)%string then v else lookup_field k rest
  end.

Definition get_prop (v : jsval) (k : string) : prim :=
  match v with
  | JObj fields => lookup_field k fields
  | JPrim _ => PUndefined
  end.

(** ** Decimal digits and strings *)

Module Digits.

Definition digit_of (c : ascii) : option Z :=
  let n := Z.of_nat (nat_of_ascii c) in
  if (48 <=? n) && (n <=? 57) then Some (n - 48) else None.

Definition digit_char (d : Z) : ascii := ascii_of_nat (Z.to_nat (48 + d)).

(** The longest prefix of decimal digits, and what follows it. *)
Fixpoint span_digits (s : string) : list Z * string :=
  match s with
  | EmptyString => ([], EmptyString)
  | String c r =>
      match digit_of c with
      | Some d => let '(ds, rest) := span_digits r in (d :: ds, rest)
      | None => ([], s)
      end
  end.

Definition value_of (ds : list Z) : Z :=
  fold_left (fun a d => 10 * a + d) ds 0.

Fixpoint digits_aux (fuel : nat) (n : Z) (acc : list Z) : list Z :=
  match fuel with
  | O => acc
  | S f => if n <? 10 then n :: acc
           else digits_aux f (n / 10) (n mod 10 :: acc)
  end.

(** The decimal representation of [n >= 0], most significant digit first,
    no leading zero ([0] is the single digit 0). *)
Definition digits_of (n : Z) : list Z :=
  digits_aux (S (Z.to_nat (Z.log2 n))) n [].

Fixpoint string_of_digits (ds : list Z) : string :=
  match ds with
  | [] => EmptyString
  | d :: r => String (digit_char d) (string_of_digits r)
  end.

Fixpoint drop_zeros (ds : list Z) : list Z :=
  match ds with
  | 0 :: r => drop_zeros r
  | _ => ds
  end.

Definition strip_trailing_zeros (ds : list Z) : list Z :=
  rev (drop_zeros (rev ds)).

End Digits.

(** ** The built-ins used by [convert_to_satoshi] *)

Module Builtins.
Import Num Digits.

(** StrWhiteSpaceChar, on the ASCII range. *)
Definition is_ws (c : ascii) : bool :=
  let n := nat_of_ascii c in
  ((9 <=? n) && (n <=? 13))%nat || (n =? 32)%nat.

Fixpoint trim_start (s : string) : string :=
  match s with
  | String c r => if is_ws c then trim_start r else s
  | EmptyString => EmptyString
  end.

Fixpoint starts_with (p s : string) : bool :=
  match p, s with
  | EmptyString, _ => true
  | String a p', String b s' => Ascii.eqb a b && starts_with p' s'
  | String _ _, EmptyString => false
  end.

(** What a StrDecimalLiteral denotes: an infinity, or [M * 10 ^ E]. *)
Inductive literal :=
| LitInfinity (neg : bool)
| LitDecimal (neg : bool) (M E : Z).

Definition read_sign (s : string) : bool * string :=
  match s with
  | String "-" r => (true, r)
  | String "+" r => (false, r)
  | _ => (false, s)
  end.

(** ExponentPart ::: (e | E) (+ | -)? DecimalDigits; it belongs to the
    literal only when at least one digit follows. *)
Definition read_exponent (s : string) : Z :=
  match s with
  | String c r =>
      if Ascii.eqb c "e" || Ascii.eqb c "E" then
        let '(neg, r') := read_sign r in
        match span_digits r' with
        | ([], _) => 0
        | (ds, _) => cond_Zopp neg (value_of ds)
        end
      else 0
  | EmptyString => 0
  end.

(** The longest prefix of [s] that is a StrDecimalLiteral (ECMA-262
    19.2.4, 7.1.4.1):
    DecimalDigits . DecimalDigits? ExponentPart?,
    . DecimalDigits ExponentPart?, DecimalDigits ExponentPart?,
    or Infinity, after an optional sign. *)
Definition StrDecimalLiteral (s : string) : option literal :=
  let '(neg, s1) := read_sign s in
  if starts_with "Infinity" s1 then Some (LitInfinity neg) else
  let '(ip, s2) := span_digits s1 in
  let '(fp, s3) := match s2 with
                   | String c r =>
                       if Ascii.eqb c "." then span_digits r else ([], s2)
                   | EmptyString => ([], s2)
                   end in
  match (ip ++ fp)%list with
  | [] => None
  | ds => Some (LitDecimal neg (value_of ds)
                  (read_exponent s3 - Z.of_nat (List.length fp)))
  end.

Definition number_of_literal (l : literal) : number :=
  match l with
  | LitInfinity neg => S754_infinity neg
  | LitDecimal neg M E => round_Q neg (M * 10 ^ Z.max E 0) (10 ^ Z.max (- E) 0)
  end.

(** [parseFloat(v)]: ToString(v), leading white space dropped, the
    longest numeric prefix read. ToString of a Number reads back as the
    same Number, except that [-0] prints as "0"; ToString of
    [undefined], [null] and booleans has no numeric prefix. *)
Definition parseFloat (v : prim) : number :=
  match v with
  | PNum (S754_zero _) => pzero
  | PNum x => x
  | PStr s =>
      match StrDecimalLiteral (trim_start s) with
      | Some l => number_of_literal l
      | None => NaN
      end
  | PUndefined | PNull | PBool _ => NaN
  end.

(** Number::toString for a finite [x >= 10^21] (an integer [X]): the
    fewest significant digits that read back as [x], the nearest such
    value if there are several, printed as d[.ddd]e+n. *)
Fixpoint shortest_from (fuel : nat) (k : Z) (nd : Z) (X : Z) (x : number) : Z :=
  match fuel with
  | O => X
  | S f =>
      let P := 10 ^ (nd - k) in
      let lo := (X / P) * P in
      let hi := lo + P in
      let oklo := SFeqb (of_Z lo) x in
      let okhi := SFeqb (of_Z hi) x in
      if oklo && okhi then
        (if X - lo <? hi - X then lo
         else if hi - X <? X - lo then hi
         else if Z.even (X / P) then lo else hi)
      else if oklo then lo
      else if okhi then hi
      else shortest_from f (k + 1) nd X x
  end.

Definition to_string_large (X : Z) : string :=
  let nd := Z.of_nat (List.length (digits_of X)) in
  let c := shortest_from 17 1 nd X (of_Z X) in
  let ds := digits_of c in
  let n := Z.of_nat (List.length ds) in
  let expo := string_of_digits (digits_of (n - 1)) in
  match strip_trailing_zeros ds with
  | [] => "0"
  | [d] => (string_of_digits [d] ++ "e+" ++ expo)%string
  | d :: r => (string_of_digits [d] ++ "." ++ string_of_digits r
               ++ "e+" ++ expo)%string
  end.

(** Steps 10-11 of Number.prototype.toFixed for 8 fraction digits: the
    digits of [n], left-padded with zeros to 9 digits at least, a point
    before the last 8. *)
Definition fixed_string (n : Z) : string :=
  let m := digits_of n in
  let m := if (List.length m <=? 8)%nat
           then (repeat 0 (9 - List.length m) ++ m)%list else m in
  let k := List.length m in
  (string_of_digits (firstn (k - 8) m) ++ "." ++
   string_of_digits (skipn (k - 8) m))%string.

(** [x.toFixed(8)] (ECMA-262 21.1.3.3): a non-finite [x] prints as
    Number::toString does; otherwise the sign, then for [|x| >= 10^21]
    Number::toString, else the integer [n] nearest to [|x| * 10^8] (the
    larger on a tie) as a fixed-point string. *)
Definition toFixed8 (x : number) : string :=
  match x with
  | S754_nan => "NaN"
  | S754_infinity s => if s then "-Infinity" else "Infinity"
  | S754_zero _ => fixed_string 0
  | S754_finite s m e =>
      let num := Z.pos m * 2 ^ Z.max e 0 in
      let den := 2 ^ Z.max (- e) 0 in
      let body := if 10 ^ 21 * den <=? num then to_string_large (num / den)
                  else fixed_string ((2 * num * 10 ^ 8 + den) / (2 * den)) in
      if s then String "-" body else body
  end.

(** [s.replace('.', '')]: the first point removed. *)
Fixpoint remove_first_dot (s : string) : string :=
  match s with
  | EmptyString => EmptyString
  | String c r => if Ascii.eqb c "." then r else String c (remove_first_dot r)
  end.

(** [parseInt(s, 10)] (ECMA-262 19.2.5): white space, a sign, the longest
    prefix of decimal digits; [NaN] when there is none. *)
Definition parseInt10 (s : string) : number :=
  let '(neg, s1) := read_sign (trim_start s) in
  match span_digits s1 with
  | ([], _) => NaN
  | (ds, _) => round_Q neg (value_of ds) 1
  end.

End Builtins.

(** ** convert_to_satoshi *)

(** [convert_to_satoshi(amount, cb)]: the value handed to [cb]. None of
    the built-ins in the [try] block throws on a primitive [amount], so
    the [catch] branch (also [cb(0)]) is never taken. *)
Definition convert_to_satoshi (amount : prim) : Num.number :=
  let num := Builtins.parseFloat amount in
  if Num.isNaN num then Num.pzero
  else Builtins.parseInt10 (Builtins.remove_first_dot (Builtins.toFixed8 num)).

(** ** syncLoop on a single-threaded event loop *)

Module Loop.
Section SyncLoop.

(** [U] is the state the callbacks close over (the variables captured by
    [process] and [exit]). *)
Context {U : Type}.

(** What a [process(loop)] body does, in program order: update captured
    state, call [loop.next()], call [loop.break(end)], throw, or hand the
    rest of the body to a later task (an asynchronous completion). *)
Inductive action :=
| Update (f : U -> U)
| CallNext
| CallBreak (end_ : bool)
| Throw
| Yield.

Inductive event :=
| Process (i : Z)       (* [process(loop)] entered, [loop.iteration()] is [i] *)
| Exit                  (* the completion callback [exit()] entered *)
| Caught                (* [handleError(e, 'syncLoop')] *)
| Uncaught.             (* an exception reached the top of a task *)

Inductive task :=
| TimerProcess                    (* [setTimeout(function() { process(loop); }, 1)] *)
| Continue (k : list action).

(** The loop's variables [index], [done], [shouldExit], the captured
    state, the pending tasks and the log of callback entries. *)
Record world := mkWorld {
  index : Z;
  done : bool;
  shouldExit : bool;
  user : U;
  queue : list task;
  trace : list event
}.

Inductive outcome := Normal | Thrown | OutOfFuel.

Definition set_index (i : Z) (w : world) : world :=
  mkWorld i (done w) (shouldExit w) (user w) (queue w) (trace w).
Definition set_done (d : bool) (w : world) : world :=
  mkWorld (index w) d (shouldExit w) (user w) (queue w) (trace w).
Definition set_shouldExit (b : bool) (w : world) : world :=
  mkWorld (index w) (done w) b (user w) (queue w) (trace w).
Definition set_user (u : U) (w : world) : world :=
  mkWorld (index w) (done w) (shouldExit w) u (queue w) (trace w).
Definition set_queue (q : list task) (w : world) : world :=
  mkWorld (index w) (done w) (shouldExit w) (user w) q (trace w).
Definition log (e : event) (w : world) : world :=
  mkWorld (index w) (done w) (shouldExit w) (user w) (queue w) (trace w ++ [e]).
Definition enqueue (t : task) (w : world) : world :=
  set_queue (queue w ++ [t]) w.

(** The arguments of [syncLoop(iterations, process, exit)]: the body of
    [process] may depend on [loop.iteration()], read on entry. *)
Variable iterations : Z.
Variable process : Z -> list action.
Variable exit : option (U -> U).

(** [if (exit) exit();] *)
Definition call_exit (w : world) : world :=
  match exit with
  | Some f => set_user (f (user w)) (log Exit w)
  | None => w
  end.

(** Running a body; [nxt] is [loop.next]. *)
Fixpoint run_body (nxt : world -> outcome * world) (acts : list action)
    (w : world) : outcome * world :=
  match acts with
  | [] => (Normal, w)
  | Update f :: k => run_body nxt k (set_user (f (user w)) w)
  | CallNext :: k =>
      match nxt w with
      | (Normal, w') => run_body nxt k w'
      | r => r
      end
  | CallBreak end_ :: k => run_body nxt k (set_shouldExit end_ (set_done true w))
  | Throw :: _ => (Thrown, w)
  | Yield :: k => (Normal, enqueue (Continue k) w)
  end.

(** [process(loop)], with [loop.iteration()] being [index - 1]. *)
Definition call_process (nxt : world -> outcome * world) (w : world)
    : outcome * world :=
  run_body nxt (process (index w - 1)) (log (Process (index w - 1)) w).

(** The closure [next]. The fuel bounds the depth of [next] calling
    [process] calling [next]. *)
Fixpoint next (fuel : nat) (w : world) : outcome * world :=
  match fuel with
  | O => (OutOfFuel, w)
  | S fuel' =>
      if done w then
        (Normal, if shouldExit w then call_exit w else w)
      else if index w <? iterations then
        let currentIndex := index w in
        let w1 := set_index (index w + 1) w in
        if currentIndex mod 100 =? 0 then
          (Normal, enqueue TimerProcess w1)
        else
          match call_process (next fuel') w1 with
          | (Thrown, w2) => (Normal, call_exit (set_done true (log Caught w2)))
          | r => r
          end
      else
        (Normal, call_exit (set_done true w))
  end.

Definition initial (u : U) : world := mkWorld 0 false false u [] [].

(** [syncLoop(iterations, process, exit)] up to its [return]. *)
Definition syncLoop (fuel : nat) (u : U) : outcome * world :=
  if iterations <=? 0 then (Normal, call_exit (initial u))
  else next fuel (initial u).

Definition run_task (fuel : nat) (t : task) (w : world) : outcome * world :=
  match t with
  | TimerProcess => call_process (next fuel) w
  | Continue k => run_body (next fuel) k w
  end.

(** The event loop: pending tasks run in order, each to completion. An
    exception that reaches the top of a task is uncaught; Node ends the
    process there. *)
Fixpoint drain (fuel : nat) (tasks : nat) (w : world) : outcome * world :=
  match queue w with
  | [] => (Normal, w)
  | t :: q =>
      match tasks with
      | O => (OutOfFuel, w)
      | S tasks' =>
          match run_task fuel t (set_queue q w) with
          | (Normal, w') => drain fuel tasks' w'
          | (Thrown, w') => (Thrown, log Uncaught w')
          | (OutOfFuel, w') => (OutOfFuel, w')
          end
      end
  end.

(** The call and everything it schedules. *)
Definition run (fuel : nat) (u : U) : outcome * world :=
  match syncLoop fuel u with
  | (Normal, w) => drain fuel fuel w
  | r => r
  end.

(** Has the completion callback been entered? *)
Definition exited (w : world) : bool :=
  existsb (fun e => match e with Exit => true | _ => false end) (trace w).

End SyncLoop.

Arguments action : clear implicits.
Arguments world : clear implicits.
Arguments task : clear implicits.

(** Enough fuel for a loop over the array [l]. *)
Definition fuel_for {A} (l : list A) : nat := 2 * List.length l + 2.

End Loop.

(** ** Raw transactions and resolved entries *)

(** [scriptPubKey] of an output: [type], and the two address formats. *)
Record ScriptPubKey := mkSpk {
  type_ : string;
  spk_addresses : option (list string);
  spk_address : option string
}.

(** One element of [vout]; a missing [scriptPubKey] is [None]. *)
Record RawOutput := mkOut {
  value : prim;
  n : Z;
  scriptPubKey : option ScriptPubKey
}.

(** One element of [vin]; [coinbase] is the truthiness of the field. *)
Record RawInput := mkIn {
  txid : option string;
  vout_n : option Z;
  coinbase : bool
}.

(** [{ addresses: <string>, amount: <Number> }]. *)
Record entry := mkEntry {
  addresses : string;
  amount : Num.number
}.

(** ** is_unique *)

Fixpoint scan (array : list entry) (object : string) (i : nat) : option nat :=
  match array with
  | [] => None
  | e :: rest => if (addresses e =? object)%string then Some i
                 else scan rest object (S i)
  end.

(** [is_unique(array, object, cb)]: the two arguments [cb] receives. *)
Definition is_unique (array : list entry) (object : string) : bool * option nat :=
  match scan array object 0 with
  | Some i => (false, Some i)
  | None => (true, None)
  end.

Fixpoint add_amount_at (index : nat) (amount_sat : Num.number)
    (array : list entry) : list entry :=
  match array, index with
  | [], _ => []
  | e :: rest, O => mkEntry (addresses e) (Num.add (amount e) amount_sat) :: rest
  | e :: rest, S i => e :: add_amount_at i amount_sat rest
  end.

(** The callback both resolvers give to [is_unique]: [push] a new entry,
    or [array[index].amount += amount_sat]. *)
Definition accumulate (address : string) (amount_sat : Num.number)
    (array : list entry) : list entry :=
  match is_unique array address with
  | (true, _) => array ++ [mkEntry address amount_sat]
  | (false, Some index) => add_amount_at index amount_sat array
  | (false, None) => array
  end.

(** The address rule shared by both resolvers: [addresses] when it is a
    non-empty array, else [[address]] when [address] is truthy, else
    [[]]. *)
Definition address_list (spk : ScriptPubKey) : list string :=
  match spk_addresses spk with
  | Some (a :: l) => a :: l
  | _ => match spk_address spk with
         | Some a => if (a =? "")%string then [] else [a]
         | None => []
         end
  end.

(** [convert_to_satoshi(parseFloat(v || 0), ...)]. *)
Definition to_satoshi (v : prim) : Num.number :=
  convert_to_satoshi (PNum (Builtins.parseFloat (js_or v (PNum Num.pzero)))).

(** ** Arrays on the heap *)

(** Arrays of entries are objects with identity: a reference is an index
    into the store. The entries themselves are kept by value; no entry
    shared between two arrays is ever written to. *)
Module Heap.

Definition ref := nat.
Definition heap := list (list entry).

Definition read (r : ref) (h : heap) : list entry := nth r h [].

Fixpoint write (r : ref) (a : list entry) (h : heap) : heap :=
  match h, r with
  | [], _ => []
  | _ :: rest, O => a :: rest
  | x :: rest, S r' => x :: write r' a rest
  end.

Definition alloc (a : list entry) (h : heap) : heap * ref :=
  (h ++ [a], List.length h).

End Heap.

(** ** prepare_vout *)

Module Vout.
Import Loop Heap.

(** The address and value an output contributes, if it is not skipped. *)
Definition resolve_output (output : option RawOutput) : option (string * prim) :=
  match output with
  | None => None
  | Some o =>
      match scriptPubKey o with
      | None => None
      | Some spk =>
          if (type_ spk =? "nonstandard")%string || (type_ spk =? "nulldata")%string
          then None
          else match address_list spk with
               | [] => None
               | address :: _ => Some (address, value o)
               end
      end
  end.

(** The [process] callback at [i = loop.iteration()]. *)
Definition process (arr_vout : ref) (vout : list (option RawOutput)) (i : Z)
    : list (action heap) :=
  match resolve_output (nth (Z.to_nat i) vout None) with
  | None => [CallNext]
  | Some (address, v) =>
      [Update (fun h => write arr_vout
                          (accumulate address (to_satoshi v) (read arr_vout h)) h);
       CallNext]
  end.

Definition is_nonstandard (output : option RawOutput) : bool :=
  match output with
  | Some o => match scriptPubKey o with
              | Some spk => (type_ spk =? "nonstandard")%string
              | None => false
              end
  | None => false
  end.

(** The guard of the proof-of-stake case. *)
Definition pos_applies (vout : list (option RawOutput))
    (outs ins : list entry) : bool :=
  is_nonstandard (nth 0 vout None) &&
  match ins, outs with
  | i0 :: _, o0 :: _ => (addresses i0 =? addresses o0)%string
  | _, _ => false
  end.

(** The completion callback, up to its call of [cb(arr_vout, arr_vin)]. *)
Definition exit (arr_vout arr_vin : ref) (vout : list (option RawOutput))
    (h : heap) : heap :=
  if pos_applies vout (read arr_vout h) (read arr_vin h) then
    match read arr_vin h, read arr_vout h with
    | i0 :: ins, o0 :: outs =>
        write arr_vin ins
          (write arr_vout
             (mkEntry (addresses o0) (Num.sub (amount o0) (amount i0)) :: outs) h)
    | _, _ => h
    end
  else h.

(** [this.syncLoop(vout.length, ..., ...)] and the tasks it schedules. *)
Definition loop (arr_vout arr_vin : ref) (vout : list (option RawOutput))
    (h : heap) : outcome * world heap :=
  run (Z.of_nat (List.length vout)) (process arr_vout vout)
    (Some (exit arr_vout arr_vin vout)) (fuel_for vout) h.

(** [prepare_vout(vout, txid, vin, cb)] on heap [h]: the heap when [cb]
    is called and its two arguments; [None] if [cb] is never called.
    [vout] and [vin] are [None] when they are not arrays. *)
Definition prepare_vout (h : heap) (vout : option (list (option RawOutput)))
    (vin : option ref) : option (heap * ref * ref) :=
  match vout with
  | None =>
      let '(h1, empty) := alloc [] h in
      match vin with
      | Some r => Some (h1, empty, r)
      | None => let '(h2, empty') := alloc [] h1 in Some (h2, empty, empty')
      end
  | Some outputs =>
      let '(h1, arr_vout) := alloc [] h in
      let '(h2, arr_vin) :=
        alloc (match vin with Some r => read r h1 | None => [] end) h1 in
      match loop arr_vout arr_vin outputs h2 with
      | (Normal, w) => if exited w then Some (user w, arr_vout, arr_vin) else None
      | _ => None
      end
  end.

End Vout.

(** ** get_input_addresses and prepare_vin *)

Module Vin.
Import Loop.

(** [{ hash: ..., amount: ... }] *)
Record source := mkSource {
  hash : string;
  src_amount : prim
}.

Section WithDataSource.

(** [get_rawtransaction(txid, cb)] as far as [get_input_addresses] looks
    at the answer: [Some vout] when the answer is an object whose [vout]
    is an array, [None] for anything else (also the error strings). *)
Variable get_rawtransaction : option string -> option (list RawOutput).

(** The coinbase branch: [amount += parseFloat(vout[i] && vout[i].value || 0)]. *)
Definition sum_process (vout : list (option RawOutput)) (i : Z)
    : list (action Num.number) :=
  [Update (fun amount =>
     Num.add amount
       (Builtins.parseFloat
          (js_or (match nth (Z.to_nat i) vout None with
                  | Some o => value o
                  | None => PUndefined
                  end) (PNum Num.pzero))));
   CallNext].

Fixpoint find_n (outs : list RawOutput) (k : option Z) : option RawOutput :=
  match outs with
  | [] => None
  | o :: rest =>
      if match k with Some k' => n o =? k' | None => false end
      then Some o else find_n rest k
  end.

(** [get_input_addresses(input, vout, cb)]: whether [cb] is called from a
    later task, and its argument; [None] if [cb] is never called. *)
Definition get_input_addresses (input : option RawInput)
    (vout : list (option RawOutput)) : option (bool * list source) :=
  match input with
  | None => Some (false, [])
  | Some inp =>
      if coinbase inp then
        match run (Z.of_nat (List.length vout)) (sum_process vout) (Some (fun a => a))
                (fuel_for vout) Num.pzero with
        | (Normal, w) =>
            if exited w
            then Some (negb (Nat.eqb (List.length vout) 0),
                       [mkSource "coinbase" (PNum (user w))])
            else None
        | _ => None
        end
      else
        Some (true,
          match get_rawtransaction (txid inp) with
          | None => []
          | Some outs =>
              match find_n outs (vout_n inp) with
              | Some output =>
                  match match scriptPubKey output with
                        | Some spk => address_list spk
                        | None => []
                        end with
                  | a :: _ => [mkSource a (value output)]
                  | [] => []
                  end
              | None => []
              end
          end)
  end.

Record RawTransaction := mkTx {
  vin : option (list (option RawInput));
  vout : list (option RawOutput)
}.

(** The [process] callback of [prepare_vin] at [i = loop.iteration()]. *)
Definition process (tx : RawTransaction) (inputs : list (option RawInput))
    (i : Z) : list (action (list entry)) :=
  match get_input_addresses (nth (Z.to_nat i) inputs None) (vout tx) with
  | None => []
  | Some (later, addrs) =>
      (if later then [Yield] else []) ++
      match addrs with
      | [] => [CallNext]
      | addr :: _ =>
          [Update (accumulate (hash addr) (to_satoshi (src_amount addr)));
           CallNext]
      end
  end.

(** [prepare_vin(tx, cb)]: the array [cb] receives. *)
Definition prepare_vin (tx : option RawTransaction) : option (list entry) :=
  match tx with
  | None => Some []
  | Some t =>
      match vin t with
      | None => Some []
      | Some inputs =>
          match run (Z.of_nat (List.length inputs)) (process t inputs)
                  (Some (fun a => a)) (fuel_for inputs) [] with
          | (Normal, w) => if exited w then Some (user w) else None
          | _ => None
          end
      end
  end.

End WithDataSource.
End Vin.

(** ** rpcCommand and get_supply *)

Module Supply.
Import Num.

Definition SATOSHI_FACTOR : number := of_Z 100000000.

(** What [client.command] hands to its callback: an error, or the
    response array (or a non-array/missing response). *)
Inductive rpc_reply :=
| RpcError
| RpcResponse (response : option (list jsval)).

(** What [request] hands to its callback: [error] set, or a [body]. *)
Inductive http_reply :=
| HttpError
| HttpBody (body : jsval).

(** Modelled from the spec: the balance store ([models/address], not
    part of these sources). [findOne({a_id: 'coinbase'})] answers with an
    error, with no document, or with a document whose [sent] is a Number;
    [find({balance: {$gt: 0}})] answers with an error or with the
    [balance] of every matching document. *)
Inductive find_one_reply :=
| FindError
| FindNone
| FindDoc (sent : number).

Inductive find_reply :=
| FindAllError
| FindDocs (balances : list number).

Record Settings := mkSettings {
  supply : option string;
  use_rpc : bool
}.

Definition truthy_val (v : jsval) : bool :=
  match v with
  | JPrim p => truthy p
  | JObj _ => true
  end.

Definition parseFloat_val (v : jsval) : number :=
  match v with
  | JPrim p => Builtins.parseFloat p
  | JObj _ => NaN          (* "[object Object]" *)
  end.

(** [v && v.k] *)
Definition and_prop (v : jsval) (k : string) : jsval :=
  if truthy_val v then JPrim (get_prop v k) else v.

Section WithSources.

Variable client_command : string -> rpc_reply.
Variable request : string -> http_reply.
Variable Address_findOne : find_one_reply.
Variable Address_find : find_reply.

(** [coinbase_supply(cb)] *)
Definition coinbase_supply : number :=
  match Address_findOne with
  | FindError => pzero
  | FindDoc sent => sent
  | FindNone => pzero
  end.

(** [rpcCommand([{method, parameters: []}], cb)] *)
Definition rpcCommand (method : string) : jsval :=
  match client_command method with
  | RpcError => JPrim (PStr "RPC command failed")
  | RpcResponse None => JPrim (PStr "Invalid RPC response")
  | RpcResponse (Some []) => JPrim (PStr "Invalid RPC response")
  | RpcResponse (Some (r0 :: _)) =>
      if negb (truthy_val r0) then JPrim (PStr "Invalid RPC response")
      else match get_prop r0 "name" with
           | PStr name => if (name =? "RpcError")%string
                          then JPrim (PStr "Invalid RPC response") else r0
           | _ => r0
           end
  end.

(** [balance_supply(cb)] *)
Definition balance_supply : number :=
  match Address_find with
  | FindAllError => pzero
  | FindDocs docs =>
      fold_left (fun total balance =>
                   add total (if truthy (PNum balance) then balance else pzero))
                docs pzero
  end.

(** [handleSupply(value)] *)
Definition handleSupply (value : jsval) : number :=
  let supply := parseFloat_val value in
  if isNaN supply then pzero else supply.

Definition http_value (reply : http_reply) (k : option string) : jsval :=
  match reply with
  | HttpError => JPrim (PNum pzero)
  | HttpBody body => match k with
                     | Some k' => and_prop body k'
                     | None => body
                     end
  end.

(** [get_supply(cb)]: the value [cb] receives. *)
Definition get_supply (settings : Settings) : number :=
  match supply settings with
  | None => div coinbase_supply SATOSHI_FACTOR
  | Some strategy =>
      if (strategy =? "")%string then div coinbase_supply SATOSHI_FACTOR
      else if use_rpc settings then
        if (strategy =? "HEAVY")%string then
          handleSupply (rpcCommand "getsupply")
        else if (strategy =? "GETINFO")%string then
          handleSupply (and_prop (rpcCommand "getinfo") "moneysupply")
        else if (strategy =? "TXOUTSET")%string then
          handleSupply (and_prop (rpcCommand "gettxoutsetinfo") "total_amount")
        else if (strategy =? "BALANCES")%string then
          handleSupply (JPrim (PNum (div balance_supply SATOSHI_FACTOR)))
        else
          handleSupply (JPrim (PNum (div coinbase_supply SATOSHI_FACTOR)))
      else
        if (strategy =? "HEAVY")%string then
          handleSupply (http_value (request "getsupply") None)
        else if (strategy =? "GETINFO")%string then
          handleSupply (http_value (request "getinfo") (Some "moneysupply"))
        else if (strategy =? "TXOUTSET")%string then
          handleSupply (http_value (request "gettxoutsetinfo") (Some "total_amount"))
        else if (strategy =? "BALANCES")%string then
          handleSupply (JPrim (PNum (div balance_supply SATOSHI_FACTOR)))
        else
          handleSupply (JPrim (PNum (div coinbase_supply SATOSHI_FACTOR)))
  end.

End WithSources.
End Supply.

(** ** calculate_total *)

Module Total.
Import Loop.

(** [vout[i].amount]: reading a property of [undefined] or [null]
    throws a TypeError. *)
Definition amount_of (v : jsval) : option prim :=
  match v with
  | JPrim PUndefined | JPrim PNull => None
  | _ => Some (get_prop v "amount")
  end.

(** The [process] callback at [i = loop.iteration()]:
    [total += parseFloat(vout[i].amount || 0); loop.next();] *)
Definition process (vout : list jsval) (i : Z) : list (action Num.number) :=
  match amount_of (nth (Z.to_nat i) vout (JPrim PUndefined)) with
  | None => [Throw]
  | Some a =>
      [Update (fun total =>
                 Num.add total (Builtins.parseFloat (js_or a (PNum Num.pzero))));
       CallNext]
  end.

(** [calculate_total(vout, cb)]: the value [cb] receives, [None] if
    [cb] is never called. [vout] is [None] when it is not an array. *)
Definition calculate_total (vout : option (list jsval)) : option Num.number :=
  match vout with
  | None => Some Num.pzero
  | Some l =>
      match run (Z.of_nat (List.length l)) (process l) (Some (fun total => total))
              (fuel_for l) Num.pzero with
      | (Normal, w) => if exited w then Some (user w) else None
      | _ => None
      end
  end.

End Total.

(** ** rpcCommand with parameters, and the daemon getters *)

Module Daemon.
Import Supply.

(** [{ method: ..., parameters: ... }]; [parameters] is [None] when the
    property is missing. *)
Record rpc_call := mkCall {
  method : string;
  parameters : option (list prim)
}.

Section WithSources.

(** [client.command([{method, parameters}], cb)] and
    [request({uri: base_url + path, json: true, ...}, cb)]. *)
Variable client_command : string -> list prim -> rpc_reply.
Variable request : string -> http_reply.

(** [rpcCommand(params, cb)]: the value [cb] receives; [params] is
    [None] when it is missing. *)
Definition rpcCommand (params : option (list rpc_call)) : jsval :=
  match params with
  | None | Some [] => JPrim (PStr "Invalid parameters")
  | Some (call :: _) =>
      match client_command (method call)
              (match parameters call with Some p => p | None => [] end) with
      | RpcError => JPrim (PStr "RPC command failed")
      | RpcResponse None => JPrim (PStr "Invalid RPC response")
      | RpcResponse (Some []) => JPrim (PStr "Invalid RPC response")
      | RpcResponse (Some (r0 :: _)) =>
          if negb (truthy_val r0) then JPrim (PStr "Invalid RPC response")
          else match get_prop r0 "name" with
               | PStr name => if (name =? "RpcError")%string
                              then JPrim (PStr "Invalid RPC response") else r0
               | _ => r0
               end
      end
  end.

(** The callback the getters give to [request]:
    [if (error || !body) { handleError(...); return cb(failure); } cb(body);] *)
Definition http_get (path failure : string) : jsval :=
  match request path with
  | HttpError => JPrim (PStr failure)
  | HttpBody body => if truthy_val body then body else JPrim (PStr failure)
  end.

Definition get_difficulty (settings : Settings) : jsval :=
  if use_rpc settings
  then rpcCommand (Some [mkCall "getdifficulty" (Some [])])
  else http_get "getdifficulty" "Error getting difficulty".

Definition get_connectioncount (settings : Settings) : jsval :=
  if use_rpc settings
  then rpcCommand (Some [mkCall "getconnectioncount" (Some [])])
  else http_get "getconnectioncount" "Error getting connection count".

Definition get_blockcount (settings : Settings) : jsval :=
  if use_rpc settings
  then rpcCommand (Some [mkCall "getblockcount" (Some [])])
  else http_get "getblockcount" "Error getting block count".

(** [height] and [hash] are strings, as a route hands them on. *)
Definition get_blockhash (settings : Settings) (height : string) : jsval :=
  if use_rpc settings
  then rpcCommand (Some [mkCall "getblockhash"
                           (Some [PNum (Builtins.parseInt10 height)])])
  else http_get ("getblockhash?height=" ++ height) "Error getting block hash".

Definition get_block (settings : Settings) (hash : string) : jsval :=
  if use_rpc settings
  then rpcCommand (Some [mkCall "getblock" (Some [PStr hash])])
  else http_get ("getblock?hash=" ++ hash) "Error getting block".

Definition get_rawtransaction (settings : Settings) (hash : string) : jsval :=
  if use_rpc settings
  then rpcCommand (Some [mkCall "getrawtransaction"
                           (Some [PStr hash; PNum (Num.of_Z 1)])])
  else http_get ("getrawtransaction?txid=" ++ hash ++ "&decrypt=1")
         "Error getting transaction".

End WithSources.
End Daemon.

(** ** get_hashrate *)

Module Hashrate.
Import Num Digits Builtins Supply Daemon.

Definition mul : number -> number -> number := SFmul prec emax.

(** Steps 10-11 of Number.prototype.toFixed for [f >= 1] fraction
    digits. *)
Definition fixed_string_n (f : nat) (n : Z) : string :=
  let m := digits_of n in
  let m := if (List.length m <=? f)%nat
           then (repeat 0 (S f - List.length m) ++ m)%list else m in
  let k := List.length m in
  (string_of_digits (firstn (k - f) m) ++ "." ++
   string_of_digits (skipn (k - f) m))%string.

(** [x.toFixed(f)] for [1 <= f <= 100], as [toFixed8] is for 8. *)
Definition toFixed (f : nat) (x : number) : string :=
  match x with
  | S754_nan => "NaN"
  | S754_infinity s => if s then "-Infinity" else "Infinity"
  | S754_zero _ => fixed_string_n f 0
  | S754_finite s m e =>
      let num := Z.pos m * 2 ^ Z.max e 0 in
      let den := 2 ^ Z.max (- e) 0 in
      let body := if 10 ^ 21 * den <=? num then to_string_large (num / den)
                  else fixed_string_n f
                         ((2 * num * 10 ^ Z.of_nat f + den) / (2 * den)) in
      if s then String "-" body else body
  end.

(** [settings.index.show_hashrate], [settings.nethash_units] and
    [settings.nethash]. *)
Record Display := mkDisplay {
  show_hashrate : prim;
  nethash_units : string;
  nethash : string
}.

Section WithSources.

Variable client_command : string -> list prim -> rpc_reply.
Variable request : string -> http_reply.

(** [calculateHashrate(value)] *)
Definition calculateHashrate (display : Display) (value : jsval) : string :=
  let hashRate := parseFloat_val value in
  if isNaN hashRate then "-"
  else if (nethash_units display =? "K")%string
  then toFixed 4 (mul hashRate (of_Z 1000))
  else if (nethash_units display =? "M")%string
  then toFixed 4 hashRate
  else if (nethash_units display =? "G")%string
  then toFixed 4 (div hashRate (of_Z 1000))
  else if (nethash_units display =? "T")%string
  then toFixed 4 (div hashRate (of_Z 1000000))
  else if (nethash_units display =? "P")%string
  then toFixed 4 (div hashRate (of_Z 1000000000))
  else if (nethash_units display =? "H")%string
  then toFixed 4 (mul hashRate (of_Z 1000000))
  else toFixed 4 hashRate.

(** The argument of [calculateHashrate]; [None] when the HTTP request
    failed or had no body. *)
Definition hashrate_value (display : Display) (settings : Settings)
    : option jsval :=
  let mininginfo := (nethash display =? "netmhashps")%string in
  let endpoint := if mininginfo then "getmininginfo" else "getnetworkhashps" in
  if use_rpc settings then
    let response := rpcCommand client_command (Some [mkCall endpoint (Some [])]) in
    Some (if mininginfo then and_prop response "netmhashps" else response)
  else
    match request endpoint with
    | HttpError => None
    | HttpBody body =>
        if truthy_val body
        then Some (if mininginfo then and_prop body "netmhashps" else body)
        else None
    end.

(** [get_hashrate(cb)]: the string [cb] receives. *)
Definition get_hashrate (display : Display) (settings : Settings) : string :=
  match show_hashrate display with
  | PBool false => "-"
  | _ => match hashrate_value display settings with
         | Some value => calculateHashrate display value
         | None => "-"
         end
  end.

End WithSources.
End Hashrate.

(** ** routes/api.js: the [limit] of /top-holder *)

Module Api.
Import Num Digits Builtins.

(** A digit of radix 16. *)
Definition hex_digit_of (c : ascii) : option Z :=
  let n := Z.of_nat (nat_of_ascii c) in
  if (48 <=? n) && (n <=? 57) then Some (n - 48)
  else if (97 <=? n) && (n <=? 102) then Some (n - 87)
  else if (65 <=? n) && (n <=? 70) then Some (n - 55)
  else None.

Fixpoint span_hex (s : string) : list Z :=
  match s with
  | EmptyString => []
  | String c r =>
      match hex_digit_of c with
      | Some d => d :: span_hex r
      | None => []
      end
  end.

Definition hex_value (ds : list Z) : Z :=
  fold_left (fun a d => 16 * a + d) ds 0.

(** The integer [parseInt(s)] reads when no radix is given (ECMA-262
    19.2.5): white space, a sign, then hexadecimal digits after 0x or
    0X, decimal digits otherwise; [None] when there is no digit. *)
Definition int_literal (s : string) : option (bool * Z) :=
  let '(neg, s1) := read_sign (trim_start s) in
  let hex := match s1 with
             | String "0" (String x r) =>
                 if Ascii.eqb x "x" || Ascii.eqb x "X" then Some r else None
             | _ => None
             end in
  match hex with
  | Some r =>
      match span_hex r with
      | [] => None
      | ds => Some (neg, hex_value ds)
      end
  | None =>
      match span_digits s1 with
      | ([], _) => None
      | (ds, _) => Some (neg, value_of ds)
      end
  end.

(** [parseInt(s)] *)
Definition parseInt (s : string) : number :=
  match int_literal s with
  | Some (neg, v) => round_Q neg v 1
  | None => NaN
  end.

(** [Math.min(x, y)] and [Math.max(x, y)] on two Numbers: NaN if either
    is, and [-0] below [+0]. *)
Definition Math_min (x y : number) : number :=
  if isNaN x || isNaN y then NaN
  else if SFltb x y then x
  else if SFltb y x then y
  else match x with S754_zero true => x | _ => y end.

Definition Math_max (x y : number) : number :=
  if isNaN x || isNaN y then NaN
  else if SFltb x y then y
  else if SFltb y x then x
  else match x with S754_zero true => y | _ => x end.

(** [Math.max(1, Math.min(p || 100, 1000))] *)
Definition clamp_limit (p : number) : number :=
  Math_max (of_Z 1)
    (Math_min (if truthy (PNum p) then p else of_Z 100) (of_Z 1000)).

(** [const limit = Math.max(1, Math.min(parseInt(req.query.limit) || 100, 1000));]
    with [req.query.limit] a string, or missing ([None]). *)
Definition limit (query_limit : option string) : number :=
  clamp_limit (match query_limit with
               | Some s => parseInt s
               | None => NaN         (* parseInt(undefined) *)
               end).

End Api.

(** * The vocabulary of the statements *)

(** ** Runs of syncLoop *)

Module LoopSpec.
Import Loop.
Section Spec.

Context {U : Type}.

(** A body that advances the loop once: state updates and asynchronous
    hand-overs, then [loop.next()] last. *)
Inductive steady : list (action U) -> Prop :=
| steady_next : steady [CallNext]
| steady_update f k : steady k -> steady (Update f :: k)
| steady_yield k : steady k -> steady (Yield :: k).

(** The state updates of a body, in order. *)
Fixpoint effect (acts : list (action U)) (u : U) : U :=
  match acts with
  | [] => u
  | Update f :: k => effect k (f u)
  | _ :: k => effect k u
  end.

(** The asynchronous hand-overs of a body. *)
Fixpoint yields (acts : list (action U)) : nat :=
  match acts with
  | [] => 0
  | Yield :: k => S (yields k)
  | _ :: k => yields k
  end.

(** Actions that neither touch the loop nor throw. *)
Definition quiet (a : action U) : Prop :=
  match a with Update _ | Yield => True | _ => False end.

(** The same, or [loop.next()]. *)
Definition calm (a : action U) : Prop :=
  match a with Update _ | Yield | CallNext => True | _ => False end.

(** State updates only. *)
Definition pure_update (a : action U) : Prop :=
  match a with Update _ => True | _ => False end.

Variable iterations : Z.
Variable process : Z -> list (action U).
Variable exit : option (U -> U).

Abbreviation next := (next iterations process exit).
Abbreviation drain := (drain iterations process exit).

(** Iterations [i], [i+1], ..., [i+k-1]: their entries in the log, the
    state they leave, the tasks they need. *)
Fixpoint seg_trace (i : Z) (k : nat) : list event :=
  match k with
  | O => []
  | S k' => Process i :: seg_trace (i + 1) k'
  end.

Fixpoint seg_user (i : Z) (k : nat) (u : U) : U :=
  match k with
  | O => u
  | S k' => seg_user (i + 1) k' (effect (process i) u)
  end.

Fixpoint seg_yields (i : Z) (k : nat) : nat :=
  match k with
  | O => 0
  | S k' => yields (process i) + seg_yields (i + 1) k'
  end.

(** From [w], [next()] returns and the event loop then runs to outcome
    [o], having logged [T] and left the captured state [u']. *)
Definition reaches (f F tasks : nat) (w : world U) (o : outcome)
    (T : list event) (u' : U) : Prop :=
  exists w1 w2,
    next f w = (Normal, w1) /\ drain F tasks w1 = (o, w2) /\
    trace w2 = trace w ++ T /\ user w2 = u'.

(** The same for a body being run. *)
Definition body_reaches (f F tasks : nat) (body : list (action U))
    (w : world U) (o : outcome) (T : list event) (u' : U) : Prop :=
  exists w1 w2,
    run_body (next f) body w = (Normal, w1) /\ drain F tasks w1 = (o, w2) /\
    trace w2 = trace w ++ T /\ user w2 = u'.

(** What happens from index [stop] on, given [a] levels of calls and [b]
    tasks. *)
Definition terminal (stop : Z) (a b : nat) (o : outcome) (T : list event)
    (g : U -> U) : Prop :=
  forall f F tasks w,
    index w = stop -> done w = false -> queue w = [] ->
    (a <= f)%nat -> (a <= F)%nat -> (b <= tasks)%nat ->
    reaches f F tasks w o T (g (user w)).

(** What [if (exit) exit();] logs and does. *)
Definition exit_trace : list event :=
  match exit with Some _ => [Exit] | None => [] end.

Definition exit_fun : U -> U :=
  match exit with Some f => f | None => fun u => u end.

End Spec.

(** [process] entered for 0, 1, ..., m-1. *)
Definition processes (m : nat) : list event :=
  map (fun j => Process (Z.of_nat j)) (seq 0 m).

End LoopSpec.

(** ** Resolved output sets *)

Module ResolveSpec.
Import Loop Heap Vout.

(** [accumulate] as a recursion on the array: bump the first entry with
    this address, or append. *)
Fixpoint insert (a : string) (x : Num.number) (arr : list entry) : list entry :=
  match arr with
  | [] => [mkEntry a x]
  | e :: r => if (addresses e =? a)%string
              then mkEntry (addresses e) (Num.add (amount e) x) :: r
              else e :: insert a x r
  end.

(** One output processed. *)
Definition step (arr : list entry) (o : option RawOutput) : list entry :=
  match resolve_output o with
  | None => arr
  | Some (a, v) => accumulate a (to_satoshi v) arr
  end.

(** The output set when the loop is over. *)
Definition resolve_all (vout : list (option RawOutput)) : list entry :=
  fold_left step vout [].

(** The proof-of-stake step on the two sets. *)
Definition adjust (vout : list (option RawOutput)) (outs ins : list entry)
    : list entry * list entry :=
  if pos_applies vout outs ins then
    match ins, outs with
    | i0 :: ins', o0 :: outs' =>
        (mkEntry (addresses o0) (Num.sub (amount o0) (amount i0)) :: outs', ins')
    | _, _ => (outs, ins)
    end
  else (outs, ins).

(** What the outputs contribute, in order: address and converted value. *)
Definition contributions (vout : list (option RawOutput))
    : list (string * Num.number) :=
  flat_map (fun o => match resolve_output o with
                     | Some (a, v) => [(a, to_satoshi v)]
                     | None => []
                     end) vout.

(** The distinct elements of [l], each at its first occurrence. *)
Definition first_seen (l : list string) : list string :=
  fold_left (fun acc a => if existsb (String.eqb a) acc then acc else acc ++ [a])
            l [].

Definition amounts_for (a : string) (c : list (string * Num.number))
    : list Num.number :=
  map snd (filter (fun p => (fst p =? a)%string) c).

(** [x1 + x2 + ... + xk], added left to right as Numbers. *)
Definition js_sum (l : list Num.number) : Num.number :=
  match l with
  | [] => Num.pzero
  | x :: r => fold_left Num.add r x
  end.

Definition insert_all (c : list (string * Num.number)) (arr : list entry)
    : list entry :=
  fold_left (fun arr p => insert (fst p) (snd p) arr) c arr.

(** Every entry holds the Number sum of what its address was given. *)
Definition summed (c : list (string * Num.number)) (arr : list entry) : Prop :=
  NoDup (map addresses arr) /\
  (forall e, In e arr ->
     amounts_for (addresses e) c <> [] /\
     amount e = js_sum (amounts_for (addresses e) c)) /\
  (forall a, ~ In a (map addresses arr) -> amounts_for a c = []).

(** An output of type [t] paying [v] to the one address [a]. *)
Definition pay (t a : string) (k : Z) (v : Z) : option RawOutput :=
  Some (mkOut (PNum (Num.of_Z v)) k (Some (mkSpk t (Some [a]) None))).

(** The outputs [prepare_vout] skips. *)
Definition skipped (output : option RawOutput) : Prop :=
  match output with
  | None => True
  | Some o =>
      match scriptPubKey o with
      | None => True
      | Some spk =>
          type_ spk = "nonstandard" \/ type_ spk = "nulldata" \/
          ((forall a l, spk_addresses spk <> Some (a :: l)) /\
           (forall a, spk_address spk = Some a -> a = ""))
      end
  end.

(** [addresses[0]] when that array is present and non-empty, else a
    non-empty [address]. *)
Definition primary_address (spk : ScriptPubKey) (a : string) : Prop :=
  match spk_addresses spk with
  | Some (a0 :: _) => a = a0
  | _ => spk_address spk = Some a /\ a <> ""
  end.

(** The skip condition as the specification words it: type nonstandard
    or nulldata with no usable address, or neither a non-empty
    [addresses] array nor an [address] field. *)
Definition spec_skip (o : RawOutput) : bool :=
  match scriptPubKey o with
  | None => true
  | Some spk =>
      let has_addresses := match spk_addresses spk with
                           | Some (_ :: _) => true
                           | _ => false
                           end in
      let has_address := match spk_address spk with
                         | Some _ => true
                         | None => false
                         end in
      let usable := has_addresses || has_address in
      (((type_ spk =? "nonstandard") || (type_ spk =? "nulldata"))%string
       && negb usable)
      || negb usable
  end.

(** A nonstandard output that carries an address. *)
Definition nonstandard_to_A : RawOutput :=
  mkOut (PNum (Num.of_Z 1)) 0 (Some (mkSpk "nonstandard" (Some ["A"]) None)).

(** The guard of the proof-of-stake step, spelled out. *)
Definition pos_condition (vout : list (option RawOutput))
    (outs ins : list entry) : Prop :=
  (exists o spk, nth 0 vout None = Some o /\ scriptPubKey o = Some spk /\
                 type_ spk = "nonstandard") /\
  ins <> [] /\ outs <> [] /\
  (forall i0 o0, hd_error ins = Some i0 -> hd_error outs = Some o0 ->
                 addresses i0 = addresses o0).

Definition is_exit (e : event) : bool :=
  match e with Exit => true | _ => false end.

(** The staking transaction of the specification's example: the empty
    nonstandard marker first, then 6 coins back to "A". *)
Definition stake_vout : list (option RawOutput) :=
  [Some (mkOut (PNum Num.pzero) 0 (Some (mkSpk "nonstandard" None None)));
   pay "pubkeyhash" "A" 1 6].

Definition stake_vin : list entry := [mkEntry "A" (Num.of_Z 500000000)].

End ResolveSpec.

(** ** Resolved input sets *)

Module VinSpec.
Import Vin.
Section WithDataSource.

Variable get_rawtransaction : option string -> option (list RawOutput).

(** The Number sum of the output values, as the coinbase branch adds
    them. *)
Definition output_sum (vout : list (option RawOutput)) : Num.number :=
  fold_left (fun amount o =>
               Num.add amount
                 (Builtins.parseFloat
                    (js_or (match o with Some o' => value o' | None => PUndefined end)
                           (PNum Num.pzero))))
            vout Num.pzero.

(** What [get_input_addresses] hands to [cb]. *)
Definition sources (input : option RawInput) (vout : list (option RawOutput))
    : list source :=
  match input with
  | None => []
  | Some inp =>
      if coinbase inp then [mkSource "coinbase" (PNum (output_sum vout))]
      else match get_rawtransaction (txid inp) with
           | None => []
           | Some outs =>
               match find_n outs (vout_n inp) with
               | Some output =>
                   match match scriptPubKey output with
                         | Some spk => address_list spk
                         | None => []
                         end with
                   | a :: _ => [mkSource a (value output)]
                   | [] => []
                   end
               | None => []
               end
           end
  end.

(** One input processed by [prepare_vin]. *)
Definition vin_step (vout : list (option RawOutput)) (arr : list entry)
    (input : option RawInput) : list entry :=
  match sources input vout with
  | [] => arr
  | addr :: _ => accumulate (hash addr) (to_satoshi (src_amount addr)) arr
  end.

End WithDataSource.

Definition coinbase_input : option RawInput := Some (mkIn None None true).

(** Two outputs of 2.5 coins each. *)
Definition five_coins : list (option RawOutput) :=
  [Some (mkOut (PNum (Num.round_Q false 5 2)) 0
           (Some (mkSpk "pubkeyhash" (Some ["A"]) None)));
   Some (mkOut (PNum (Num.round_Q false 5 2)) 1
           (Some (mkSpk "pubkeyhash" (Some ["B"]) None)))].

End VinSpec.

(** ** Failing supply sources *)

Module SupplySpec.
Import Num Supply.
Section WithSources.

Variable client_command : string -> rpc_reply.
Variable request : string -> http_reply.
Variable Address_findOne : find_one_reply.
Variable Address_find : find_reply.

(** [client.command] reported an error, or its response is one that
    [rpcCommand] turns into 'Invalid RPC response'. *)
Definition rpc_failed (method : string) : Prop :=
  match client_command method with
  | RpcError => True
  | RpcResponse None => True
  | RpcResponse (Some []) => True
  | RpcResponse (Some (r0 :: _)) =>
      truthy_val r0 = false \/ get_prop r0 "name" = PStr "RpcError"
  end.

(** Is a strategy configured ([settings.supply] truthy)? *)
Definition configured (settings : Settings) : bool :=
  match supply settings with
  | Some strategy => negb (strategy =? "")%string%string
  | None => false
  end.

(** The source of the selected strategy failed. *)
Definition source_failed (settings : Settings) : Prop :=
  match supply settings with
  | None => Address_findOne = FindError
  | Some strategy =>
      if (strategy =? "")%string then Address_findOne = FindError
      else if (strategy =? "HEAVY")%string then
        if use_rpc settings then rpc_failed "getsupply"
        else request "getsupply" = HttpError
      else if (strategy =? "GETINFO")%string then
        if use_rpc settings then rpc_failed "getinfo"
        else request "getinfo" = HttpError
      else if (strategy =? "TXOUTSET")%string then
        if use_rpc settings then rpc_failed "gettxoutsetinfo"
        else request "gettxoutsetinfo" = HttpError
      else if (strategy =? "BALANCES")%string then Address_find = FindAllError
      else Address_findOne = FindError
  end.

End WithSources.
End SupplySpec.

(** ** Decimal inputs *)

Module ConvertSpec.
Import Num Digits Builtins.

Definition isdigit (d : Z) : Prop := 0 <= d < 10.

(** The digits [fixed_string] prints: those of [n], padded to 9. *)
Definition padded (n : Z) : list Z :=
  let m := digits_of n in
  if (List.length m <=? 8)%nat then repeat 0 (9 - List.length m) ++ m else m.

(** [input] is the decimal number [z / 10^8]: a string whose numeric
    prefix has at most 8 fractional digits, or the Number nearest to
    it. *)
Definition decimal8 (input : prim) (z : Z) : Prop :=
  (exists s neg M E,
      input = PStr s /\
      StrDecimalLiteral (trim_start s) = Some (LitDecimal neg M E) /\
      -8 <= E /\ z = cond_Zopp neg (M * 10 ^ (E + 8))) \/
  input = PNum (round_Q (z <? 0) (Z.abs z) (10 ^ 8)).

End ConvertSpec.

(** ** Bodies that end a loop *)

Module LoopEndSpec.
Import Loop LoopSpec.
Section Spec.

Context {U : Type}.

(** The calls of [loop.next()] in a body. *)
Fixpoint nexts (acts : list (action U)) : nat :=
  match acts with
  | [] => 0
  | CallNext :: k => S (nexts k)
  | _ :: k => nexts k
  end.

(** The state a body leaves when each [loop.next()] in it does [g]. *)
Fixpoint effect_with (g : U -> U) (acts : list (action U)) (u : U) : U :=
  match acts with
  | [] => u
  | Update f :: k => effect_with g k (f u)
  | CallNext :: k => effect_with g k (g u)
  | _ :: k => effect_with g k u
  end.

End Spec.
End LoopEndSpec.

(** ** The depth of the recursion *)

Module LoopDepthSpec.

(** The calls of [next] nested in each other when the loop is at index
    [i]: up to the next index handed to a timer. *)
Definition depth_from (i : Z) : nat :=
  if i mod 100 =? 0 then 1%nat else Z.to_nat (101 - i mod 100).

End LoopDepthSpec.

(** ** Inputs that resolve *)

Module VinSourceSpec.
Import Vin.

(** Does [get_input_addresses] hand a source to its callback? *)
Definition resolves (get_rawtransaction : option string -> option (list RawOutput))
    (vout : list (option RawOutput)) (input : option RawInput) : bool :=
  match get_input_addresses get_rawtransaction input vout with
  | Some (_, _ :: _) => true
  | _ => false
  end.

(** The addresses of an output of a previous transaction. *)
Definition output_addresses (o : RawOutput) : list string :=
  match scriptPubKey o with
  | Some spk => address_list spk
  | None => []
  end.

(** A data source that knows one previous transaction, paying 3 to "B". *)
Definition prev_tx : option string -> option (list RawOutput) :=
  fun _ => Some [mkOut (PNum (Num.of_Z 3)) 0
                   (Some (mkSpk "pubkeyhash" (Some ["B"]) None))].

End VinSourceSpec.

(** ** Totals *)

Module TotalSpec.
Import Total.

(** One element added to the total. *)
Definition add_amount (total : Num.number) (v : jsval) : Num.number :=
  Num.add total
    (Builtins.parseFloat (js_or (get_prop v "amount") (PNum Num.pzero))).

(** An element whose [amount] can be read. *)
Definition readable (v : jsval) : Prop := amount_of v <> None.

End TotalSpec.

(** ** Answers of the daemon *)

Module DaemonSpec.
Import Supply Daemon.

(** The three messages [rpcCommand] hands on in place of a result. *)
Definition rpc_message (v : jsval) : Prop :=
  v = JPrim (PStr "Invalid parameters") \/
  v = JPrim (PStr "RPC command failed") \/
  v = JPrim (PStr "Invalid RPC response").

(** The first element of the daemon's response array. *)
Definition rpc_result (reply : rpc_reply) : option jsval :=
  match reply with
  | RpcResponse (Some (r0 :: _)) => Some r0
  | _ => None
  end.

(** An answer of the number zero, of either sign. *)
Definition zero_answer (v : jsval) : Prop :=
  exists s, v = JPrim (PNum (S754_zero s)).

End DaemonSpec.

Module SupplySourceSpec.
Import Supply.

(** The strategies answered by the daemon. *)
Definition daemon_strategy (s : option string) : Prop :=
  s = Some "HEAVY" \/ s = Some "GETINFO" \/ s = Some "TXOUTSET".

End SupplySourceSpec.

Module SupplyAnswerSpec.
Import Supply.

(** The daemon's answer to [endpoint] over the interface selected by
    [use_rpc]: the first element of the RPC response, or the HTTP body. *)
Definition daemon_answer (client_command : string -> rpc_reply)
    (request : string -> http_reply) (settings : Settings) (endpoint : string)
    : option jsval :=
  if use_rpc settings then DaemonSpec.rpc_result (client_command endpoint)
  else match request endpoint with
       | HttpBody body => Some body
       | HttpError => None
       end.

(** An object that is not an RPC error and whose field [k] is the
    Number [x]. *)
Definition reports (k : string) (x : Num.number) (v : jsval) : Prop :=
  exists fields, v = JObj fields /\ lookup_field k fields = PNum x /\
                 lookup_field "name" fields <> PStr "RpcError".

End SupplyAnswerSpec.

(** ** Numbers with a sign, Numbers from integers *)

Module FloatSpec.
Import Num.

(** The sign of a Number, where it has one. *)
Definition signed (s : bool) (x : number) : Prop :=
  match x with
  | S754_nan => False
  | S754_zero s' | S754_infinity s' | S754_finite s' _ _ => s' = s
  end.

(** A finite Number other than zero. *)
Definition finite_nonzero (x : number) : bool :=
  match x with
  | S754_finite _ _ _ => true
  | _ => false
  end.

End FloatSpec.

Module IntegerSpec.
Import Num.

(** A Number that was rounded from an integer. *)
Definition from_integer (x : number) : Prop :=
  exists neg k, 0 <= k /\ x = round_Q neg k 1.

End IntegerSpec.

(** ** The requested limit *)

Module ApiSpec.
Import Api.

(** The integer the query asks for, if it reads as one. *)
Definition requested (query_limit : option string) : option Z :=
  match query_limit with
  | None => None
  | Some s => match int_literal s with
              | Some (neg, v) => Some (cond_Zopp neg v)
              | None => None
              end
  end.

(** 100 by default and for 0, else the request brought into 1..1000. *)
Definition clamp (r : option Z) : Z :=
  match r with
  | None | Some 0 => 100
  | Some z => Z.max 1 (Z.min z 1000)
  end.

(** Structural equality of Numbers. *)
Definition same (x y : Num.number) : bool :=
  match x, y with
  | S754_zero a, S754_zero b => Bool.eqb a b
  | S754_infinity a, S754_infinity b => Bool.eqb a b
  | S754_nan, S754_nan => true
  | S754_finite a m e, S754_finite b m' e' =>
      Bool.eqb a b && Pos.eqb m m' && Z.eqb e e'
  | _, _ => false
  end.

End ApiSpec.

(** ** Callbacks that call next once *)

Module LoopOnceSpec.
Import Loop LoopSpec.
Section Spec.

Context {U : Type}.

(** A body that advances the loop once: state updates and asynchronous
    hand-overs, the one [loop.next()], then state updates only. *)
Definition once (body : list (action U)) : Prop :=
  exists pre post,
    body = pre ++ CallNext :: post /\ Forall quiet pre /\ Forall pure_update post.

Variable iterations : Z.
Variable process : Z -> list (action U).
Variable exit : option (U -> U).

(** From [w], [next()] returns and the event loop then runs to its end
    having logged [T], whatever the caller of [next()] does to the
    captured state in between. *)
Definition log_reaches (f F tasks : nat) (w : world U) (T : list event) : Prop :=
  exists w1,
    next iterations process exit f w = (Normal, w1) /\
    forall g : U -> U,
    exists w2,
      drain iterations process exit F tasks (set_user (g (user w1)) w1)
      = (Normal, w2) /\
      trace w2 = trace w ++ T.

(** The same for a body being run. *)
Definition body_log_reaches (f F tasks : nat) (body : list (action U))
    (w : world U) (T : list event) : Prop :=
  exists w1,
    run_body (next iterations process exit f) body w = (Normal, w1) /\
    forall g : U -> U,
    exists w2,
      drain iterations process exit F tasks (set_user (g (user w1)) w1)
      = (Normal, w2) /\
      trace w2 = trace w ++ T.

(** What happens from index [stop] on, as far as the log goes, given
    [a] levels of calls and [b] tasks. *)
Definition log_terminal (stop : Z) (a b : nat) (T : list event) : Prop :=
  forall f F tasks w,
    index w = stop -> done w = false -> queue w = [] ->
    (a <= f)%nat -> (a <= F)%nat -> (b <= tasks)%nat ->
    log_reaches f F tasks w T.

(** Two states of the loop that differ in the captured state only. *)
Definition same_control (w w' : world U) : Prop :=
  index w = index w' /\ done w = done w' /\ shouldExit w = shouldExit w' /\
  queue w = queue w' /\ trace w = trace w'.

(** The control flow does not depend on the captured state. *)
Definition erases (nxt : world U -> outcome * world U) : Prop :=
  forall w w', same_control w w' ->
    fst (nxt w) = fst (nxt w') /\ same_control (snd (nxt w)) (snd (nxt w')).

End Spec.
End LoopOnceSpec.

(** ** The transactions of the corrections *)

Module StakeSpec.
Import ResolveSpec.

(** The output of the specification's example as it is written there:
    type nonstandard and 6 coins to "A" on the same output. *)
Definition nonstandard_stake_to_A : RawOutput :=
  mkOut (PNum (Num.of_Z 6)) 0 (Some (mkSpk "nonstandard" (Some ["A"]) None)).

End StakeSpec.

Module DriftSpec.
Import VinSpec.

(** Two outputs of 33554432.00000001 and 0.00000001 coins. *)
Definition drifting_coins : list (option RawOutput) :=
  [Some (mkOut (PNum (Num.round_Q false 3355443200000001 (10 ^ 8))) 0
           (Some (mkSpk "pubkeyhash" (Some ["A"]) None)));
   Some (mkOut (PNum (Num.round_Q false 1 (10 ^ 8))) 1
           (Some (mkSpk "pubkeyhash" (Some ["B"]) None)))].

End DriftSpec.

(** ** What get_supply reads of an answer *)

Module SupplyReadSpec.
Import Num Supply.

(** The endpoint of a daemon strategy and the field read of its answer. *)
Definition daemon_source (strategy : string) : option (string * option string) :=
  if (strategy =? "HEAVY")%string then Some ("getsupply", None)
  else if (strategy =? "GETINFO")%string then Some ("getinfo", Some "moneysupply")
  else if (strategy =? "TXOUTSET")%string
  then Some ("gettxoutsetinfo", Some "total_amount")
  else None.

(** The answer itself, or [answer && answer.field]. *)
Definition read_answer (field : option string) (answer : jsval) : jsval :=
  match field with
  | Some k => and_prop answer k
  | None => answer
  end.

(** An answer in whose place [rpcCommand] hands on a message: a falsy
    one, or one whose [name] is "RpcError". *)
Definition rpc_refused (answer : jsval) : bool :=
  negb (truthy_val answer) ||
  match get_prop answer "name" with
  | PStr name => (name =? "RpcError")%string
  | _ => false
  end.

(** The total the balance store gives for a strategy that is not one of
    the daemon's. *)
Definition store_total (Address_findOne : find_one_reply)
    (Address_find : find_reply) (strategy : string) : number :=
  if (strategy =? "BALANCES")%string then balance_supply Address_find
  else coinbase_supply Address_findOne.

End SupplyReadSpec.

(** * Proofs *)

(** ** Facts about syncLoop *)

Module LoopFacts.
Import Loop LoopSpec.
Section Facts.

Context {U : Type}.
Variable iterations : Z.
Variable process : Z -> list (action U).
Variable exit : option (U -> U).

Abbreviation next := (next iterations process exit).
Abbreviation drain := (drain iterations process exit).
Abbreviation run_body := (run_body (U := U)).
Abbreviation call_exit := (call_exit exit).
Abbreviation seg_user := (seg_user process).
Abbreviation seg_yields := (seg_yields process).
Abbreviation reaches := (reaches iterations process exit).
Abbreviation body_reaches := (body_reaches iterations process exit).
Abbreviation terminal := (terminal iterations process exit).
Abbreviation exit_trace := (exit_trace exit).
Abbreviation exit_fun := (exit_fun exit).

Lemma drain_empty F tasks (w : world U) :
  queue w = [] -> drain F tasks w = (Normal, w).
Proof. intros H. destruct tasks; simpl; rewrite H; reflexivity. Qed.

Lemma drain_cons F tasks t (w : world U) :
  queue w = [t] ->
  drain F (S tasks) w =
    match run_task iterations process exit F t (set_queue [] w) with
    | (Normal, w') => drain F tasks w'
    | (Thrown, w') => (Thrown, log Uncaught w')
    | (OutOfFuel, w') => (OutOfFuel, w')
    end.
Proof. intros H. simpl. rewrite H. reflexivity. Qed.

Section Segment.

Variables (stop : Z) (a b : nat) (o : outcome) (T : list event) (g : U -> U).
Hypothesis Hstop : stop <= iterations.
Hypothesis Hterm : terminal stop a b o T g.

(** A steady body whose last [loop.next()] finds the loop at [j]. *)
Lemma steady_body_reaches (j : Z) (T' : list event) (g' : U -> U) (c d : nat) :
  (forall f F tasks w,
      index w = j -> done w = false -> queue w = [] ->
      (c <= f)%nat -> (c <= F)%nat -> (d <= tasks)%nat ->
      reaches f F tasks w o T' (g' (user w))) ->
  forall body, steady body ->
  forall f F tasks w,
    index w = j -> done w = false -> queue w = [] ->
    (c <= f)%nat -> (c <= F)%nat -> (d + yields body <= tasks)%nat ->
    body_reaches f F tasks body w o T' (g' (effect body (user w))).
Proof.
  intros Hnext body Hbody.
  induction Hbody as [|u0 k Hk IH|k Hk IH]; intros f F tasks w Hi Hd Hq Hf HF Ht.
  - destruct (Hnext f F tasks w Hi Hd Hq Hf HF ltac:(simpl in Ht; lia))
      as (w1 & w2 & H1 & H2 & H3 & H4).
    exists w1, w2. simpl. rewrite H1. auto.
  - destruct (IH f F tasks (set_user (u0 (user w)) w) Hi Hd Hq Hf HF
                ltac:(simpl in Ht; lia)) as (w1 & w2 & H1 & H2 & H3 & H4).
    exists w1, w2. simpl. auto.
  - simpl in Ht. destruct tasks as [|tasks]; [lia|].
    destruct (IH F F tasks (set_queue [] (enqueue (Continue k) w)) Hi Hd eq_refl
                HF HF ltac:(lia)) as (w1 & w2 & H1 & H2 & H3 & H4).
    exists (enqueue (Continue k) w), w2. simpl run_body.
    split; [reflexivity|].
    rewrite (drain_cons F tasks (Continue k)) by (simpl; rewrite Hq; reflexivity).
    simpl run_task. simpl in H1. simpl. rewrite H1. auto.
Qed.

Lemma segment_reaches (k : nat) :
  forall i, i = stop - Z.of_nat k -> 0 <= i ->
  (forall j, i <= j < stop -> steady (process j)) ->
  forall f F tasks w,
    index w = i -> done w = false -> queue w = [] ->
    (a + k <= f)%nat -> (a + k <= F)%nat ->
    (b + k + seg_yields i k <= tasks)%nat ->
    reaches f F tasks w o (seg_trace i k ++ T) (g (seg_user i k (user w))).
Proof.
  induction k as [|k IH]; intros i Hi Hi0 Hsteady f F tasks w Hw Hd Hq Hf HF Ht.
  - simpl. apply Hterm; auto; try lia.
  - assert (Hlt : i < iterations) by lia.
    destruct f as [|f]; [lia|].
    assert (IH' := IH (i + 1) ltac:(lia) ltac:(lia)
                     (fun j Hj => Hsteady j ltac:(lia))).
    assert (Hbody := steady_body_reaches (i + 1)
              (seg_trace (i + 1) k ++ T)
              (fun u => g (seg_user (i + 1) k u)) (a + k)%nat
              (b + k + seg_yields (i + 1) k)%nat).
    specialize (Hbody ltac:(intros; apply IH'; auto; simpl in *; lia)).
    specialize (Hbody (process i) (Hsteady i ltac:(lia))).
    cbn [LoopSpec.seg_trace LoopSpec.seg_user]. cbn [LoopSpec.seg_yields] in Ht.
    unfold LoopSpec.reaches. simpl next. rewrite Hd.
    replace (index w <? iterations) with true by (symmetry; apply Z.ltb_lt; lia).
    destruct (index w mod 100 =? 0) eqn:Hmod.
    + destruct tasks as [|tasks]; [lia|].
      set (w1 := set_index (index w + 1) w).
      destruct (Hbody F F tasks (log (Process i) (set_queue [] (enqueue TimerProcess w1))))
        as (w2 & w3 & H1 & H2 & H3 & H4);
        try (simpl; auto; lia).
      exists (enqueue TimerProcess w1), w3.
      split; [reflexivity|].
      rewrite (drain_cons F tasks TimerProcess)
        by (simpl; rewrite Hq; reflexivity).
      unfold run_task, call_process.
      simpl index. replace (index w + 1 - 1) with i by lia.
      simpl in H1. simpl. rewrite H1.
      split; [exact H2|]. split; [|exact H4].
      rewrite H3. simpl. rewrite <- app_assoc. reflexivity.
    + set (w1 := set_index (index w + 1) w).
      destruct (Hbody f F tasks (log (Process i) w1))
        as (w2 & w3 & H1 & H2 & H3 & H4);
        try (simpl; auto; lia).
      exists w2, w3.
      unfold call_process. simpl index.
      replace (index w + 1 - 1) with i by lia.
      rewrite H1.
      split; [reflexivity|]. split; [exact H2|]. split; [|exact H4].
      rewrite H3. simpl. rewrite <- app_assoc. reflexivity.
Qed.

End Segment.

(** *** How a run ends *)

Lemma call_exit_trace (w : world U) :
  trace (call_exit w) = trace w ++ exit_trace.
Proof.
  unfold Loop.call_exit, LoopSpec.exit_trace. destruct exit; simpl; auto using app_nil_r.
Qed.

Lemma call_exit_user (w : world U) : user (call_exit w) = exit_fun (user w).
Proof. unfold Loop.call_exit, LoopSpec.exit_fun. destruct exit; reflexivity. Qed.

Lemma call_exit_queue (w : world U) : queue (call_exit w) = queue w.
Proof. unfold Loop.call_exit. destruct exit; reflexivity. Qed.

(** Past the last index: [done = true; exit()]. *)
Lemma terminal_end : terminal iterations 1 0 Normal exit_trace exit_fun.
Proof.
  intros f F tasks w Hi Hd Hq Hf HF Ht.
  destruct f as [|f]; [lia|].
  exists (call_exit (set_done true w)), (call_exit (set_done true w)).
  simpl. rewrite Hd.
  replace (index w <? iterations) with false by (symmetry; apply Z.ltb_ge; lia).
  split; [reflexivity|]. split.
  - apply drain_empty. rewrite call_exit_queue. exact Hq.
  - rewrite call_exit_trace, call_exit_user. auto.
Qed.

(** After [loop.break(false)], further [loop.next()] calls do nothing. *)
Lemma after_break post :
  Forall calm post ->
  forall f F tasks w,
    done w = true -> shouldExit w = false -> queue w = [] ->
    (1 <= f)%nat -> (1 <= F)%nat -> (yields post <= tasks)%nat ->
    body_reaches f F tasks post w Normal [] (effect post (user w)).
Proof.
  induction 1 as [|x post Hx Hpost IH]; intros f F tasks w Hd Hs Hq Hf HF Ht.
  - exists w, w. simpl. rewrite app_nil_r. auto using drain_empty.
  - destruct x; simpl in Hx; try contradiction.
    + destruct (IH f F tasks (set_user (f0 (user w)) w) Hd Hs Hq Hf HF
                  ltac:(simpl in Ht; lia)) as (w1 & w2 & H1 & H2 & H3 & H4).
      exists w1, w2. simpl. auto.
    + destruct (IH f F tasks w Hd Hs Hq Hf HF ltac:(simpl in Ht; lia))
        as (w1 & w2 & H1 & H2 & H3 & H4).
      exists w1, w2. destruct f as [|f]; [lia|].
      simpl. simpl in H1. rewrite Hd, Hs. auto.
    + simpl in Ht. destruct tasks as [|tasks]; [lia|].
      destruct (IH F F tasks (set_queue [] (enqueue (Continue post) w)) Hd Hs
                  eq_refl HF HF ltac:(lia)) as (w1 & w2 & H1 & H2 & H3 & H4).
      exists (enqueue (Continue post) w), w2.
      split; [reflexivity|].
      rewrite (drain_cons F tasks (Continue post))
        by (simpl; rewrite Hq; reflexivity).
      simpl run_task. simpl in H1. simpl. rewrite H1. auto.
Qed.

Lemma break_body pre post :
  Forall quiet pre -> Forall calm post ->
  forall f F tasks w,
    queue w = [] -> (1 <= f)%nat -> (1 <= F)%nat ->
    (yields (pre ++ CallBreak false :: post) <= tasks)%nat ->
    body_reaches f F tasks (pre ++ CallBreak false :: post) w Normal []
      (effect (pre ++ CallBreak false :: post) (user w)).
Proof.
  intros Hpre Hpost.
  induction Hpre as [|x pre Hx Hpre IH]; intros f F tasks w Hq Hf HF Ht.
  - simpl app. simpl in Ht.
    destruct (after_break post Hpost f F tasks
                (set_shouldExit false (set_done true w)) eq_refl eq_refl Hq
                Hf HF Ht) as (w1 & w2 & H1 & H2 & H3 & H4).
    exists w1, w2. simpl. auto.
  - destruct x; simpl in Hx; try contradiction.
    + destruct (IH f F tasks (set_user (f0 (user w)) w) Hq Hf HF
                  ltac:(simpl in Ht; lia)) as (w1 & w2 & H1 & H2 & H3 & H4).
      exists w1, w2. simpl. auto.
    + simpl in Ht. destruct tasks as [|tasks]; [lia|].
      destruct (IH F F tasks
                  (set_queue [] (enqueue (Continue (pre ++ CallBreak false :: post)) w))
                  eq_refl HF HF ltac:(lia)) as (w1 & w2 & H1 & H2 & H3 & H4).
      exists (enqueue (Continue (pre ++ CallBreak false :: post)) w), w2.
      split; [reflexivity|].
      rewrite (drain_cons F tasks (Continue (pre ++ CallBreak false :: post)))
        by (simpl; rewrite Hq; reflexivity).
      simpl run_task. simpl in H1. simpl. rewrite H1. auto.
Qed.

(** Iteration [k] calls [loop.break(false)]. *)
Lemma terminal_break k pre post :
  k < iterations ->
  process k = pre ++ CallBreak false :: post ->
  Forall quiet pre -> Forall calm post ->
  terminal k 2 (1 + yields (process k)) Normal [Process k] (effect (process k)).
Proof.
  intros Hk Hbody Hpre Hpost f F tasks w Hi Hd Hq Hf HF Ht.
  destruct f as [|f]; [lia|].
  unfold LoopSpec.reaches. simpl next. rewrite Hd.
  replace (index w <? iterations) with true by (symmetry; apply Z.ltb_lt; lia).
  set (w1 := set_index (index w + 1) w).
  destruct (index w mod 100 =? 0) eqn:Hmod.
  - destruct tasks as [|tasks]; [lia|].
    destruct (break_body pre post Hpre Hpost F F tasks
                (log (Process k) (set_queue [] (enqueue TimerProcess w1)))
                eq_refl ltac:(lia) ltac:(lia)
                ltac:(rewrite <- Hbody; lia))
      as (w2 & w3 & H1 & H2 & H3 & H4).
    exists (enqueue TimerProcess w1), w3.
    split; [reflexivity|].
    rewrite (drain_cons F tasks TimerProcess) by (simpl; rewrite Hq; reflexivity).
    unfold run_task, call_process. simpl index.
    replace (index w + 1 - 1) with k by lia.
    rewrite Hbody. simpl in H1. simpl. rewrite H1.
    split; [exact H2|]. split.
    + rewrite H3. simpl. rewrite app_nil_r. reflexivity.
    + exact H4.
  - destruct (break_body pre post Hpre Hpost f F tasks (log (Process k) w1)
                Hq ltac:(lia) ltac:(lia) ltac:(rewrite <- Hbody; lia))
      as (w2 & w3 & H1 & H2 & H3 & H4).
    exists w2, w3. unfold call_process. simpl index.
    replace (index w + 1 - 1) with k by lia.
    rewrite Hbody, H1.
    split; [reflexivity|]. split; [exact H2|]. split.
    + rewrite H3. simpl. rewrite app_nil_r. reflexivity.
    + exact H4.
Qed.

Lemma run_updates (nxt : world U -> outcome * world U) pre rest (w : world U) :
  Forall pure_update pre ->
  run_body nxt (pre ++ rest) w = run_body nxt rest (set_user (effect pre (user w)) w).
Proof.
  intros Hpre. revert w.
  induction Hpre as [|x pre Hx Hpre IH]; intros w.
  - simpl. destruct w; reflexivity.
  - destruct x; simpl in Hx; try contradiction. simpl. rewrite IH. reflexivity.
Qed.

(** Iteration [k] throws and was called directly from [next]: the [catch]
    block runs [exit()]. *)
Lemma terminal_throw_caught k pre rest :
  k < iterations -> k mod 100 <> 0 ->
  process k = pre ++ Throw :: rest ->
  Forall pure_update pre ->
  terminal k 1 0 Normal ([Process k; Caught] ++ exit_trace)
    (fun u => exit_fun (effect pre u)).
Proof.
  intros Hk Hmod Hbody Hpre f F tasks w Hi Hd Hq Hf HF Ht.
  destruct f as [|f]; [lia|].
  unfold LoopSpec.reaches. simpl next. rewrite Hd.
  replace (index w <? iterations) with true by (symmetry; apply Z.ltb_lt; lia).
  replace (index w mod 100 =? 0) with false
    by (symmetry; apply Z.eqb_neq; congruence).
  unfold call_process. simpl index.
  replace (index w + 1 - 1) with k by lia.
  rewrite Hbody, run_updates by assumption. simpl run_body.
  eexists _, _. split; [reflexivity|]. split.
  - apply drain_empty. rewrite call_exit_queue. simpl. exact Hq.
  - rewrite call_exit_trace, call_exit_user. simpl.
    rewrite <- !app_assoc. simpl. auto.
Qed.

(** Iteration [k] throws and was called from the timer: nothing catches
    it, and [exit()] is not called. *)
Lemma terminal_throw_uncaught k pre rest :
  k < iterations -> k mod 100 = 0 ->
  process k = pre ++ Throw :: rest ->
  Forall pure_update pre ->
  terminal k 1 1 Thrown [Process k; Uncaught] (effect pre).
Proof.
  intros Hk Hmod Hbody Hpre f F tasks w Hi Hd Hq Hf HF Ht.
  destruct f as [|f]; [lia|]. destruct tasks as [|tasks]; [lia|].
  unfold LoopSpec.reaches. simpl next. rewrite Hd.
  replace (index w <? iterations) with true by (symmetry; apply Z.ltb_lt; lia).
  replace (index w mod 100 =? 0) with true
    by (symmetry; apply Z.eqb_eq; congruence).
  eexists _, _. split; [reflexivity|].
  rewrite (drain_cons F tasks TimerProcess) by (simpl; rewrite Hq; reflexivity).
  unfold run_task, call_process. simpl index.
  replace (index w + 1 - 1) with k by lia.
  rewrite Hbody, run_updates by assumption. simpl run_body.
  split; [reflexivity|]. simpl. rewrite <- app_assoc. auto.
Qed.

(** *** Whole runs *)

Lemma run_reaches stop a b o T g :
  0 <= stop <= iterations -> 0 < iterations ->
  terminal stop a b o T g ->
  (forall j, 0 <= j < stop -> steady (process j)) ->
  forall fuel u,
    (a + Z.to_nat stop <= fuel)%nat ->
    (b + Z.to_nat stop + seg_yields 0 (Z.to_nat stop) <= fuel)%nat ->
    exists w,
      run iterations process exit fuel u = (o, w) /\
      trace w = seg_trace 0 (Z.to_nat stop) ++ T /\
      user w = g (seg_user 0 (Z.to_nat stop) u).
Proof.
  intros Hstop Hpos Hterm Hsteady fuel u Hf Ht.
  destruct (segment_reaches stop a b o T g ltac:(lia) Hterm (Z.to_nat stop) 0
              ltac:(lia) ltac:(lia) Hsteady fuel fuel fuel (initial u)
              eq_refl eq_refl eq_refl Hf Hf Ht)
    as (w1 & w2 & H1 & H2 & H3 & H4).
  exists w2. unfold run, syncLoop.
  replace (iterations <=? 0) with false by (symmetry; apply Z.leb_gt; lia).
  rewrite H1, H2. auto.
Qed.

(** [if (!iterations || iterations <= 0) { if (exit) exit(); return ... }] *)
Lemma run_nothing fuel u :
  iterations <= 0 ->
  syncLoop iterations process exit fuel u = (Normal, call_exit (initial u)) /\
  run iterations process exit fuel u = (Normal, call_exit (initial u)).
Proof.
  intros H. unfold run, syncLoop.
  replace (iterations <=? 0) with true by (symmetry; apply Z.leb_le; lia).
  split; [reflexivity|]. apply drain_empty. rewrite call_exit_queue. reflexivity.
Qed.

Lemma exited_snoc (w : world U) l : trace w = l ++ [Exit] -> exited w = true.
Proof.
  intros H. unfold exited. rewrite H, existsb_app. simpl. apply orb_true_r.
Qed.

End Facts.

Lemma seg_trace_map i k :
  seg_trace i k = map (fun j => Process (i + Z.of_nat j)) (seq 0 k).
Proof.
  revert i; induction k as [|k IH]; intros i; auto.
  cbn [seg_trace seq map]. rewrite IH, <- seq_shift, map_map.
  f_equal; [f_equal; lia|]. apply map_ext. intros j. f_equal. lia.
Qed.

Lemma seg_trace_processes m : seg_trace 0 m = processes m.
Proof. apply seg_trace_map. Qed.

End LoopFacts.

(** ** Facts about the heap *)

Module HeapFacts.
Import Heap.

Lemma length_write r a h : List.length (write r a h) = List.length h.
Proof.
  revert r; induction h as [|x h IH]; intros [|r]; simpl; auto.
Qed.

Lemma read_write_same r a h :
  (r < List.length h)%nat -> read r (write r a h) = a.
Proof.
  unfold read. revert r; induction h as [|x h IH]; intros [|r] H; simpl in *;
    try lia; auto. apply IH. lia.
Qed.

Lemma read_write_other r r' a h :
  r <> r' -> read r (write r' a h) = read r h.
Proof.
  unfold read. revert r r'; induction h as [|x h IH]; intros [|r] [|r'] H;
    simpl; auto; try congruence.
Qed.

Lemma write_write r a b h : write r a (write r b h) = write r a h.
Proof.
  revert r; induction h as [|x h IH]; intros [|r]; simpl; auto.
  rewrite IH. reflexivity.
Qed.

Lemma write_read r h : write r (read r h) h = h.
Proof.
  unfold read. revert r; induction h as [|x h IH]; intros [|r]; simpl; auto.
  rewrite IH. reflexivity.
Qed.

Lemma read_app_old r h t : (r < List.length h)%nat -> read r (h ++ t) = read r h.
Proof. intros H. unfold read. apply app_nth1. exact H. Qed.

Lemma read_app_new k h t : read (List.length h + k)%nat (h ++ t) = nth k t [].
Proof.
  unfold read. rewrite app_nth2 by lia. f_equal. lia.
Qed.

Lemma write_app_new k a h t :
  write (List.length h + k)%nat a (h ++ t) = h ++ write k a t.
Proof. induction h as [|x h IH]; simpl; auto. rewrite IH. reflexivity. Qed.

End HeapFacts.

(** ** Facts about is_unique and accumulate *)

Module EntryFacts.
Import ResolveSpec.

Lemma scan_shift arr a i : scan arr a (S i) = option_map S (scan arr a i).
Proof.
  revert i; induction arr as [|e r IH]; intros i; simpl; auto.
  destruct (addresses e =? a)%string; auto.
Qed.

Lemma accumulate_insert a x arr : accumulate a x arr = insert a x arr.
Proof.
  unfold accumulate, is_unique.
  induction arr as [|e r IH]; simpl; auto.
  destruct (addresses e =? a)%string eqn:E; simpl; auto.
  rewrite scan_shift.
  destruct (scan r a 0) as [j|]; simpl in *; rewrite IH; reflexivity.
Qed.

(** [is_unique] answers [false] with the first index holding the address,
    [true] when no entry holds it. *)
Lemma is_unique_spec arr a :
  match is_unique arr a with
  | (false, Some i) =>
      (exists e, nth_error arr i = Some e /\ addresses e = a) /\
      ~ In a (map addresses (firstn i arr))
  | (true, None) => ~ In a (map addresses arr)
  | _ => False
  end.
Proof.
  unfold is_unique.
  induction arr as [|e r IH]; simpl; auto.
  destruct (addresses e =? a)%string eqn:E.
  - apply String.eqb_eq in E. split; [exists e; auto | simpl; auto].
  - apply String.eqb_neq in E. rewrite scan_shift.
    destruct (scan r a 0) as [j|]; simpl in *.
    + destruct IH as [IH1 IH2]. split; [exact IH1 | intros [H|H]; auto].
    + intros [H|H]; auto.
Qed.

Lemma insert_addresses a x arr :
  map addresses (insert a x arr) =
    if existsb (String.eqb a) (map addresses arr)
    then map addresses arr else map addresses arr ++ [a].
Proof.
  induction arr as [|e r IH]; simpl; auto.
  rewrite (String.eqb_sym a).
  destruct (addresses e =? a)%string eqn:E; simpl; auto.
  rewrite IH. destruct (existsb (String.eqb a) (map addresses r)); reflexivity.
Qed.

End EntryFacts.

(** ** prepare_vout as a fold over the outputs *)

Module VoutFacts.
Import Loop Heap Vout LoopSpec ResolveSpec LoopFacts HeapFacts EntryFacts.

Lemma read_fst h x y : read (List.length h) (h ++ [x; y]) = x.
Proof.
  replace (List.length h) with (List.length h + 0)%nat by lia.
  apply read_app_new.
Qed.

Lemma read_snd h x y : read (S (List.length h)) (h ++ [x; y]) = y.
Proof.
  replace (S (List.length h)) with (List.length h + 1)%nat by lia.
  apply read_app_new.
Qed.

Lemma write_fst h x y a : write (List.length h) a (h ++ [x; y]) = h ++ [a; y].
Proof.
  replace (List.length h) with (List.length h + 0)%nat by lia.
  apply write_app_new.
Qed.

Lemma write_snd h x y a : write (S (List.length h)) a (h ++ [x; y]) = h ++ [x; a].
Proof.
  replace (S (List.length h)) with (List.length h + 1)%nat by lia.
  apply write_app_new.
Qed.

Lemma process_steady r vout i : steady (process r vout i).
Proof.
  unfold process. destruct (resolve_output _) as [[a v]|]; repeat constructor.
Qed.

Lemma seg_yields_process r vout i k : seg_yields (process r vout) i k = 0%nat.
Proof.
  revert i; induction k as [|k IH]; intros i; simpl; auto.
  rewrite IH. unfold process.
  destruct (resolve_output _) as [[a v]|]; reflexivity.
Qed.

Lemma effect_process r vout i h :
  effect (process r vout i) h =
    write r (step (read r h) (nth (Z.to_nat i) vout None)) h.
Proof.
  unfold process, step.
  destruct (resolve_output _) as [[a v]|]; simpl; auto.
  symmetry. apply write_read.
Qed.

Lemma seg_user_process r todo :
  forall before h, (r < List.length h)%nat ->
    seg_user (process r (before ++ todo)) (Z.of_nat (List.length before))
      (List.length todo) h
    = write r (fold_left step todo (read r h)) h.
Proof.
  induction todo as [|o todo IH]; intros before h Hr.
  - simpl. symmetry. apply write_read.
  - cbn [List.length seg_user fold_left].
    rewrite effect_process, Nat2Z.id, nth_middle.
    replace (before ++ o :: todo) with ((before ++ [o]) ++ todo)
      by (rewrite <- app_assoc; reflexivity).
    replace (Z.of_nat (List.length before) + 1)
      with (Z.of_nat (List.length (before ++ [o])))
      by (rewrite length_app; simpl; lia).
    rewrite IH by (rewrite length_write; exact Hr).
    rewrite read_write_same, write_write by exact Hr. reflexivity.
Qed.

Lemma exit_spec h outs ins vout :
  exit (List.length h) (S (List.length h)) vout (h ++ [outs; ins]) =
  h ++ [fst (adjust vout outs ins); snd (adjust vout outs ins)].
Proof.
  unfold exit, adjust. rewrite read_fst, read_snd.
  destruct (pos_applies vout outs ins); auto.
  destruct ins as [|i0 ins']; auto. destruct outs as [|o0 outs']; auto.
  rewrite write_fst, write_snd. reflexivity.
Qed.

(** The loop of [prepare_vout] on its two fresh arrays. *)
Lemma loop_spec h ins vout :
  exists w,
    loop (List.length h) (S (List.length h)) vout (h ++ [[]; ins]) = (Normal, w) /\
    trace w = map (fun j => Process (Z.of_nat j)) (seq 0 (List.length vout)) ++ [Exit] /\
    user w = h ++ [fst (adjust vout (resolve_all vout) ins);
                   snd (adjust vout (resolve_all vout) ins)].
Proof.
  unfold loop.
  destruct vout as [|o vout'] eqn:Hv.
  - destruct (run_nothing 0 (process (List.length h) [])
                (Some (exit (List.length h) (S (List.length h)) []))
                (fuel_for (@nil (option RawOutput))) (h ++ [[]; ins]) ltac:(lia))
      as [_ H].
    simpl List.length. simpl Z.of_nat. rewrite H.
    eexists. split; [reflexivity|]. split; [reflexivity|].
    simpl. apply exit_spec.
  - rewrite <- Hv. clear Hv o vout'.
    set (n := Z.of_nat (List.length vout)).
    set (ro := List.length h).
    assert (Hn : 0 < n \/ vout = []) by (destruct vout; simpl in *; [auto|left; lia]).
    destruct Hn as [Hn|Hn]; [|subst vout].
    + destruct (run_reaches n (process ro vout)
                  (Some (exit ro (S ro) vout)) n 1 0 Normal
                  (exit_trace (Some (exit ro (S ro) vout)))
                  (exit_fun (Some (exit ro (S ro) vout)))
                  ltac:(lia) Hn
                  (terminal_end n (process ro vout) (Some (exit ro (S ro) vout)))
                  (fun j _ => process_steady ro vout j)
                  (fuel_for vout) (h ++ [[]; ins]))
        as (w & H1 & H2 & H3).
      * unfold fuel_for, n. lia.
      * rewrite seg_yields_process. unfold fuel_for, n. lia.
      * exists w. split; [exact H1|]. split.
        -- rewrite H2, seg_trace_map. unfold n.
           rewrite Nat2Z.id. reflexivity.
        -- rewrite H3. unfold n. rewrite Nat2Z.id.
           change 0 with (Z.of_nat (List.length (@nil (option RawOutput)))).
           change vout with ([] ++ vout) at 2.
           rewrite seg_user_process by (unfold ro; rewrite length_app; simpl; lia).
           unfold ro. rewrite read_fst, write_fst. simpl exit_fun.
           apply exit_spec.
    + destruct (run_nothing 0 (process ro [])
                  (Some (exit ro (S ro) []))
                  (fuel_for (@nil (option RawOutput))) (h ++ [[]; ins]) ltac:(lia))
        as [_ H].
      subst n. simpl List.length. simpl Z.of_nat. rewrite H.
      eexists. split; [reflexivity|]. split; [reflexivity|].
      simpl. apply exit_spec.
Qed.

(** What [prepare_vout] hands to [cb] when [vout] is an array. *)
Lemma prepare_vout_spec h vout vin :
  let ins := match vin with Some r => read r (h ++ [[]]) | None => [] end in
  prepare_vout h (Some vout) vin =
    Some (h ++ [fst (adjust vout (resolve_all vout) ins);
                snd (adjust vout (resolve_all vout) ins)],
          List.length h, S (List.length h)).
Proof.
  intros ins. unfold prepare_vout, alloc.
  rewrite length_app. simpl List.length.
  replace (List.length h + 1)%nat with (S (List.length h)) by lia.
  rewrite <- app_assoc. simpl app. fold ins.
  destruct (loop_spec h ins vout) as (w & H1 & H2 & H3).
  rewrite H1, (exited_snoc w _ H2), H3. reflexivity.
Qed.

End VoutFacts.

Module FoldFacts.
Import Loop LoopSpec LoopFacts.
Section Fold.
Context {U A : Type}.
Variables (process : Z -> list (action U)) (l : list A) (d : A) (step : U -> A -> U).
Hypothesis effect_step :
  forall i u, effect (process i) u = step u (nth (Z.to_nat i) l d).

(** Steady iterations over an array fold their updates over it. *)
Lemma seg_user_fold todo :
  forall before u, l = before ++ todo ->
    seg_user process (Z.of_nat (List.length before)) (List.length todo) u
    = fold_left step todo u.
Proof.
  induction todo as [|x todo IH]; intros before u Hl; auto.
  cbn [List.length seg_user fold_left].
  rewrite effect_step, Nat2Z.id, Hl, nth_middle.
  replace (Z.of_nat (List.length before) + 1)
    with (Z.of_nat (List.length (before ++ [x])))
    by (rewrite length_app; simpl; lia).
  apply IH. rewrite Hl, <- app_assoc. reflexivity.
Qed.

End Fold.
End FoldFacts.

Module ResolveFacts.
Import Vout ResolveSpec EntryFacts VoutFacts.

Lemma fold_step_contributions vout arr :
  fold_left step vout arr = insert_all (contributions vout) arr.
Proof.
  revert arr; induction vout as [|o vout IH]; intros arr; auto.
  cbn [fold_left contributions flat_map]. unfold insert_all.
  rewrite fold_left_app. fold (contributions vout).
  rewrite IH. unfold insert_all. f_equal.
  unfold step. destruct (resolve_output o) as [[a v]|]; simpl; auto.
  apply accumulate_insert.
Qed.

Lemma resolve_all_insert_all vout :
  resolve_all vout = insert_all (contributions vout) [].
Proof. apply fold_step_contributions. Qed.

Lemma existsb_eqb_In a l : existsb (String.eqb a) l = true <-> In a l.
Proof.
  rewrite existsb_exists. split.
  - intros (x & Hx & E). apply String.eqb_eq in E. subst. exact Hx.
  - intros H. exists a. split; [exact H | apply String.eqb_refl].
Qed.

Lemma insert_all_addresses c arr :
  map addresses (insert_all c arr) =
  fold_left (fun acc a => if existsb (String.eqb a) acc then acc else acc ++ [a])
            (map fst c) (map addresses arr).
Proof.
  revert arr; induction c as [|[a x] c IH]; intros arr; auto.
  cbn [insert_all fold_left map fst snd]. fold (insert_all c).
  rewrite IH, insert_addresses.
  destruct (existsb (String.eqb a) (map addresses arr)); auto.
Qed.

Lemma first_seen_NoDup l acc :
  NoDup acc ->
  NoDup (fold_left (fun acc a => if existsb (String.eqb a) acc then acc else acc ++ [a])
                   l acc).
Proof.
  revert acc; induction l as [|a l IH]; intros acc H; auto.
  simpl. apply IH.
  destruct (existsb (String.eqb a) acc) eqn:E; auto.
  assert (~ In a acc) by (rewrite <- existsb_eqb_In; congruence).
  clear E IH. induction H as [|y acc Hy H' IH]; simpl.
  - constructor; [auto | constructor].
  - constructor.
    + rewrite in_app_iff. simpl. intros [?|[?|[]]]; subst; simpl in *; tauto.
    + apply IH. simpl in *. tauto.
Qed.

Lemma amounts_for_app a c1 c2 :
  amounts_for a (c1 ++ c2) = amounts_for a c1 ++ amounts_for a c2.
Proof. unfold amounts_for. rewrite filter_app, map_app. reflexivity. Qed.

Lemma js_sum_snoc l x :
  js_sum (l ++ [x]) = match l with [] => x | _ => Num.add (js_sum l) x end.
Proof.
  destruct l as [|y r]; auto. simpl. rewrite fold_left_app. reflexivity.
Qed.

(** Where the entries of [insert a x arr] come from. *)
Lemma insert_In a x arr e' :
  NoDup (map addresses arr) ->
  In e' (insert a x arr) ->
  (In e' arr /\ addresses e' <> a) \/
  (addresses e' = a /\
   ((~ In a (map addresses arr) /\ amount e' = x) \/
    (exists e, In e arr /\ addresses e = a /\ amount e' = Num.add (amount e) x))).
Proof.
  induction arr as [|e r IH]; intros Hnd Hin.
  - simpl in Hin. destruct Hin as [<-|[]]. right. simpl. auto.
  - simpl in Hin. inversion Hnd as [|? ? Hne Hnd']; subst.
    destruct (addresses e =? a)%string eqn:E.
    + apply String.eqb_eq in E. destruct Hin as [<-|Hin].
      * right. simpl. split; auto. right. exists e. simpl. auto.
      * left. split; [right; exact Hin|]. intros Heq. apply Hne.
        rewrite E, <- Heq. apply in_map. exact Hin.
    + apply String.eqb_neq in E. destruct Hin as [<-|Hin].
      * left. simpl. auto.
      * destruct (IH Hnd' Hin) as [[H1 H2]|[H1 [[H2 H3]|(e0 & H2 & H3 & H4)]]].
        -- left. simpl. auto.
        -- right. split; auto. left. split; auto. simpl. intros [?|?]; auto.
        -- right. split; auto. right. exists e0. simpl. auto.
Qed.

Lemma insert_all_NoDup c :
  NoDup (map addresses (insert_all c [])).
Proof. rewrite insert_all_addresses. apply first_seen_NoDup. constructor. Qed.

Lemma insert_all_snoc c a x :
  insert_all (c ++ [(a, x)]) [] = insert a x (insert_all c []).
Proof. unfold insert_all. rewrite fold_left_app. reflexivity. Qed.

Lemma insert_all_summed c : summed c (insert_all c []).
Proof.
  induction c as [|[a x] c IH] using rev_ind.
  - split; [constructor|]. split; [intros e []|reflexivity].
  - destruct IH as (Hnd & Hall & Hnone).
    split; [apply insert_all_NoDup|]. rewrite insert_all_snoc. split.
    + intros e' Hin. rewrite amounts_for_app.
      unfold amounts_for at 2 4. simpl filter.
      destruct (insert_In a x _ e' Hnd Hin)
        as [[H1 H2]|[H1 [[H2 H3]|(e0 & H2 & H3 & H4)]]].
      * replace (a =? addresses e')%string with false
          by (symmetry; apply String.eqb_neq; congruence).
        simpl. rewrite app_nil_r. apply Hall. exact H1.
      * rewrite H1, String.eqb_refl, (Hnone a H2). simpl. split; congruence.
      * rewrite H1, String.eqb_refl. simpl map.
        destruct (Hall e0 H2) as [Hne Hsum]. rewrite H3 in Hne, Hsum.
        rewrite js_sum_snoc. split.
        -- intros Habs. apply app_eq_nil in Habs. destruct Habs; congruence.
        -- destruct (amounts_for a c); congruence.
    + intros a' Hnot. rewrite amounts_for_app.
      assert (Ha : map addresses (insert a x (insert_all c [])) =
                   if existsb (String.eqb a) (map addresses (insert_all c []))
                   then map addresses (insert_all c [])
                   else map addresses (insert_all c []) ++ [a])
        by apply insert_addresses.
      rewrite Ha in Hnot.
      unfold amounts_for at 2. simpl filter.
      destruct (existsb (String.eqb a) (map addresses (insert_all c []))) eqn:E.
      * rewrite (Hnone a' Hnot).
        replace (a =? a')%string with false; auto.
        symmetry. apply String.eqb_neq. intros ->.
        apply Hnot. apply existsb_eqb_In. exact E.
      * rewrite in_app_iff in Hnot. simpl in Hnot.
        rewrite (Hnone a') by tauto.
        replace (a =? a')%string with false; auto.
        symmetry. apply String.eqb_neq. intros ->. tauto.
Qed.

Lemma adjust_addresses vout outs ins :
  map addresses (fst (adjust vout outs ins)) = map addresses outs.
Proof.
  unfold adjust. destruct (pos_applies vout outs ins); auto.
  destruct ins; auto. destruct outs; auto.
Qed.

Lemma adjust_tail vout outs ins :
  tl (fst (adjust vout outs ins)) = tl outs.
Proof.
  unfold adjust. destruct (pos_applies vout outs ins); auto.
  destruct ins; auto. destruct outs; auto.
Qed.

Lemma adjust_off vout outs ins :
  Vout.is_nonstandard (nth 0 vout None) = false -> adjust vout outs ins = (outs, ins).
Proof. intros H. unfold adjust, pos_applies. rewrite H. reflexivity. Qed.

End ResolveFacts.

Module VinFacts.
Import Loop Vin LoopSpec ResolveSpec VinSpec.
Import LoopFacts EntryFacts ResolveFacts FoldFacts.
Section WithDataSource.
Variable get_rawtransaction : option string -> option (list RawOutput).

Abbreviation sources := (sources get_rawtransaction).
Abbreviation vin_step := (vin_step get_rawtransaction).

(** A steady loop over an array [l], run with [fuel_for l]. *)
Lemma run_array {U A} (l : list A) (d : A) (process : Z -> list (action U))
    (step : U -> A -> U) (exit : U -> U) (u : U) :
  (forall i, steady (process i)) ->
  (forall i, (yields (process i) <= 1)%nat) ->
  (forall i u, effect (process i) u = step u (nth (Z.to_nat i) l d)) ->
  exists w,
    run (Z.of_nat (List.length l)) process (Some exit) (fuel_for l) u = (Normal, w) /\
    exited w = true /\ user w = exit (fold_left step l u).
Proof.
  intros Hsteady Hyields Heffect.
  assert (Hl : l = [] \/ 0 < Z.of_nat (List.length l))
    by (destruct l; simpl; [auto | right; lia]).
  destruct Hl as [Hl|Hn].
  - subst l.
    destruct (run_nothing 0 process (Some exit) (fuel_for (@nil A)) u ltac:(lia))
      as [_ H].
    simpl List.length. simpl Z.of_nat. rewrite H.
    eexists. split; [reflexivity|]. split; reflexivity.
  - assert (Hy : forall k i, (seg_yields process i k <= k)%nat).
    { induction k as [|k IH]; intros i; simpl; auto.
      specialize (IH (i + 1)). specialize (Hyields i). lia. }
    destruct (run_reaches (Z.of_nat (List.length l)) process (Some exit)
                (Z.of_nat (List.length l)) 1 0 Normal
                (exit_trace (Some exit)) (exit_fun (Some exit))
                ltac:(lia) Hn
                (terminal_end _ process (Some exit))
                (fun j _ => Hsteady j) (fuel_for l) u)
      as (w & H1 & H2 & H3).
    + unfold fuel_for. lia.
    + specialize (Hy (Z.to_nat (Z.of_nat (List.length l))) 0).
      unfold fuel_for. lia.
    + exists w. split; [exact H1|].
      split; [eapply exited_snoc; exact H2|].
      rewrite H3, Nat2Z.id. simpl exit_fun. f_equal.
      change 0 with (Z.of_nat (List.length (@nil A))).
      apply (seg_user_fold process l d step Heffect l [] u). reflexivity.
Qed.

Lemma get_input_addresses_spec input vout :
  exists later,
    get_input_addresses get_rawtransaction input vout
    = Some (later, sources input vout).
Proof.
  destruct input as [inp|]; simpl; [|eexists; reflexivity].
  destruct (coinbase inp); [|eexists; reflexivity].
  destruct (run_array vout None (sum_process vout)
              (fun (amount : Num.number) (o : option RawOutput) =>
                 Num.add amount
                   (Builtins.parseFloat
                      (js_or (match o with Some o' => value o' | None => PUndefined end)
                             (PNum Num.pzero))))
              (fun a : Num.number => a) Num.pzero)
    as (w & H1 & H2 & H3).
  - intros i. repeat constructor.
  - intros i. simpl. lia.
  - intros i u. reflexivity.
  - rewrite H1, H2, H3. eexists. reflexivity.
Qed.

Lemma process_cases tx inputs i :
  exists later : bool,
    process get_rawtransaction tx inputs i =
    (if later then [Yield] else []) ++
    match sources (nth (Z.to_nat i) inputs None) (vout tx) with
    | [] => [CallNext]
    | addr :: _ =>
        [Update (accumulate (hash addr) (to_satoshi (src_amount addr))); CallNext]
    end.
Proof.
  unfold process.
  destruct (get_input_addresses_spec (nth (Z.to_nat i) inputs None) (vout tx))
    as (later & H).
  rewrite H. exists later. reflexivity.
Qed.

(** What [prepare_vin] hands to [cb] when [tx.vin] is an array. *)
Lemma prepare_vin_spec tx inputs :
  vin tx = Some inputs ->
  prepare_vin get_rawtransaction (Some tx)
  = Some (fold_left (vin_step (vout tx)) inputs []).
Proof.
  intros Hvin. unfold prepare_vin. rewrite Hvin.
  destruct (run_array inputs None (process get_rawtransaction tx inputs)
              (vin_step (vout tx)) (fun a : list entry => a) [])
    as (w & H1 & H2 & H3).
  - intros i. destruct (process_cases tx inputs i) as (later & ->).
    destruct later; destruct (sources _ _); repeat constructor.
  - intros i. destruct (process_cases tx inputs i) as (later & ->).
    destruct later; destruct (sources _ _); simpl; lia.
  - intros i u. destruct (process_cases tx inputs i) as (later & ->).
    unfold VinSpec.vin_step.
    destruct later; destruct (sources _ _); reflexivity.
  - rewrite H1, H2, H3. reflexivity.
Qed.

Lemma NoDup_snoc (a : string) l : NoDup l -> ~ In a l -> NoDup (l ++ [a]).
Proof.
  induction 1 as [|y l Hy H IH]; simpl; intros Hn.
  - constructor; [auto | constructor].
  - constructor.
    + rewrite in_app_iff. simpl. intros [?|[?|[]]]; subst; tauto.
    + apply IH. tauto.
Qed.

Lemma insert_NoDup a x arr :
  NoDup (map addresses arr) -> NoDup (map addresses (insert a x arr)).
Proof.
  intros H. rewrite insert_addresses.
  destruct (existsb (String.eqb a) (map addresses arr)) eqn:E; auto.
  apply NoDup_snoc; auto. rewrite <- existsb_eqb_In. congruence.
Qed.

Lemma insert_keeps a b x arr :
  In a (map addresses arr) -> In a (map addresses (insert b x arr)).
Proof.
  intros H. rewrite insert_addresses.
  destruct (existsb (String.eqb b) (map addresses arr)); auto.
  apply in_or_app. auto.
Qed.

Lemma insert_has a x arr : In a (map addresses (insert a x arr)).
Proof.
  rewrite insert_addresses.
  destruct (existsb (String.eqb a) (map addresses arr)) eqn:E.
  - apply existsb_eqb_In. exact E.
  - apply in_or_app. simpl. auto.
Qed.

Lemma vin_step_NoDup vout arr input :
  NoDup (map addresses arr) -> NoDup (map addresses (vin_step vout arr input)).
Proof.
  intros H. unfold VinSpec.vin_step. destruct (sources input vout); auto.
  rewrite accumulate_insert. apply insert_NoDup. exact H.
Qed.

Lemma vin_step_keeps vout arr input a :
  In a (map addresses arr) -> In a (map addresses (vin_step vout arr input)).
Proof.
  intros H. unfold VinSpec.vin_step. destruct (sources input vout); auto.
  rewrite accumulate_insert. apply insert_keeps. exact H.
Qed.

Lemma fold_vin_NoDup vout inputs arr :
  NoDup (map addresses arr) ->
  NoDup (map addresses (fold_left (vin_step vout) inputs arr)).
Proof.
  revert arr; induction inputs as [|i inputs IH]; intros arr H; auto.
  simpl. apply IH. apply vin_step_NoDup. exact H.
Qed.

Lemma fold_vin_keeps vout inputs arr a :
  In a (map addresses arr) ->
  In a (map addresses (fold_left (vin_step vout) inputs arr)).
Proof.
  revert arr; induction inputs as [|i inputs IH]; intros arr H; auto.
  simpl. apply IH. apply vin_step_keeps. exact H.
Qed.

Lemma fold_vin_coinbase vout inputs arr inp :
  In (Some inp) inputs -> coinbase inp = true ->
  In "coinbase" (map addresses (fold_left (vin_step vout) inputs arr)).
Proof.
  revert arr; induction inputs as [|i inputs IH]; intros arr Hin Hc; [destruct Hin|].
  simpl. destruct Hin as [->|Hin]; [|apply IH; auto].
  apply fold_vin_keeps. unfold VinSpec.vin_step. simpl. rewrite Hc.
  rewrite accumulate_insert. apply insert_has.
Qed.

Lemma NoDup_map_eq (arr : list entry) e e' :
  NoDup (map addresses arr) -> In e arr -> In e' arr ->
  addresses e = addresses e' -> e = e'.
Proof.
  induction arr as [|x arr IH]; intros Hnd He He'; [destruct He|].
  inversion Hnd as [|? ? Hx Hnd']; subst. intros Heq.
  destruct He as [->|He]; destruct He' as [->|He']; auto.
  - exfalso. apply Hx. rewrite Heq. apply in_map. exact He'.
  - exfalso. apply Hx. rewrite <- Heq. apply in_map. exact He.
Qed.

End WithDataSource.
End VinFacts.

(** ** The Number model on examples *)

(** [round_Q] agrees with the Standard Library's correctly rounded
    division and normalisation where both apply, and the built-ins print
    and read what an engine does. *)
Module NumChecks.
Import Num Builtins.

Example round_Q_tenth :
  round_Q false 1 10 = SFdiv prec emax (of_Z 1) (of_Z 10).
Proof. vm_compute. reflexivity. Qed.

Example round_Q_third :
  round_Q true 1 3 = SFdiv prec emax (of_Z (-1)) (of_Z 3).
Proof. vm_compute. reflexivity. Qed.

Example round_Q_large :
  round_Q false (10 ^ 22) 7 = SFdiv prec emax (of_Z (10 ^ 22)) (of_Z 7).
Proof. vm_compute. reflexivity. Qed.

Example of_Z_normalize :
  of_Z 300000000 = binary_normalize prec emax 300000000 0 false /\
  of_Z (2 ^ 53 + 1) = binary_normalize prec emax (2 ^ 53 + 1) 0 false /\
  of_Z (- (10 ^ 21)) = binary_normalize prec emax (- (10 ^ 21)) 0 false.
Proof. repeat split; vm_compute; reflexivity. Qed.

Example round_Q_valid :
  valid_binary prec emax (round_Q false 1 (10 ^ 310)) = true /\
  valid_binary prec emax (round_Q false 123456789 (10 ^ 8)) = true /\
  round_Q false (2 ^ 1024) 1 = S754_infinity false.
Proof. repeat split; vm_compute; reflexivity. Qed.

Example add_integers :
  add (of_Z 100000000) (of_Z 200000000) = of_Z 300000000 /\
  sub (of_Z 600000000) (of_Z 500000000) = of_Z 100000000.
Proof. split; vm_compute; reflexivity. Qed.

Example parseFloat_prefixes :
  map (fun s => toFixed8 (parseFloat (PStr s)))
      ["  -.5e1x"; "1."; "1.e2"; "."; "abc"; "12.5E-1abc"; "0x10"; "1e"; ""]
  = ["-5.00000000"; "1.00000000"; "100.00000000"; "NaN"; "NaN"; "1.25000000";
     "0.00000000"; "1.00000000"; "NaN"].
Proof. vm_compute. reflexivity. Qed.

Example toFixed8_large :
  toFixed8 (parseFloat (PStr "1000000000000000000000")) = "1e+21" /\
  toFixed8 (parseFloat (PStr "1.5e21")) = "1.5e+21" /\
  toFixed8 (parseFloat (PStr "-1e23")) = "-1e+23" /\
  toFixed8 (parseFloat (PStr "Infinity")) = "Infinity".
Proof. repeat split; vm_compute; reflexivity. Qed.

Example toFixed8_rounds :
  toFixed8 (parseFloat (PStr "1.005")) = "1.00500000" /\
  toFixed8 (parseFloat (PStr "-0.000000001")) = "-0.00000000" /\
  toFixed8 (parseFloat (PStr "0.123456785")) = "0.12345678".
Proof. repeat split; vm_compute; reflexivity. Qed.

End NumChecks.

(** ** Facts about decimal digits *)

Module DigitFacts.
Import Digits Builtins ConvertSpec.

Ltac each_digit d H :=
  assert (d = 0 \/ d = 1 \/ d = 2 \/ d = 3 \/ d = 4 \/
          d = 5 \/ d = 6 \/ d = 7 \/ d = 8 \/ d = 9) as Hcases
    by (unfold isdigit in H; lia);
  repeat (destruct Hcases as [->|Hcases]); try subst d.

Lemma digit_of_char d : isdigit d -> digit_of (digit_char d) = Some d.
Proof. intros H. each_digit d H; reflexivity. Qed.

Lemma digit_char_not_dot d : isdigit d -> Ascii.eqb (digit_char d) "." = false.
Proof. intros H. each_digit d H; reflexivity. Qed.

Lemma digit_char_not_ws d : isdigit d -> is_ws (digit_char d) = false.
Proof. intros H. each_digit d H; reflexivity. Qed.

Lemma read_sign_digit d s :
  isdigit d -> read_sign (String (digit_char d) s) = (false, String (digit_char d) s).
Proof. intros H. each_digit d H; reflexivity. Qed.

Lemma span_digits_print ds :
  Forall isdigit ds -> span_digits (string_of_digits ds) = (ds, EmptyString).
Proof.
  induction 1 as [|d ds Hd Hds IH]; simpl; auto.
  rewrite (digit_of_char d Hd), IH. reflexivity.
Qed.

Lemma fold_digits ds a :
  fold_left (fun a d => 10 * a + d) ds a
  = a * 10 ^ Z.of_nat (List.length ds) + value_of ds.
Proof.
  unfold value_of. revert a.
  induction ds as [|d ds IH]; intros a.
  - simpl. lia.
  - cbn [fold_left List.length]. rewrite IH, (IH (10 * 0 + d)).
    rewrite Nat2Z.inj_succ, Z.pow_succ_r by lia. ring.
Qed.

Lemma value_of_snoc ds d : value_of (ds ++ [d]) = 10 * value_of ds + d.
Proof. unfold value_of. rewrite fold_left_app. reflexivity. Qed.

Lemma value_of_zeros j ds : value_of (repeat 0 j ++ ds) = value_of ds.
Proof. induction j as [|j IH]; auto. Qed.

Lemma digits_aux_spec fuel :
  forall n acc, 0 <= n < 2 ^ Z.of_nat fuel ->
    exists ds, digits_aux fuel n acc = ds ++ acc /\
               Forall isdigit ds /\ value_of ds = n /\
               (fuel <> O -> ds <> []).
Proof.
  induction fuel as [|fuel IH]; intros n acc Hn.
  - exists []. change (2 ^ Z.of_nat 0) with 1 in Hn.
    split; [reflexivity|]. split; [constructor|].
    split; [unfold value_of; simpl; lia | congruence].
  - cbn [digits_aux]. destruct (n <? 10) eqn:E.
    + apply Z.ltb_lt in E. exists [n].
      split; [reflexivity|]. split; [|split].
      * constructor; [unfold isdigit; lia | constructor].
      * unfold value_of. simpl. lia.
      * discriminate.
    + apply Z.ltb_ge in E.
      rewrite Nat2Z.inj_succ, Z.pow_succ_r in Hn by lia.
      destruct (IH (n / 10) (n mod 10 :: acc)) as (ds & H1 & H2 & H3 & _).
      { split; [apply Z.div_pos; lia|].
        apply Z.div_lt_upper_bound; lia. }
      exists (ds ++ [n mod 10]). rewrite H1, <- app_assoc.
      split; [reflexivity|]. split; [|split].
      * apply Forall_app. split; auto. constructor; [|constructor].
        unfold isdigit. apply Z.mod_pos_bound. lia.
      * rewrite value_of_snoc, H3. symmetry. apply Z.div_mod. lia.
      * intros _ Habs. apply app_eq_nil in Habs. destruct Habs. discriminate.
Qed.

Lemma digits_of_spec n :
  0 <= n ->
  Forall isdigit (digits_of n) /\ value_of (digits_of n) = n /\ digits_of n <> [].
Proof.
  intros Hn. unfold digits_of.
  destruct (digits_aux_spec (S (Z.to_nat (Z.log2 n))) n []) as (ds & H1 & H2 & H3 & H4).
  - split; [exact Hn|].
    rewrite Nat2Z.inj_succ, Z2Nat.id by apply Z.log2_nonneg.
    destruct (Z.eq_dec n 0) as [->|Hz]; [reflexivity|].
    apply Z.log2_spec. lia.
  - rewrite H1, app_nil_r. auto.
Qed.

Lemma string_of_digits_app a b :
  string_of_digits (a ++ b) = (string_of_digits a ++ string_of_digits b)%string.
Proof. induction a as [|d a IH]; simpl; auto. rewrite IH. reflexivity. Qed.

Lemma remove_first_dot_digits a rest :
  Forall isdigit a ->
  remove_first_dot (string_of_digits a ++ String "." rest)%string
  = (string_of_digits a ++ rest)%string.
Proof.
  induction 1 as [|d a Hd Ha IH]; [reflexivity|].
  cbn [string_of_digits append remove_first_dot].
  rewrite (digit_char_not_dot d Hd), IH. reflexivity.
Qed.

Lemma padded_spec n :
  0 <= n ->
  Forall isdigit (padded n) /\ value_of (padded n) = n /\ padded n <> [].
Proof.
  intros Hn. destruct (digits_of_spec n Hn) as (H1 & H2 & H3).
  unfold padded. destruct (List.length (digits_of n) <=? 8)%nat; auto.
  repeat split.
  - apply Forall_app. split; auto.
    apply Forall_forall. intros x Hx. apply repeat_spec in Hx. subst.
    unfold isdigit. lia.
  - rewrite value_of_zeros. exact H2.
  - intros Habs. apply app_eq_nil in Habs. tauto.
Qed.

Lemma fixed_string_without_dot n :
  0 <= n -> remove_first_dot (fixed_string n) = string_of_digits (padded n).
Proof.
  intros Hn. unfold fixed_string. fold (padded n).
  destruct (padded_spec n Hn) as (H1 & _).
  set (k := (List.length (padded n) - 8)%nat).
  change (string_of_digits (firstn k (padded n)) ++ "." ++
          string_of_digits (skipn k (padded n)))%string
    with (string_of_digits (firstn k (padded n)) ++
          String "." (string_of_digits (skipn k (padded n))))%string.
  rewrite remove_first_dot_digits.
  - rewrite <- string_of_digits_app, firstn_skipn. reflexivity.
  - rewrite <- (firstn_skipn k (padded n)) in H1.
    apply Forall_app in H1. tauto.
Qed.

Lemma parseInt10_digits ds :
  Forall isdigit ds -> ds <> [] ->
  parseInt10 (string_of_digits ds) = Num.round_Q false (value_of ds) 1 /\
  parseInt10 (String "-" (string_of_digits ds)) = Num.round_Q true (value_of ds) 1.
Proof.
  intros Hds Hne. destruct ds as [|d ds]; [congruence|].
  inversion Hds as [|? ? Hd Hds']; subst. split.
  - unfold parseInt10. cbn [string_of_digits trim_start].
    rewrite (digit_char_not_ws d Hd), (read_sign_digit d _ Hd).
    change (String (digit_char d) (string_of_digits ds))
      with (string_of_digits (d :: ds)).
    rewrite (span_digits_print _ Hds). reflexivity.
  - unfold parseInt10. cbn [trim_start]. change (is_ws "-") with false.
    cbn [read_sign]. rewrite (span_digits_print _ Hds). reflexivity.
Qed.

(** Reading back what [toFixed(8)] printed for the integer [n]. *)
Lemma parseInt10_fixed n :
  0 <= n ->
  parseInt10 (remove_first_dot (fixed_string n)) = Num.round_Q false n 1 /\
  parseInt10 (remove_first_dot (String "-" (fixed_string n))) = Num.round_Q true n 1.
Proof.
  intros Hn. destruct (padded_spec n Hn) as (H1 & H2 & H3).
  destruct (parseInt10_digits (padded n) H1 H3) as [Ha Hb].
  rewrite H2 in Ha, Hb. cbn [remove_first_dot].
  change (Ascii.eqb "-" ".") with false. cbv iota.
  rewrite fixed_string_without_dot by exact Hn. auto.
Qed.

End DigitFacts.

(** ** Facts about rounding *)

Module RoundFacts.
Import Num Digits Builtins ConvertSpec DigitFacts.

Lemma div_nearest_even_spec num den :
  0 < den ->
  2 * Z.abs (div_nearest_even num den * den - num) <= den /\
  num / den <= div_nearest_even num den.
Proof.
  intros Hd. unfold div_nearest_even.
  pose proof (Z.div_mod num den ltac:(lia)) as Hdm.
  pose proof (Z.mod_pos_bound num den Hd) as Hr.
  remember (num / den) as m. remember (num mod den) as r.
  destruct ((den <? 2 * r) || ((den =? 2 * r) && Z.odd m)) eqn:E.
  - assert (den <= 2 * r).
    { apply orb_true_iff in E. destruct E as [E|E].
      - apply Z.ltb_lt in E. lia.
      - apply andb_true_iff in E. destruct E as [E _].
        apply Z.eqb_eq in E. lia. }
    split; [|lia].
    replace ((m + 1) * den - num) with (den - r) by (rewrite Hdm; ring). lia.
  - assert (2 * r <= den).
    { apply orb_false_iff in E. destruct E as [E _].
      apply Z.ltb_ge in E. lia. }
    split; [|lia].
    replace (m * den - num) with (- r) by (rewrite Hdm; ring). lia.
Qed.

Lemma binade_bounds p q :
  0 < p -> 0 < q -> q <= p * 10 ^ 8 -> p < q * 2 ^ 26 ->
  -28 <= binade p q <= 25.
Proof.
  intros Hp Hq Hlo Hhi. unfold binade.
  pose proof (Z.log2_spec p Hp) as Hlp. pose proof (Z.log2_spec q Hq) as Hlq.
  pose proof (Z.log2_nonneg p) as Hp0. pose proof (Z.log2_nonneg q) as Hq0.
  remember (Z.log2 p) as lp. remember (Z.log2 q) as lq.
  rewrite Z.pow_succ_r in Hlp, Hlq by lia.
  change (10 ^ 8) with 100000000 in Hlo. change (2 ^ 26) with 67108864 in Hhi.
  assert (H1 : lp < lq + 27).
  { apply (Z.pow_lt_mono_r_iff 2); try lia.
    rewrite Z.pow_add_r by lia. change (2 ^ 27) with 134217728. lia. }
  assert (H2 : lq < lp + 28).
  { apply (Z.pow_lt_mono_r_iff 2); try lia.
    rewrite Z.pow_add_r by lia. change (2 ^ 28) with 268435456. lia. }
  destruct (q * 2 ^ Z.max (lp - lq) 0 <=? p * 2 ^ Z.max (- (lp - lq)) 0) eqn:E;
    [|lia].
  destruct (Z.eq_dec (lp - lq) 26) as [Hd|Hd]; [|lia].
  rewrite Hd in E. apply Z.leb_le in E.
  change (2 ^ Z.max 26 0) with 67108864 in E.
  change (2 ^ Z.max (- (26)) 0) with 1 in E. lia.
Qed.

(** The Number nearest to [K / 10^8], written as the fraction [p / q],
    when [0 < K < 2^26 * 10^8]: it is within half of 10^-8 of it. *)
Lemma round_Q_decimal neg p q K :
  0 < q -> p * 10 ^ 8 = K * q -> 0 < K < 2 ^ 26 * 10 ^ 8 ->
  exists m e,
    round_Q neg p q = S754_finite neg (Z.to_pos m) e /\
    0 < m /\ e <= -27 /\
    2 * Z.abs (m * 10 ^ 8 - K * 2 ^ (- e)) <= 10 ^ 8.
Proof.
  intros Hq HK [HK1 HK2].
  change (2 ^ 26 * 10 ^ 8) with 6710886400000000 in HK2.
  assert (Hp : 0 < p) by (change (10 ^ 8) with 100000000 in HK; nia).
  assert (Hlo : q <= p * 10 ^ 8) by nia.
  assert (Hhi : p < q * 2 ^ 26)
    by (change (10 ^ 8) with 100000000 in HK; change (2 ^ 26) with 67108864; nia).
  pose proof (binade_bounds p q Hp Hq Hlo Hhi) as Hb.
  unfold round_Q. rewrite (proj2 (Z.eqb_neq p 0)) by lia.
  remember (binade p q) as b.
  rewrite (Z.max_l (b - 52) (-1074)) by lia.
  remember (b - 52) as e.
  rewrite (Z.max_l (- e) 0), (Z.max_r e 0) by lia.
  change (2 ^ 0) with 1. rewrite Z.mul_1_r.
  remember (2 ^ (- e)) as E.
  assert (HE : 134217728 <= E).
  { subst E. change 134217728 with (2 ^ 27). apply Z.pow_le_mono_r; lia. }
  destruct (div_nearest_even_spec (p * E) q Hq) as [Hm1 Hm2].
  remember (div_nearest_even (p * E) q) as m.
  assert (Hdiv : 1 <= p * E / q).
  { apply Z.div_le_lower_bound; [lia|]. change (10 ^ 8) with 100000000 in Hlo. nia. }
  assert (Hm : 0 < m) by lia.
  assert (Hid : (m * q - p * E) * 10 ^ 8 = q * (m * 10 ^ 8 - K * E)).
  { transitivity (m * q * 10 ^ 8 - (p * 10 ^ 8) * E); [ring|]. rewrite HK. ring. }
  assert (HX : 2 * Z.abs (m * 10 ^ 8 - K * E) <= 10 ^ 8).
  { apply (Z.mul_le_mono_pos_l _ _ q Hq).
    rewrite Z.mul_assoc, (Z.mul_comm q 2), <- Z.mul_assoc.
    rewrite <- (Z.abs_eq q) at 1 by lia.
    rewrite <- Z.abs_mul, <- Hid, Z.abs_mul.
    rewrite (Z.abs_eq (10 ^ 8)) by (change (10 ^ 8) with 100000000; lia).
    change (10 ^ 8) with 100000000 in *. lia. }
  rewrite (proj2 (Z.eqb_neq m 0)) by lia.
  destruct (m =? 2 ^ 53) eqn:E53.
  - apply Z.eqb_eq in E53.
    assert (He : e <= -28).
    { destruct (Z.eq_dec e (-27)) as [He|He]; [|lia]. exfalso.
      rewrite He in HeqE. change (2 ^ (- -27)) with 134217728 in HeqE.
      subst E m. change (2 ^ 53) with 9007199254740992 in HX.
      change (10 ^ 8) with 100000000 in HX. lia. }
    exists (2 ^ 52), (e + 1). unfold finite.
    rewrite (proj2 (Z.ltb_ge 971 (e + 1))) by lia.
    split; [reflexivity|]. split; [reflexivity|]. split; [lia|].
    assert (HE2 : E = 2 * 2 ^ (- (e + 1))).
    { subst E. rewrite <- Z.pow_succ_r by lia. f_equal. lia. }
    rewrite E53, HE2 in HX.
    change (2 ^ 53) with 9007199254740992 in HX.
    change (2 ^ 52) with 4503599627370496.
    change (10 ^ 8) with 100000000 in *. lia.
  - exists m, e. unfold finite.
    rewrite (proj2 (Z.ltb_ge 971 e)) by lia.
    split; [reflexivity|]. split; [exact Hm|]. split; [lia|].
    subst E. exact HX.
Qed.

(** [toFixed(8)] on such a Number prints exactly [K]. *)
Lemma toFixed8_decimal s m e K :
  0 < m -> e <= -27 -> 0 <= K < 2 ^ 26 * 10 ^ 8 ->
  2 * Z.abs (m * 10 ^ 8 - K * 2 ^ (- e)) <= 10 ^ 8 ->
  toFixed8 (S754_finite s (Z.to_pos m) e)
  = if s then String "-" (fixed_string K) else fixed_string K.
Proof.
  intros Hm He [HK1 HK2] HX. unfold toFixed8.
  rewrite Z2Pos.id by lia.
  rewrite (Z.max_l (- e) 0), (Z.max_r e 0) by lia.
  change (2 ^ 0) with 1. rewrite Z.mul_1_r.
  remember (2 ^ (- e)) as E.
  assert (HE : 134217728 <= E).
  { subst E. change 134217728 with (2 ^ 27). apply Z.pow_le_mono_r; lia. }
  change (2 ^ 26 * 10 ^ 8) with 6710886400000000 in HK2.
  change (10 ^ 8) with 100000000 in *.
  change (10 ^ 21) with 1000000000000000000000.
  assert (HKE : K * E <= 6710886400000000 * E) by nia.
  rewrite (proj2 (Z.leb_gt (1000000000000000000000 * E) m)) by lia.
  replace ((2 * m * 100000000 + E) / (2 * E)) with K; [reflexivity|].
  apply (Z.div_unique _ _ K (2 * m * 100000000 + E - 2 * E * K)); [|ring].
  left. lia.
Qed.

(** An integer below 2^53 is a Number. *)
Lemma round_Q_integer neg K :
  0 < K < 2 ^ 53 ->
  to_Z (round_Q neg K 1) = Some (cond_Zopp neg K) /\
  is_neg (round_Q neg K 1) = neg.
Proof.
  intros [HK1 HK2].
  pose proof (Z.log2_spec K HK1) as Hl. pose proof (Z.log2_nonneg K) as Hl0.
  assert (Hl52 : Z.log2 K < 53) by (apply Z.log2_lt_pow2; lia).
  unfold round_Q, binade. rewrite (proj2 (Z.eqb_neq K 0)) by lia.
  change (Z.log2 1) with 0. rewrite Z.sub_0_r.
  remember (Z.log2 K) as l.
  rewrite (Z.max_l l 0), (Z.max_r (- l) 0) by lia.
  change (2 ^ 0) with 1. rewrite Z.mul_1_l, Z.mul_1_r.
  rewrite (proj2 (Z.leb_le (2 ^ l) K)) by lia.
  rewrite (Z.max_l (l - 52) (-1074)) by lia.
  rewrite (Z.max_l (- (l - 52)) 0), (Z.max_r (l - 52) 0) by lia.
  change (2 ^ 0) with 1. rewrite Z.mul_1_r.
  remember (2 ^ (- (l - 52))) as E.
  assert (HE : 0 < E) by (subst E; apply Z.pow_pos_nonneg; lia).
  unfold div_nearest_even. rewrite Z.div_1_r, Z.mod_1_r.
  change (1 <? 2 * 0) with false. change (1 =? 2 * 0) with false. cbn [orb andb].
  assert (HKE : K * E < 2 ^ 53).
  { rewrite Z.pow_succ_r in Hl by lia.
    replace (2 ^ 53) with (2 * 2 ^ l * E); [nia|].
    subst E. rewrite <- Z.mul_assoc, <- Z.pow_add_r by lia.
    rewrite <- Z.pow_succ_r by lia. f_equal. lia. }
  assert (HKE0 : 0 < K * E) by nia.
  rewrite (proj2 (Z.eqb_neq (K * E) 0)) by lia.
  rewrite (proj2 (Z.eqb_neq (K * E) (2 ^ 53))) by lia.
  unfold finite. rewrite (proj2 (Z.ltb_ge 971 (l - 52))) by lia.
  split; [|reflexivity].
  unfold to_Z. rewrite Z2Pos.id by lia.
  destruct (0 <=? l - 52) eqn:E0.
  - apply Z.leb_le in E0. assert (l = 52) by lia. clear Heql. subst l.
    change (2 ^ (- (52 - 52))) with 1 in HeqE. subst E.
    change (2 ^ (52 - 52)) with 1. rewrite !Z.mul_1_r. reflexivity.
  - rewrite <- HeqE. rewrite Z.mod_mul, Z.div_mul by lia. reflexivity.
Qed.

End RoundFacts.

(** ** Facts about callbacks that call next once *)

Module LoopOnceFacts.
Import Loop LoopSpec LoopFacts LoopOnceSpec.
Section Facts.

Context {U : Type}.
Variable iterations : Z.
Variable process : Z -> list (action U).
Variable exit : option (U -> U).

Abbreviation next := (next iterations process exit).
Abbreviation drain := (drain iterations process exit).
Abbreviation log_reaches := (log_reaches iterations process exit).
Abbreviation body_log_reaches := (body_log_reaches iterations process exit).

Lemma set_user_same (w : world U) : set_user (user w) w = w.
Proof. destruct w; reflexivity. Qed.

Lemma same_control_refl (w : world U) : same_control w w.
Proof. repeat split. Qed.

Lemma same_control_set_user (w : world U) x : same_control w (set_user x w).
Proof. repeat split. Qed.

Lemma call_exit_erases (w w' : world U) :
  same_control w w' -> same_control (call_exit exit w) (call_exit exit w').
Proof.
  intros (H1 & H2 & H3 & H4 & H5). unfold call_exit.
  destruct exit; repeat split; simpl; congruence.
Qed.

Lemma run_body_erases (nxt : world U -> outcome * world U) :
  erases nxt -> forall acts, erases (run_body nxt acts).
Proof.
  intros Hn acts. induction acts as [|a acts IH]; intros w w' Hw.
  - simpl. auto.
  - destruct a; simpl.
    + apply IH. destruct Hw as (H1 & H2 & H3 & H4 & H5).
      repeat split; simpl; assumption.
    + destruct (Hn w w' Hw) as [Ho Hs].
      destruct (nxt w) as [o w1], (nxt w') as [o' w1']. simpl in Ho, Hs. subst o'.
      destruct o; auto.
    + apply IH. destruct Hw as (H1 & H2 & H3 & H4 & H5).
      repeat split; simpl; assumption.
    + auto.
    + split; [reflexivity|]. destruct Hw as (H1 & H2 & H3 & H4 & H5).
      repeat split; simpl; congruence.
Qed.

Lemma next_erases fuel : erases (next fuel).
Proof.
  induction fuel as [|fuel IH]; intros w w' Hw.
  - simpl. auto.
  - pose proof Hw as (H1 & H2 & H3 & H4 & H5). simpl.
    rewrite <- H1, <- H2, <- H3.
    destruct (done w) eqn:Hd.
    { split; [reflexivity|]. simpl.
      destruct (shouldExit w); [apply call_exit_erases; exact Hw | exact Hw]. }
    destruct (index w <? iterations).
    + destruct (index w mod 100 =? 0).
      * split; [reflexivity|]. repeat split; simpl; congruence.
      * assert (Hc : same_control (log (Process (index w + 1 - 1)) (set_index (index w + 1) w))
                       (log (Process (index w + 1 - 1)) (set_index (index w + 1) w')))
          by (repeat split; simpl; congruence).
        unfold call_process. simpl index.
        destruct (run_body_erases (next fuel) IH (process (index w + 1 - 1)) _ _ Hc)
          as [Ho Hs].
        destruct (run_body (next fuel) (process (index w + 1 - 1))
                    (log (Process (index w + 1 - 1)) (set_index (index w + 1) w)))
          as [o w1].
        destruct (run_body (next fuel) (process (index w + 1 - 1))
                    (log (Process (index w + 1 - 1)) (set_index (index w + 1) w')))
          as [o' w1'].
        simpl in Ho, Hs. subst o'. destruct o; auto.
        split; [reflexivity|]. apply call_exit_erases.
        destruct Hs as (K1 & K2 & K3 & K4 & K5). repeat split; simpl; congruence.
    + split; [reflexivity|]. apply call_exit_erases.
      repeat split; simpl; congruence.
Qed.

Lemma drain_erases F tasks : erases (drain F tasks).
Proof.
  induction tasks as [|tasks IH]; intros w w' Hw;
    pose proof Hw as (H1 & H2 & H3 & H4 & H5); simpl; rewrite <- H4.
  - destruct (queue w); auto.
  - destruct (queue w) as [|t q]; auto.
    assert (Hc : same_control (set_queue q w) (set_queue q w'))
      by (repeat split; simpl; congruence).
    assert (Hr : fst (run_task iterations process exit F t (set_queue q w)) =
                 fst (run_task iterations process exit F t (set_queue q w')) /\
                 same_control (snd (run_task iterations process exit F t (set_queue q w)))
                   (snd (run_task iterations process exit F t (set_queue q w')))).
    { destruct t; unfold run_task.
      - unfold call_process. simpl index. rewrite <- H1.
        apply (run_body_erases (next F) (next_erases F) (process (index w - 1))).
        repeat split; simpl; congruence.
      - apply (run_body_erases (next F) (next_erases F)). exact Hc. }
    destruct Hr as [Ho Hs].
    destruct (run_task iterations process exit F t (set_queue q w)) as [o w1].
    destruct (run_task iterations process exit F t (set_queue q w')) as [o' w1'].
    simpl in Ho, Hs. subst o'. destruct o; auto.
    split; [reflexivity|]. destruct Hs as (K1 & K2 & K3 & K4 & K5).
    repeat split; simpl; congruence.
Qed.

(** What is known with the captured state holds of the log whatever
    happens to that state. *)
Lemma terminal_log stop a b T (g : U -> U) :
  terminal iterations process exit stop a b Normal T g ->
  log_terminal iterations process exit stop a b T.
Proof.
  intros Hterm f F tasks w Hi Hd Hq Hf HF Ht.
  destruct (Hterm f F tasks w Hi Hd Hq Hf HF Ht) as (w1 & w2 & H1 & H2 & H3 & _).
  exists w1. split; [exact H1|]. intros g'.
  destruct (drain_erases F tasks w1 (set_user (g' (user w1)) w1)
              (same_control_set_user w1 _)) as [Ho Hs].
  rewrite H2 in Ho, Hs.
  destruct (drain F tasks (set_user (g' (user w1)) w1)) as [o w2'].
  simpl in Ho, Hs. subst o. exists w2'. split; [reflexivity|].
  destruct Hs as (_ & _ & _ & _ & K5). rewrite <- K5. exact H3.
Qed.

Lemma steady_once (body : list (action U)) : steady body -> once body.
Proof.
  induction 1 as [|f k Hk (pre & post & -> & Hpre & Hpost)
                  |k Hk (pre & post & -> & Hpre & Hpost)].
  - exists [], []. repeat split; constructor.
  - exists (Update f :: pre), post. repeat split; auto. constructor; simpl; auto.
  - exists (Yield :: pre), post. repeat split; auto. constructor; simpl; auto.
Qed.

Lemma yields_once (pre post : list (action U)) :
  Forall pure_update post ->
  yields (pre ++ CallNext :: post) = yields pre.
Proof.
  intros Hpost. induction pre as [|a pre IH]; simpl.
  - induction Hpost as [|x post Hx _ IH]; simpl; auto.
    destruct x; simpl in Hx; try contradiction. exact IH.
  - destruct a; simpl; auto.
Qed.

(** A body of the class whose [loop.next()] finds the loop at [j]. *)
Lemma once_body_log (j : Z) (T' : list event) (c d : nat) :
  (forall f F tasks w,
      index w = j -> done w = false -> queue w = [] ->
      (c <= f)%nat -> (c <= F)%nat -> (d <= tasks)%nat ->
      log_reaches f F tasks w T') ->
  forall pre post, Forall quiet pre -> Forall pure_update post ->
  forall f F tasks w,
    index w = j -> done w = false -> queue w = [] ->
    (c <= f)%nat -> (c <= F)%nat -> (d + yields pre <= tasks)%nat ->
    body_log_reaches f F tasks (pre ++ CallNext :: post) w T'.
Proof.
  intros Hnext pre post Hpre Hpost.
  induction Hpre as [|x pre Hx Hpre IH]; intros f F tasks w Hi Hd Hq Hf HF Ht.
  - destruct (Hnext f F tasks w Hi Hd Hq Hf HF ltac:(simpl in Ht; lia))
      as (w1 & H1 & H2).
    exists (set_user (effect post (user w1)) w1). split.
    + simpl. rewrite H1.
      rewrite <- (app_nil_r post) at 1.
      rewrite (run_updates _ post [] w1 Hpost). reflexivity.
    + intros g. destruct (H2 (fun u => g (effect post u))) as (w2 & H3 & H4).
      exists w2. split; [exact H3 | exact H4].
  - destruct x; simpl in Hx; try contradiction.
    + destruct (IH f F tasks (set_user (f0 (user w)) w) Hi Hd Hq Hf HF
                  ltac:(simpl in Ht; lia)) as (w1 & H1 & H2).
      exists w1. split; [exact H1 | exact H2].
    + simpl in Ht. destruct tasks as [|tasks]; [lia|].
      exists (enqueue (Continue (pre ++ CallNext :: post)) w).
      split; [reflexivity|]. intros g.
      destruct (IH F F tasks
                  (set_queue [] (set_user (g (user w))
                                   (enqueue (Continue (pre ++ CallNext :: post)) w)))
                  Hi Hd eq_refl HF HF ltac:(lia)) as (w1 & H1 & H2).
      destruct (H2 (fun u => u)) as (w2 & H3 & H4).
      rewrite set_user_same in H3.
      exists w2.
      rewrite (drain_cons _ _ _ F tasks (Continue (pre ++ CallNext :: post)))
        by (simpl; rewrite Hq; reflexivity).
      simpl run_task. simpl in H1. simpl. rewrite H1.
      split; [exact H3 | exact H4].
Qed.

Section Segment.

Variables (stop : Z) (a b : nat) (T : list event).
Hypothesis Hstop : stop <= iterations.
Hypothesis Hterm : log_terminal iterations process exit stop a b T.

(** Iterations [i], ..., [stop - 1] and what follows them. *)
Lemma log_segment (k : nat) :
  forall i, i = stop - Z.of_nat k -> 0 <= i ->
  (forall j, i <= j < stop -> once (process j)) ->
  forall f F tasks w,
    index w = i -> done w = false -> queue w = [] ->
    (a + k <= f)%nat -> (a + k <= F)%nat ->
    (b + k + seg_yields process i k <= tasks)%nat ->
    log_reaches f F tasks w (seg_trace i k ++ T).
Proof.
  induction k as [|k IH]; intros i Hi Hi0 Honce f F tasks w Hw Hd Hq Hf HF Ht.
  - simpl. apply Hterm; auto; simpl in Ht; lia.
  - assert (Hlt : i < iterations) by lia.
    destruct f as [|f]; [lia|].
    assert (IH' := IH (i + 1) ltac:(lia) ltac:(lia)
                     (fun j Hj => Honce j ltac:(lia))).
    destruct (Honce i ltac:(lia)) as (pre & post & Hbody & Hpre & Hpost).
    assert (Hb := once_body_log (i + 1)
              (seg_trace (i + 1) k ++ T) (a + k)%nat
              (b + k + seg_yields process (i + 1) k)%nat).
    specialize (Hb ltac:(intros; apply IH'; auto; simpl in *; lia)).
    specialize (Hb pre post Hpre Hpost).
    cbn [LoopSpec.seg_trace]. cbn [LoopSpec.seg_yields] in Ht.
    rewrite Hbody, (yields_once pre post Hpost) in Ht.
    unfold LoopOnceSpec.log_reaches. simpl Loop.next. rewrite Hd.
    replace (index w <? iterations) with true by (symmetry; apply Z.ltb_lt; lia).
    destruct (index w mod 100 =? 0) eqn:Hmod.
    + destruct tasks as [|tasks]; [lia|].
      set (w1 := set_index (index w + 1) w).
      exists (enqueue TimerProcess w1). split; [reflexivity|]. intros g.
      destruct (Hb F F tasks
                  (log (Process i)
                     (set_queue [] (set_user (g (user w)) (enqueue TimerProcess w1)))))
        as (w2 & H1 & H2); try (simpl; auto; lia).
      destruct (H2 (fun u => u)) as (w3 & H3 & H4).
      rewrite set_user_same in H3.
      exists w3.
      rewrite (drain_cons _ _ _ F tasks TimerProcess)
        by (simpl; rewrite Hq; reflexivity).
      unfold run_task, call_process.
      simpl index. replace (index w + 1 - 1) with i by lia.
      rewrite Hbody. simpl in H1. simpl. rewrite H1.
      split; [exact H3|].
      rewrite H4. simpl. rewrite <- app_assoc. reflexivity.
    + set (w1 := set_index (index w + 1) w).
      destruct (Hb f F tasks (log (Process i) w1))
        as (w2 & H1 & H2); try (simpl; auto; lia).
      exists w2.
      unfold call_process. simpl index.
      replace (index w + 1 - 1) with i by lia.
      rewrite Hbody, H1. split; [reflexivity|].
      intros g. destruct (H2 g) as (w3 & H3 & H4).
      exists w3. split; [exact H3|].
      rewrite H4. simpl. rewrite <- app_assoc. reflexivity.
Qed.

End Segment.

(** A whole run: [process] for 0, ..., [stop - 1] in order, then what
    follows. *)
Lemma run_once stop a b T :
  0 <= stop <= iterations -> 0 < iterations ->
  log_terminal iterations process exit stop a b T ->
  (forall j, 0 <= j < stop -> once (process j)) ->
  forall fuel u,
    (a + Z.to_nat stop <= fuel)%nat ->
    (b + Z.to_nat stop + seg_yields process 0 (Z.to_nat stop) <= fuel)%nat ->
    exists w,
      run iterations process exit fuel u = (Normal, w) /\
      trace w = seg_trace 0 (Z.to_nat stop) ++ T.
Proof.
  intros Hstop Hpos Hterm Honce fuel u Hf Ht.
  destruct (log_segment stop a b T ltac:(lia) Hterm (Z.to_nat stop) 0
              ltac:(lia) ltac:(lia) Honce
              fuel fuel fuel (initial u) eq_refl eq_refl eq_refl Hf Hf Ht)
    as (w1 & H1 & H2).
  destruct (H2 (fun u => u)) as (w2 & H3 & H4).
  rewrite set_user_same in H3.
  exists w2. unfold run, syncLoop.
  replace (iterations <=? 0) with false by (symmetry; apply Z.leb_gt; lia).
  rewrite H1, H3. auto.
Qed.

End Facts.
End LoopOnceFacts.

(** * The claims *)

(** ** Claims about convert_to_satoshi *)

Module ConvertClaims.
Import Num Digits Builtins ConvertSpec DigitFacts RoundFacts.

Lemma digit_of_range c d : digit_of c = Some d -> isdigit d.
Proof.
  unfold digit_of, isdigit.
  destruct ((48 <=? Z.of_nat (nat_of_ascii c)) && (Z.of_nat (nat_of_ascii c) <=? 57))
    eqn:E; [|discriminate].
  intros [= <-]. apply andb_true_iff in E. destruct E as [E1 E2].
  apply Z.leb_le in E1, E2. lia.
Qed.

Lemma span_digits_isdigit s : Forall isdigit (fst (span_digits s)).
Proof.
  induction s as [|c s IH]; simpl; [constructor|].
  destruct (digit_of c) as [d|] eqn:E; [|constructor].
  destruct (span_digits s) as [ds rest]. simpl in *.
  constructor; [eapply digit_of_range; eassumption | exact IH].
Qed.

Lemma value_of_nonneg ds : Forall isdigit ds -> 0 <= value_of ds.
Proof.
  unfold value_of. intros Hds.
  assert (H : forall a, 0 <= a -> 0 <= fold_left (fun a d => 10 * a + d) ds a).
  { induction Hds as [|d ds Hd Hds IH]; intros a Ha; cbn [fold_left]; [exact Ha|].
    apply IH. unfold isdigit in Hd. lia. }
  apply H. lia.
Qed.

Lemma literal_nonneg s neg M E :
  StrDecimalLiteral s = Some (LitDecimal neg M E) -> 0 <= M.
Proof.
  unfold StrDecimalLiteral.
  destruct (read_sign s) as [ng s1].
  destruct (starts_with "Infinity" s1); [discriminate|].
  pose proof (span_digits_isdigit s1) as Hip.
  destruct (span_digits s1) as [ip s2]. simpl in Hip.
  assert (Hfp : forall fp s3,
             match s2 with
             | String c r => if Ascii.eqb c "." then span_digits r else ([], s2)
             | EmptyString => ([], s2)
             end = (fp, s3) -> Forall isdigit fp).
  { intros fp s3. destruct s2 as [|c r]; [intros [= <- _]; constructor|].
    destruct (Ascii.eqb c "."); [|intros [= <- _]; constructor].
    intros H. pose proof (span_digits_isdigit r) as Hr. rewrite H in Hr. exact Hr. }
  destruct (match s2 with
            | String c r => if Ascii.eqb c "." then span_digits r else ([], s2)
            | EmptyString => ([], s2)
            end) as [fp s3].
  specialize (Hfp fp s3 eq_refl).
  assert (Hall : Forall isdigit (ip ++ fp)) by (apply Forall_app; auto).
  destruct (ip ++ fp) as [|d ds]; [discriminate|].
  intros [= _ <- _]. apply value_of_nonneg. exact Hall.
Qed.

Lemma convert_of_finite input neg m e K :
  parseFloat input = S754_finite neg (Z.to_pos m) e ->
  0 < m -> e <= -27 -> 0 < K < 2 ^ 26 * 10 ^ 8 ->
  2 * Z.abs (m * 10 ^ 8 - K * 2 ^ (- e)) <= 10 ^ 8 ->
  convert_to_satoshi input = round_Q neg K 1.
Proof.
  intros H Hm He HK HX. unfold convert_to_satoshi. rewrite H. cbn [isNaN].
  rewrite (toFixed8_decimal neg m e K) by (auto; lia).
  destruct neg; apply parseInt10_fixed; lia.
Qed.

Lemma convert_of_zero input s :
  parseFloat input = S754_zero s -> convert_to_satoshi input = pzero.
Proof.
  intros H. unfold convert_to_satoshi. rewrite H. cbn [isNaN toFixed8].
  rewrite (proj1 (parseInt10_fixed 0 ltac:(lia))). reflexivity.
Qed.

Lemma round_Q_zero neg q : round_Q neg 0 q = S754_zero neg.
Proof. reflexivity. Qed.

Lemma convert_decimal8 input z :
  decimal8 input z -> Z.abs z < 2 ^ 26 * 10 ^ 8 ->
  to_Z (convert_to_satoshi input) = Some z /\
  (z < 0 -> is_neg (convert_to_satoshi input) = true).
Proof.
  intros Hd Hz.
  assert (Hgen : forall neg p q K,
             parseFloat input = round_Q neg p q \/
             (parseFloat input = pzero /\ K = 0) ->
             0 < q -> p * 10 ^ 8 = K * q -> 0 <= K < 2 ^ 26 * 10 ^ 8 ->
             to_Z (convert_to_satoshi input) = Some (cond_Zopp neg K) /\
             (0 < K -> is_neg (convert_to_satoshi input) = neg)).
  { intros neg p q K Hpf Hq HK [HK0 HK1].
    destruct (Z.eq_dec K 0) as [->|HKnz].
    - assert (p = 0) by (change (10 ^ 8) with 100000000 in HK; lia). subst p.
      assert (Hz0 : convert_to_satoshi input = pzero).
      { destruct Hpf as [Hpf|[Hpf _]].
        - apply (convert_of_zero input neg). rewrite Hpf. apply round_Q_zero.
        - apply (convert_of_zero input false). exact Hpf. }
      rewrite Hz0. split; [destruct neg; reflexivity | lia].
    - destruct Hpf as [Hpf|[_ Habs]]; [|contradiction].
      destruct (round_Q_decimal neg p q K Hq HK ltac:(lia))
        as (m & e & H1 & H2 & H3 & H4).
      rewrite (convert_of_finite input neg m e K) by (auto; try lia; congruence).
      assert (HK53 : 0 < K < 2 ^ 53).
      { change (2 ^ 26 * 10 ^ 8) with 6710886400000000 in HK1.
        change (2 ^ 53) with 9007199254740992. lia. }
      destruct (round_Q_integer neg K HK53) as [Ha Hb]. auto. }
  destruct Hd as [(s & neg & M & E & Hin & Hlit & HE & Hzz)|Hin]; subst.
  - pose proof (literal_nonneg _ _ _ _ Hlit) as HM.
    assert (Hpow : 0 < 10 ^ (E + 8)) by (apply Z.pow_pos_nonneg; lia).
    assert (HKabs : Z.abs (cond_Zopp neg (M * 10 ^ (E + 8))) = M * 10 ^ (E + 8))
      by (destruct neg; simpl; nia).
    rewrite HKabs in Hz.
    destruct (Hgen neg (M * 10 ^ Z.max E 0) (10 ^ Z.max (- E) 0) (M * 10 ^ (E + 8)))
      as [Ha Hb].
    + left. cbn [parseFloat]. rewrite Hlit. reflexivity.
    + apply Z.pow_pos_nonneg; lia.
    + destruct (Z.le_gt_cases 0 E) as [HE0|HE0].
      * rewrite (Z.max_l E 0), (Z.max_r (- E) 0) by lia.
        rewrite Z.pow_add_r by lia. change (10 ^ 0) with 1. ring.
      * rewrite (Z.max_r E 0), (Z.max_l (- E) 0) by lia.
        change (10 ^ 0) with 1.
        replace (10 ^ 8) with (10 ^ (E + 8) * 10 ^ (- E)).
        -- ring.
        -- rewrite <- Z.pow_add_r by lia. f_equal. lia.
    + nia.
    + split; [exact Ha|]. intros Hneg. destruct neg; simpl in Hneg.
      * apply Hb. lia.
      * nia.
  - destruct (Hgen (z <? 0) (Z.abs z) (10 ^ 8) (Z.abs z)) as [Ha Hb].
    + cbn [parseFloat].
      destruct (Z.eq_dec z 0) as [->|Hnz]; [right; split; reflexivity|].
      left.
      destruct (round_Q_decimal (z <? 0) (Z.abs z) (10 ^ 8) (Z.abs z)
                  ltac:(change (10 ^ 8) with 100000000; lia) ltac:(ring)
                  ltac:(lia))
        as (m & e & H1 & _).
      rewrite H1. reflexivity.
    + change (10 ^ 8) with 100000000. lia.
    + ring.
    + lia.
    + assert (Hc : cond_Zopp (z <? 0) (Z.abs z) = z).
      { destruct (z <? 0) eqn:E; simpl.
        - apply Z.ltb_lt in E. lia.
        - apply Z.ltb_ge in E. lia. }
      rewrite Hc in Ha. split; [exact Ha|].
      intros Hneg. rewrite Hb by lia. apply Z.ltb_lt. exact Hneg.
Qed.

(** C1, as stated, fails: 67108864.00000002 has 8 fractional digits, but
    the nearest Number is nearer to 67108864.00000001, and that is what
    [toFixed(8)] prints. *)
Lemma convert_to_satoshi_drifts_at_2_26 :
  decimal8 (PStr "67108864.00000002") 6710886400000002 /\
  to_Z (convert_to_satoshi (PStr "67108864.00000002")) = Some 6710886400000001 /\
  to_Z (convert_to_satoshi (PStr "67108864.00000002")) <> Some 6710886400000002.
Proof.
  split; [|split; vm_compute; congruence].
  left. exists "67108864.00000002", false, 6710886400000002, (-8).
  repeat split; vm_compute; congruence.
Qed.

(** C1 (amended): for a decimal number with up to 8 fractional digits and
    magnitude below 2^26 = 67108864, [convert_to_satoshi] yields exactly
    the value scaled by 10^8; an input that does not parse yields 0. *)
Theorem convert_to_satoshi_exact_below_2_26 :
  (forall input z,
     decimal8 input z -> Z.abs z < 2 ^ 26 * 10 ^ 8 ->
     to_Z (convert_to_satoshi input) = Some z) /\
  (forall input,
     isNaN (parseFloat input) = true -> convert_to_satoshi input = pzero) /\
  to_Z (convert_to_satoshi (PStr "1.23456789")) = Some 123456789 /\
  to_Z (convert_to_satoshi (PStr "0.1")) = Some 10000000 /\
  convert_to_satoshi (PStr "abc") = pzero.
Proof.
  split; [|split; [|repeat split; vm_compute; reflexivity]].
  - intros input z Hd Hz. apply (convert_decimal8 input z Hd Hz).
  - intros input H. unfold convert_to_satoshi. rewrite H. reflexivity.
Qed.

Lemma convert_to_satoshi_exact_below_2_26_witness :
  to_Z (convert_to_satoshi (PStr "1.23456789")) = Some 123456789.
Proof.
  apply (proj1 convert_to_satoshi_exact_below_2_26 (PStr "1.23456789") 123456789).
  - left. exists "1.23456789", false, 123456789, (-8).
    repeat split; vm_compute; congruence.
  - vm_compute. reflexivity.
Defined.

(** C10, as stated, fails for the same reason as C1:
    -67108864.00000002 comes out as -6710886400000001. *)
Lemma convert_to_satoshi_negative_drifts_at_2_26 :
  decimal8 (PStr "-67108864.00000002") (-6710886400000002) /\
  to_Z (convert_to_satoshi (PStr "-67108864.00000002")) = Some (-6710886400000001) /\
  to_Z (convert_to_satoshi (PStr "-67108864.00000002")) <> Some (-6710886400000002).
Proof.
  split; [|split; vm_compute; congruence].
  left. exists "-67108864.00000002", true, 6710886400000002, (-8).
  repeat split; vm_compute; congruence.
Qed.

(** C10 (amended): for a negative decimal number with up to 8 fractional
    digits and magnitude below 2^26, [convert_to_satoshi] yields the
    negative scaled integer; nothing clamps it to zero. *)
Theorem convert_to_satoshi_keeps_negative :
  (forall input z,
     decimal8 input z -> - (2 ^ 26 * 10 ^ 8) < z < 0 ->
     to_Z (convert_to_satoshi input) = Some z /\
     is_neg (convert_to_satoshi input) = true) /\
  to_Z (convert_to_satoshi (PStr "-1.5")) = Some (-150000000) /\
  to_Z (convert_to_satoshi (PNum (round_Q true 3 2))) = Some (-150000000).
Proof.
  split; [|split; vm_compute; reflexivity].
  intros input z Hd Hz.
  destruct (convert_decimal8 input z Hd ltac:(lia)) as [Ha Hb].
  split; [exact Ha | apply Hb; lia].
Qed.

Lemma convert_to_satoshi_keeps_negative_witness :
  to_Z (convert_to_satoshi (PStr "-1.5")) = Some (-150000000) /\
  is_neg (convert_to_satoshi (PStr "-1.5")) = true.
Proof.
  apply (proj1 convert_to_satoshi_keeps_negative (PStr "-1.5") (-150000000)).
  - left. exists "-1.5", true, 15, (-1).
    repeat split; vm_compute; congruence.
  - split; vm_compute; reflexivity.
Defined.

End ConvertClaims.

(** ** Claims about prepare_vout *)

Module VoutClaims.
Import Loop Heap Vout LoopSpec ResolveSpec StakeSpec.
Import LoopFacts HeapFacts EntryFacts VoutFacts ResolveFacts.

(** C2: the resolved output set of [prepare_vout] has pairwise distinct
    addresses, in first-seen order, and every entry the proof-of-stake
    step leaves alone holds the sum of the converted values paid to its
    address; two outputs paying 1 and 2 to "A" resolve to exactly
    [{addresses: "A", amount: 300000000}]. *)
Theorem prepare_vout_distinct_first_seen_accumulated :
  (forall (h : heap) (vout : list (option RawOutput)) (vin : option ref),
     exists h' ro ri,
       prepare_vout h (Some vout) vin = Some (h', ro, ri) /\
       NoDup (map addresses (read ro h')) /\
       map addresses (read ro h') = first_seen (map fst (contributions vout)) /\
       (forall i e, nth_error (read ro h') i = Some e ->
          (i = 0%nat -> is_nonstandard (nth 0 vout None) = false) ->
          amount e = js_sum (amounts_for (addresses e) (contributions vout)))) /\
  (forall (h : heap) (vin : option ref) (t1 t2 : string) (k1 k2 : Z),
     (t1 =? "nonstandard")%string = false -> (t1 =? "nulldata")%string = false ->
     (t2 =? "nonstandard")%string = false -> (t2 =? "nulldata")%string = false ->
     exists h' ro ri,
       prepare_vout h (Some [pay t1 "A" k1 1; pay t2 "A" k2 2]) vin = Some (h', ro, ri) /\
       read ro h' = [mkEntry "A" (Num.of_Z 300000000)]).
Proof.
  split.
  - intros h vout vin. eexists _, _, _.
    split; [apply prepare_vout_spec|].
    rewrite read_fst.
    set (ins := match vin with Some r => _ | None => _ end).
    pose proof (insert_all_summed (contributions vout)) as (Hnd & Hall & _).
    rewrite <- resolve_all_insert_all in Hnd, Hall.
    split; [rewrite adjust_addresses; exact Hnd|].
    split.
    + rewrite adjust_addresses, resolve_all_insert_all, insert_all_addresses.
      reflexivity.
    + intros i e Hi Hfirst.
      assert (Hin : In e (resolve_all vout)).
      { destruct i as [|i].
        - rewrite adjust_off in Hi by auto. eapply nth_error_In. exact Hi.
        - pose proof (adjust_tail vout (resolve_all vout) ins) as Ht.
          destruct (fst (adjust vout (resolve_all vout) ins)) as [|x xs];
            [discriminate|].
          simpl in Hi, Ht. apply nth_error_In in Hi. rewrite Ht in Hi.
          destruct (resolve_all vout); simpl in *; tauto. }
      apply Hall. exact Hin.
  - intros h vin t1 t2 k1 k2 H1 H2 H3 H4. eexists _, _, _.
    split; [apply prepare_vout_spec|].
    rewrite read_fst, adjust_off
      by (simpl; rewrite H1; reflexivity).
    unfold resolve_all, step, pay. simpl fold_left.
    unfold resolve_output. simpl. rewrite H1, H2, H3, H4. simpl.
    vm_compute. reflexivity.
Qed.

Lemma resolve_output_skipped output :
  skipped output -> resolve_output output = None.
Proof.
  destruct output as [o|]; simpl; auto.
  destruct (scriptPubKey o) as [spk|]; auto.
  intros [H|[H|[H1 H2]]].
  - rewrite H. reflexivity.
  - rewrite H. reflexivity.
  - destruct (_ || _); auto. unfold address_list.
    destruct (spk_addresses spk) as [[|a l]|].
    + destruct (spk_address spk) as [a|]; auto. rewrite (H2 a eq_refl). reflexivity.
    + destruct (H1 a l eq_refl).
    + destruct (spk_address spk) as [a|]; auto. rewrite (H2 a eq_refl). reflexivity.
Qed.

Lemma resolve_output_kept output :
  ~ skipped output ->
  exists o spk a,
    output = Some o /\ scriptPubKey o = Some spk /\ primary_address spk a /\
    (type_ spk =? "nonstandard")%string = false /\
    resolve_output output = Some (a, value o).
Proof.
  destruct output as [o|]; simpl; [|tauto].
  destruct (scriptPubKey o) as [spk|] eqn:Hs; [|tauto].
  intros H. exists o, spk.
  destruct (type_ spk =? "nonstandard")%string eqn:E1;
    [apply String.eqb_eq in E1; tauto|].
  destruct (type_ spk =? "nulldata")%string eqn:E2;
    [apply String.eqb_eq in E2; tauto|].
  simpl. unfold address_list, primary_address.
  destruct (spk_addresses spk) as [[|a l]|] eqn:Ha.
  - destruct (spk_address spk) as [a|] eqn:Hb.
    + destruct (a =? "")%string eqn:E3.
      * apply String.eqb_eq in E3. subst a. exfalso. apply H. right. right.
        split; [congruence|]. intros a Ha'. congruence.
      * apply String.eqb_neq in E3. exists a. auto.
    + exfalso. apply H. right. right. split; congruence.
  - exists a. auto.
  - destruct (spk_address spk) as [a|] eqn:Hb.
    + destruct (a =? "")%string eqn:E3.
      * apply String.eqb_eq in E3. subst a. exfalso. apply H. right. right.
        split; [congruence|]. intros a Ha'. congruence.
      * apply String.eqb_neq in E3. exists a. auto.
    + exfalso. apply H. right. right. split; congruence.
Qed.

(** C3 (amended): an output is skipped exactly when it is missing, has no
    [scriptPubKey], is of type nonstandard or nulldata (with or without an
    address), or has neither a non-empty [addresses] array nor a
    non-empty [address]; every other output contributes its primary
    address with its converted value. *)
Theorem prepare_vout_skips_and_resolves :
  (forall (arr_vout : ref) (vout : list (option RawOutput)) (i : Z),
     let output := nth (Z.to_nat i) vout None in
     (skipped output -> process arr_vout vout i = [CallNext]) /\
     (~ skipped output ->
      exists o spk a,
        output = Some o /\ scriptPubKey o = Some spk /\ primary_address spk a /\
        process arr_vout vout i =
          [Update (fun h => write arr_vout
                              (accumulate a (to_satoshi (value o)) (read arr_vout h)) h);
           CallNext])) /\
  (forall (h : heap) (vin : option ref) (output : option RawOutput),
     exists h' ro ri,
       prepare_vout h (Some [output]) vin = Some (h', ro, ri) /\
       (skipped output -> read ro h' = []) /\
       (~ skipped output ->
        exists o spk a,
          output = Some o /\ scriptPubKey o = Some spk /\ primary_address spk a /\
          read ro h' = [mkEntry a (to_satoshi (value o))])).
Proof.
  split.
  - intros arr_vout vout i output. split.
    + intros H. unfold process. fold output.
      rewrite (resolve_output_skipped _ H). reflexivity.
    + intros H.
      destruct (resolve_output_kept _ H) as (o & spk & a & H1 & H2 & H3 & _ & H4).
      exists o, spk, a. repeat (split; auto).
      unfold process. fold output. rewrite H4. reflexivity.
  - intros h vin output. eexists _, _, _.
    split; [apply prepare_vout_spec|].
    rewrite read_fst. unfold resolve_all, step. simpl fold_left. split.
    + intros H. rewrite (resolve_output_skipped _ H).
      unfold adjust, pos_applies.
      destruct (is_nonstandard _); simpl; auto.
      destruct (match vin with Some _ => _ | None => _ end); reflexivity.
    + intros H.
      destruct (resolve_output_kept _ H) as (o & spk & a & H1 & H2 & H3 & H4 & H5).
      exists o, spk, a. repeat (split; auto).
      rewrite H5, adjust_off; [reflexivity|].
      subst output. simpl. rewrite H2. exact H4.
Qed.

(** C3, as stated, fails: a nonstandard output with a usable address is
    not skipped by the stated condition, but the code skips it. *)
Lemma nonstandard_with_address_is_skipped :
  ~ (resolve_output (Some nonstandard_to_A) = None <->
     spec_skip nonstandard_to_A = true) /\
  spec_skip nonstandard_to_A = false /\
  resolve_output (Some nonstandard_to_A) = None /\
  process 0%nat [Some nonstandard_to_A] 0 = [CallNext] /\
  prepare_vout [] (Some [Some nonstandard_to_A]) None = Some ([[]; []], 0%nat, 1%nat).
Proof.
  split; [|repeat split; vm_compute; reflexivity].
  intros [H _]. specialize (H eq_refl). vm_compute in H. discriminate.
Qed.

Lemma pos_applies_iff vout outs ins :
  pos_applies vout outs ins = true <-> pos_condition vout outs ins.
Proof.
  unfold pos_applies, pos_condition, is_nonstandard. split.
  - intros H. apply andb_true_iff in H. destruct H as [H1 H2].
    destruct (nth 0 vout None) as [o|]; [|discriminate].
    destruct (scriptPubKey o) as [spk|] eqn:Hs; [|discriminate].
    apply String.eqb_eq in H1.
    destruct ins as [|i0 ins']; [discriminate|].
    destruct outs as [|o0 outs']; [discriminate|].
    apply String.eqb_eq in H2.
    split; [exists o, spk; auto|]. repeat split; try discriminate.
    simpl. intros ? ? [= <-] [= <-]. exact H2.
  - intros ((o & spk & H1 & H2 & H3) & H4 & H5 & H6).
    rewrite H1, H2, H3. simpl.
    destruct ins as [|i0 ins']; [congruence|].
    destruct outs as [|o0 outs']; [congruence|].
    apply String.eqb_eq. apply H6; reflexivity.
Qed.

Lemma filter_exit_processes l :
  filter is_exit (map (fun j => Process (Z.of_nat j)) l) = [].
Proof. induction l; simpl; auto. Qed.

(** C4, as stated, fails on its example: an [output[0]] that is itself
    of type nonstandard is skipped by the output loop, so it is not
    the first resolved output; with input {A, 500000000} the output set
    is empty, nothing is adjusted, and the input list still holds "A". *)
Lemma nonstandard_stake_output_is_not_adjusted :
  prepare_vout [stake_vin] (Some [Some nonstandard_stake_to_A]) (Some 0%nat)
  = Some ([stake_vin; []; stake_vin], 1%nat, 2%nat) /\
  is_nonstandard (nth 0 [Some nonstandard_stake_to_A] None) = true /\
  resolve_all [Some nonstandard_stake_to_A] = [] /\
  pos_applies [Some nonstandard_stake_to_A]
    (resolve_all [Some nonstandard_stake_to_A]) stake_vin = false /\
  ~ In (mkEntry "A" (Num.of_Z 100000000))
      (read 1%nat [stake_vin; []; stake_vin]) /\
  In (mkEntry "A" (Num.of_Z 500000000)) (read 2%nat [stake_vin; []; stake_vin]).
Proof.
  split; [rewrite prepare_vout_spec; vm_compute; reflexivity|].
  split; [reflexivity|]. split; [reflexivity|]. split; [reflexivity|].
  split; [intros []|left; reflexivity].
Qed.

(** C4 (amended): after the output loop the completion callback runs
    exactly once and applies the proof-of-stake adjustment exactly when
    the raw [vout[0]] is nonstandard, both resolved sets are non-empty
    and their first addresses are equal; it subtracts the first input's
    amount from the first resolved output's amount and drops the first
    input. A nonstandard [vout[0]] is itself never resolved, so the
    first resolved output comes from a later output: in the staking
    transaction (the nonstandard marker, then 6 coins to "A") against
    the input {A, 500000000} the output keeps 100000000 and the input
    list is empty. *)
Theorem prepare_vout_pos_adjustment :
  (forall (h : heap) (vout : list (option RawOutput)) (vin : option ref),
     let ins := match vin with Some r => read r (h ++ [[]]) | None => [] end in
     let outs := resolve_all vout in
     exists h' ro ri w,
       prepare_vout h (Some vout) vin = Some (h', ro, ri) /\
       loop ro ri vout (h ++ [[]; ins]) = (Normal, w) /\
       h' = user w /\
       List.length (filter is_exit (trace w)) = 1%nat /\
       (pos_condition vout outs ins ->
        exists i0 ins' o0 outs',
          ins = i0 :: ins' /\ outs = o0 :: outs' /\
          read ro h' = mkEntry (addresses o0) (Num.sub (amount o0) (amount i0)) :: outs' /\
          read ri h' = ins') /\
       (~ pos_condition vout outs ins -> read ro h' = outs /\ read ri h' = ins)) /\
  (forall (vout : list (option RawOutput)),
     is_nonstandard (nth 0 vout None) = true ->
     resolve_output (nth 0 vout None) = None /\
     resolve_all vout = resolve_all (tl vout)) /\
  (exists h' ro ri,
     prepare_vout [stake_vin] (Some stake_vout) (Some 0%nat) = Some (h', ro, ri) /\
     resolve_all stake_vout = [mkEntry "A" (Num.of_Z 600000000)] /\
     read ro h' = [mkEntry "A" (Num.of_Z 100000000)] /\
     read ri h' = []).
Proof.
  split; [|split].
  - intros h vout vin ins outs.
    destruct (loop_spec h ins vout) as (w & H1 & H2 & H3).
    exists (user w), (List.length h), (S (List.length h)), w.
    split; [rewrite H3; apply prepare_vout_spec|].
    split; [exact H1|]. split; [reflexivity|]. split.
    { rewrite H2, filter_app, filter_exit_processes. reflexivity. }
    rewrite H3, read_fst, read_snd. fold outs. unfold adjust. split.
    + intros Hc. pose proof (proj2 (pos_applies_iff _ _ _) Hc) as Hb.
      rewrite Hb. destruct Hc as (_ & Hi & Ho & _).
      destruct ins as [|i0 ins']; [congruence|].
      destruct outs as [|o0 outs']; [congruence|].
      exists i0, ins', o0, outs'. auto.
    + intros Hc. destruct (pos_applies vout outs ins) eqn:Hb; auto.
      apply pos_applies_iff in Hb. contradiction.
  - intros vout Hn.
    assert (Hr : resolve_output (nth 0 vout None) = None).
    { unfold is_nonstandard in Hn. unfold resolve_output.
      destruct (nth 0 vout None) as [o|]; [|reflexivity].
      destruct (scriptPubKey o) as [spk|]; [|reflexivity].
      rewrite Hn. reflexivity. }
    split; [exact Hr|].
    destruct vout as [|o rest]; [reflexivity|].
    simpl in Hr. unfold resolve_all. simpl. unfold step at 2. rewrite Hr.
    reflexivity.
  - eexists _, _, _. split; [apply prepare_vout_spec|].
    repeat split; vm_compute; reflexivity.
Qed.

(** C9, as stated, fails: [prepare_vout] works on [vin.slice()]; when the
    adjustment applies, the array the caller passed still holds its first
    entry. *)
Lemma caller_vin_keeps_first_entry :
  exists h' ro ri,
    prepare_vout [stake_vin] (Some stake_vout) (Some 0%nat) = Some (h', ro, ri) /\
    pos_applies stake_vout (resolve_all stake_vout) stake_vin = true /\
    read ri h' = [] /\
    In (mkEntry "A" (Num.of_Z 500000000)) (read 0%nat h').
Proof.
  eexists _, _, _. split; [apply prepare_vout_spec|].
  split; [vm_compute; reflexivity|].
  split; [vm_compute; reflexivity|].
  left. vm_compute. reflexivity.
Qed.

(** C9 (amended): [prepare_vout] copies the caller's [vin] array; the
    adjustment changes the returned output set and the copy handed to
    [cb], which is a different array, and leaves the caller's array as it
    was. *)
Theorem prepare_vout_copies_vin :
  forall (h : heap) (vout : list (option RawOutput)) (r : ref),
    (r < List.length h)%nat ->
    exists h' ro ri,
      prepare_vout h (Some vout) (Some r) = Some (h', ro, ri) /\
      read r h' = read r h /\
      ri <> r /\ ro <> r /\
      (pos_condition vout (resolve_all vout) (read r h) ->
       read ri h' = tl (read r h) /\
       exists o0 outs' i0,
         resolve_all vout = o0 :: outs' /\ hd_error (read r h) = Some i0 /\
         read ro h' = mkEntry (addresses o0) (Num.sub (amount o0) (amount i0)) :: outs').
Proof.
  intros h vout r Hr. eexists _, _, _.
  split; [apply prepare_vout_spec|].
  cbv beta iota zeta.
  rewrite (read_app_old r h [[]]) by exact Hr.
  split; [apply read_app_old; exact Hr|].
  split; [lia|]. split; [lia|].
  intros Hc. rewrite read_fst, read_snd. unfold adjust.
  rewrite (proj2 (pos_applies_iff _ _ _) Hc).
  destruct Hc as (_ & Hi & Ho & _).
  destruct (read r h) as [|i0 ins']; [congruence|].
  destruct (resolve_all vout) as [|o0 outs']; [congruence|].
  split; [reflexivity|]. exists o0, outs', i0. auto.
Qed.

Lemma prepare_vout_distinct_first_seen_accumulated_witness :
  exists h' ro ri,
    prepare_vout [] (Some [pay "pubkeyhash" "A" 0 1; pay "pubkeyhash" "A" 1 2]) None
    = Some (h', ro, ri) /\
    read ro h' = [mkEntry "A" (Num.of_Z 300000000)].
Proof.
  apply (proj2 prepare_vout_distinct_first_seen_accumulated
           [] None "pubkeyhash" "pubkeyhash" 0 1);
    reflexivity.
Defined.

Lemma prepare_vout_skips_and_resolves_witness :
  skipped (Some nonstandard_to_A) /\
  process 0%nat [Some nonstandard_to_A] 0 = [CallNext].
Proof.
  assert (H : skipped (Some nonstandard_to_A)) by (left; reflexivity).
  split; [exact H|].
  apply (proj1 (proj1 prepare_vout_skips_and_resolves 0%nat
                  [Some nonstandard_to_A] 0)).
  exact H.
Defined.

Lemma prepare_vout_pos_adjustment_witness :
  exists h' ro ri,
    prepare_vout [stake_vin] (Some stake_vout) (Some 0%nat) = Some (h', ro, ri) /\
    read ro h' = [mkEntry "A" (Num.sub (Num.of_Z 600000000) (Num.of_Z 500000000))] /\
    read ri h' = [].
Proof.
  destruct (proj1 prepare_vout_pos_adjustment [stake_vin] stake_vout (Some 0%nat))
    as (h' & ro & ri & w & H1 & _ & _ & _ & Hyes & _).
  destruct Hyes as (i0 & ins' & o0 & outs' & Hi & Ho & Hro & Hri).
  { apply pos_applies_iff. vm_compute. reflexivity. }
  exists h', ro, ri. split; [exact H1|].
  vm_compute in Hi, Ho. injection Hi as <- <-. injection Ho as <- <-.
  split; [exact Hro | exact Hri].
Defined.

Lemma prepare_vout_copies_vin_witness :
  (0 < List.length [stake_vin])%nat /\
  exists h' ro ri,
    prepare_vout [stake_vin] (Some stake_vout) (Some 0%nat) = Some (h', ro, ri) /\
    read 0%nat h' = read 0%nat [stake_vin] /\
    ri <> 0%nat /\ ro <> 0%nat.
Proof.
  assert (H : (0 < List.length [stake_vin])%nat) by (simpl; lia).
  split; [exact H|].
  destruct (prepare_vout_copies_vin [stake_vin] stake_vout 0%nat H)
    as (h' & ro & ri & H1 & H2 & H3 & H4 & _).
  exists h', ro, ri. auto.
Defined.

End VoutClaims.

(** ** Claims about syncLoop *)

Module LoopClaims.
Import Loop LoopSpec LoopFacts LoopOnceSpec LoopOnceFacts.

Lemma processes_S m : processes (S m) = processes m ++ [Process (Z.of_nat m)].
Proof. unfold processes. rewrite seq_S, map_app. reflexivity. Qed.

Lemma In_processes e m :
  In e (processes m) -> exists j, e = Process j /\ 0 <= j < Z.of_nat m.
Proof.
  unfold processes. rewrite in_map_iff. intros (j & <- & Hj).
  apply in_seq in Hj. exists (Z.of_nat j). split; [reflexivity | lia].
Qed.



(** C8 (the code's behaviour at the timer indices): when the callback
    throws in an iteration [k] that is a multiple of 100, so that
    [process] was called from the [setTimeout] callback and not inside
    the [try] block, the exception is uncaught and [exit] is never
    entered. *)
Theorem syncLoop_throw_from_timer_is_uncaught :
  forall (U : Type) (n : Z) (process : Z -> list (action U)) (exit : U -> U)
         (u : U) (k : Z) (pre rest : list (action U)),
    0 <= k < n -> k mod 100 = 0 ->
    (forall i, 0 <= i < k -> steady (process i)) ->
    process k = pre ++ Throw :: rest -> Forall pure_update pre ->
    exists fuel0, forall fuel, (fuel0 <= fuel)%nat ->
    exists w,
      run n process (Some exit) fuel u = (Thrown, w) /\
      trace w = processes (S (Z.to_nat k)) ++ [Uncaught] /\
      ~ In Exit (trace w).
Proof.
  intros U n process exit u k pre rest Hk Hmod Hsteady Hbody Hpre.
  exists (1 + Z.to_nat k + seg_yields process 0 (Z.to_nat k))%nat.
  intros fuel Hfuel.
  destruct (run_reaches n process (Some exit) k 1 1 Thrown
              [Process k; Uncaught] (effect pre)
              ltac:(lia) ltac:(lia)
              (terminal_throw_uncaught n process (Some exit) k pre rest
                 ltac:(lia) Hmod Hbody Hpre)
              Hsteady fuel u ltac:(lia) ltac:(lia)) as (w & H1 & H2 & _).
  exists w. split; [exact H1|].
  assert (Ht : trace w = processes (S (Z.to_nat k)) ++ [Uncaught]).
  { rewrite H2, seg_trace_processes, processes_S, Z2Nat.id by lia.
    rewrite <- app_assoc. reflexivity. }
  split; [exact Ht|]. rewrite Ht. intros Hin.
  apply in_app_or in Hin. destruct Hin as [Hin|[Hin|[]]]; [|discriminate].
  apply In_processes in Hin. destruct Hin as (j & ? & _). discriminate.
Qed.

(** At the other indices [process] is called inside the [try] block: the
    exception is caught, logged, and [exit] entered once. *)
Lemma syncLoop_throw_in_try_is_caught :
  forall (U : Type) (n : Z) (process : Z -> list (action U)) (exit : U -> U)
         (u : U) (k : Z) (pre rest : list (action U)),
    0 <= k < n -> k mod 100 <> 0 ->
    (forall i, 0 <= i < k -> steady (process i)) ->
    process k = pre ++ Throw :: rest -> Forall pure_update pre ->
    exists fuel0, forall fuel, (fuel0 <= fuel)%nat ->
    exists w,
      run n process (Some exit) fuel u = (Normal, w) /\
      trace w = processes (S (Z.to_nat k)) ++ [Caught; Exit].
Proof.
  intros U n process exit u k pre rest Hk Hmod Hsteady Hbody Hpre.
  exists (1 + Z.to_nat k + seg_yields process 0 (Z.to_nat k))%nat.
  intros fuel Hfuel.
  destruct (run_reaches n process (Some exit) k 1 0 Normal
              ([Process k; Caught] ++ exit_trace (Some exit))
              (fun u => exit_fun (Some exit) (effect pre u))
              ltac:(lia) ltac:(lia)
              (terminal_throw_caught n process (Some exit) k pre rest
                 ltac:(lia) Hmod Hbody Hpre)
              Hsteady fuel u ltac:(lia) ltac:(lia)) as (w & H1 & H2 & _).
  exists w. split; [exact H1|].
  rewrite H2, seg_trace_processes, processes_S, Z2Nat.id by lia.
  rewrite <- app_assoc. reflexivity.
Qed.


Lemma syncLoop_throw_from_timer_is_uncaught_witness :
  exists fuel0, forall fuel, (fuel0 <= fuel)%nat ->
  exists w,
    run 1 (fun _ => [Throw]) (Some (fun u : unit => u)) fuel tt = (Thrown, w) /\
    trace w = [Process 0; Uncaught] /\ ~ In Exit (trace w).
Proof.
  apply (syncLoop_throw_from_timer_is_uncaught unit 1 (fun _ => [Throw])
           (fun u => u) tt 0 [] []); try lia; try reflexivity.
  constructor.
Defined.

End LoopClaims.

(** ** Claims about prepare_vin *)

Module VinClaims.
Import Loop Vin LoopSpec ResolveSpec VinSpec DriftSpec.
Import LoopFacts EntryFacts ResolveFacts VinFacts.


Lemma to_satoshi_number x : to_satoshi (PNum x) = convert_to_satoshi (PNum x).
Proof.
  unfold to_satoshi, js_or.
  destruct x as [s|s| |s m e]; reflexivity.
Qed.

Lemma output_sum_single z k spk :
  0 < z < 2 ^ 26 * 10 ^ 8 ->
  output_sum [Some (mkOut (PNum (Num.round_Q false z (10 ^ 8))) k spk)]
  = Num.round_Q false z (10 ^ 8).
Proof.
  intros Hz.
  destruct (RoundFacts.round_Q_decimal false z (10 ^ 8) z ltac:(lia) ltac:(lia) Hz)
    as (m & e & H & _).
  unfold output_sum. cbn [fold_left value]. rewrite H. reflexivity.
Qed.



End VinClaims.

(** ** Claims about get_supply *)

Module SupplyClaims.
Import Num Supply SupplySpec SupplyAnswerSpec SupplyReadSpec.
Section WithSources.

Variable client_command : string -> rpc_reply.
Variable request : string -> http_reply.
Variable Address_findOne : find_one_reply.
Variable Address_find : find_reply.

Abbreviation get_supply :=
  (get_supply client_command request Address_findOne Address_find).
Abbreviation rpcCommand := (rpcCommand client_command).
Abbreviation rpc_failed := (rpc_failed client_command).
Abbreviation source_failed :=
  (source_failed client_command request Address_findOne Address_find).
Abbreviation daemon_answer := (daemon_answer client_command request).

Lemma rpc_failed_message method :
  rpc_failed method ->
  rpcCommand method = JPrim (PStr "RPC command failed") \/
  rpcCommand method = JPrim (PStr "Invalid RPC response").
Proof.
  unfold SupplySpec.rpc_failed, Supply.rpcCommand.
  destruct (client_command method) as [|[[|r0 rest]|]]; auto.
  intros [H|H].
  - rewrite H. auto.
  - rewrite H. destruct (negb (truthy_val r0)); auto.
Qed.

Lemma rpc_failed_zero method :
  rpc_failed method ->
  handleSupply (rpcCommand method) = pzero /\
  forall k, handleSupply (and_prop (rpcCommand method) k) = pzero.
Proof.
  intros H. destruct (rpc_failed_message method H) as [-> | ->];
    split; try reflexivity; intros k; reflexivity.
Qed.

Lemma handleSupply_number value : isNaN (handleSupply value) = false.
Proof.
  unfold handleSupply. destruct (isNaN (parseFloat_val value)) eqn:E; auto.
Qed.

Lemma handleSupply_non_numeric value :
  isNaN (parseFloat_val value) = true -> handleSupply value = pzero.
Proof. unfold handleSupply. intros ->. reflexivity. Qed.

Lemma get_supply_handled settings :
  configured settings = true -> exists value, get_supply settings = handleSupply value.
Proof.
  unfold configured, Supply.get_supply.
  destruct (supply settings) as [strategy|]; [|discriminate].
  destruct (strategy =? "")%string; [discriminate|]. intros _.
  destruct (use_rpc settings);
    destruct (strategy =? "HEAVY")%string; try (eexists; reflexivity);
    destruct (strategy =? "GETINFO")%string; try (eexists; reflexivity);
    destruct (strategy =? "TXOUTSET")%string; try (eexists; reflexivity);
    destruct (strategy =? "BALANCES")%string; eexists; reflexivity.
Qed.

Lemma handleSupply_cases value :
  handleSupply value = pzero \/ handleSupply value = parseFloat_val value.
Proof. unfold handleSupply. destruct (isNaN (parseFloat_val value)); auto. Qed.

(** What [rpcCommand] hands on for an answer [r0]: the answer, or a
    message that reads as no number. *)
Lemma rpcCommand_answer method r0 :
  DaemonSpec.rpc_result (client_command method) = Some r0 ->
  (rpc_refused r0 = false /\ rpcCommand method = r0) \/
  (rpc_refused r0 = true /\ handleSupply (rpcCommand method) = pzero /\
   forall k, handleSupply (and_prop (rpcCommand method) k) = pzero).
Proof.
  unfold DaemonSpec.rpc_result, Supply.rpcCommand, rpc_refused.
  destruct (client_command method) as [|[[|r l]|]]; try discriminate.
  intros [= ->].
  destruct (negb (truthy_val r0));
    [right; split; [|split; [|intros k]]; reflexivity|].
  destruct (get_prop r0 "name") as [| |b|x|name]; auto.
  destruct (name =? "RpcError")%string; [|left; split; reflexivity].
  right; split; [|split; [|intros k]]; reflexivity.
Qed.

Lemma get_supply_daemon settings strategy endpoint field answer :
  supply settings = Some strategy ->
  daemon_source strategy = Some (endpoint, field) ->
  daemon_answer settings endpoint = Some answer ->
  get_supply settings =
  (if use_rpc settings && rpc_refused answer then pzero
   else handleSupply (read_answer field answer)).
Proof.
  intros Hs Hd Ha. unfold Supply.get_supply. rewrite Hs.
  unfold daemon_source in Hd. unfold SupplyAnswerSpec.daemon_answer in Ha.
  destruct (strategy =? "")%string eqn:E0.
  { apply String.eqb_eq in E0. subst. discriminate. }
  assert (Hrpc : forall m f,
            DaemonSpec.rpc_result (client_command m) = Some answer ->
            handleSupply (read_answer f (rpcCommand m))
            = (if true && rpc_refused answer then pzero
               else handleSupply (read_answer f answer))).
  { intros m f Hm.
    destruct (rpcCommand_answer m answer Hm) as [[Hr ->] | (Hr & H1 & H2)];
      rewrite Hr; simpl andb; cbv iota; [reflexivity|].
    destruct f; simpl; auto. }
  assert (Hhttp : forall m f,
            match request m with HttpBody body => Some body | HttpError => None end
            = Some answer ->
            http_value (request m) f = read_answer f answer).
  { intros m f Hm. destruct (request m); [discriminate|].
    injection Hm as ->. reflexivity. }
  destruct (strategy =? "HEAVY")%string.
  { injection Hd as <- <-. destruct (use_rpc settings) eqn:Hr.
    - apply (Hrpc "getsupply" None Ha).
    - rewrite (Hhttp "getsupply" None Ha). reflexivity. }
  destruct (strategy =? "GETINFO")%string.
  { injection Hd as <- <-. destruct (use_rpc settings) eqn:Hr.
    - apply (Hrpc "getinfo" (Some "moneysupply") Ha).
    - rewrite (Hhttp "getinfo" (Some "moneysupply") Ha). reflexivity. }
  destruct (strategy =? "TXOUTSET")%string; [|discriminate].
  injection Hd as <- <-. destruct (use_rpc settings) eqn:Hr.
  - apply (Hrpc "gettxoutsetinfo" (Some "total_amount") Ha).
  - rewrite (Hhttp "gettxoutsetinfo" (Some "total_amount") Ha). reflexivity.
Qed.

Lemma get_supply_store settings strategy :
  supply settings = Some strategy -> strategy <> "" ->
  daemon_source strategy = None ->
  get_supply settings =
  handleSupply
    (JPrim (PNum (div (store_total Address_findOne Address_find strategy)
                      SATOSHI_FACTOR))).
Proof.
  intros Hs Hne Hd. unfold Supply.get_supply, store_total. rewrite Hs.
  unfold daemon_source in Hd.
  replace (strategy =? "")%string with false
    by (symmetry; apply String.eqb_neq; exact Hne).
  destruct (strategy =? "HEAVY")%string; [discriminate|].
  destruct (strategy =? "GETINFO")%string; [discriminate|].
  destruct (strategy =? "TXOUTSET")%string; [discriminate|].
  destruct (strategy =? "BALANCES")%string; destruct (use_rpc settings); reflexivity.
Qed.


End WithSources.


End SupplyClaims.

(** * Further properties *)

(** ** is_unique and accumulate *)

Module EntryProperties.
Import ResolveSpec EntryFacts.

Lemma scan_first array object :
  forall s,
    match scan array object s with
    | Some i =>
        (s <= i)%nat /\
        (exists e, nth_error array (i - s) = Some e /\ addresses e = object) /\
        (forall j e', (j < i - s)%nat -> nth_error array j = Some e' ->
                      addresses e' <> object)
    | None => forall e, In e array -> addresses e <> object
    end.
Proof.
  induction array as [|x array IH]; intros s; simpl.
  - intros e [].
  - destruct (addresses x =? object)%string eqn:E.
    + apply String.eqb_eq in E. split; [lia|]. rewrite Nat.sub_diag. split.
      * exists x. auto.
      * intros j e' Hj. lia.
    + apply String.eqb_neq in E. specialize (IH (S s)).
      destruct (scan array object (S s)) as [i|].
      * destruct IH as (H1 & (e & H2 & H3) & H4). split; [lia|].
        replace (i - s)%nat with (S (i - S s)) by lia. split.
        -- exists e. auto.
        -- intros [|j] e' Hj Hn; simpl in Hn.
           ++ injection Hn as <-. exact E.
           ++ apply (H4 j e'); [lia | exact Hn].
      * intros e [<-|He]; auto.
Qed.

(** X1: [is_unique] answers [(false, i)] exactly when [i] is the first
    index whose entry has the address, and [(true, null)] exactly when no
    entry has it; there is no other answer. *)
Theorem is_unique_finds_first :
  forall (array : list entry) (object : string),
    (forall i,
       is_unique array object = (false, Some i) <->
       (exists e, nth_error array i = Some e /\ addresses e = object) /\
       (forall j e', (j < i)%nat -> nth_error array j = Some e' ->
                     addresses e' <> object)) /\
    (is_unique array object = (true, None) <->
     forall e, In e array -> addresses e <> object) /\
    (is_unique array object = (true, None) \/
     exists i, is_unique array object = (false, Some i)).
Proof.
  intros array object. unfold is_unique.
  pose proof (scan_first array object 0) as H.
  destruct (scan array object 0) as [i0|].
  - destruct H as (_ & (e0 & H2 & H3) & H4). rewrite Nat.sub_0_r in *.
    split; [|split].
    + intros i. split.
      * intros [= <-]. split; [exists e0; auto | exact H4].
      * intros ((e & He1 & He2) & Hfirst).
        destruct (Nat.lt_trichotomy i i0) as [Hlt|[->|Hgt]]; auto.
        -- exfalso. apply (H4 i e Hlt He1 He2).
        -- exfalso. apply (Hfirst i0 e0 Hgt H2 H3).
    + split; [discriminate|]. intros Hno. exfalso.
      apply (Hno e0); [eapply nth_error_In; eauto | exact H3].
    + right. exists i0. reflexivity.
  - split; [|split].
    + intros i. split; [discriminate|].
      intros ((e & He1 & He2) & _). exfalso.
      apply (H e); [eapply nth_error_In; eauto | exact He2].
    + split; auto.
    + left. reflexivity.
Qed.

Lemma scan_insert_same a x arr s :
  scan (insert a x arr) a s =
    match scan arr a s with
    | Some i => Some i
    | None => Some (s + List.length arr)%nat
    end.
Proof.
  revert s; induction arr as [|e r IH]; intros s; simpl.
  - rewrite String.eqb_refl. f_equal. lia.
  - destruct (addresses e =? a)%string eqn:E; simpl; rewrite E; auto.
    rewrite IH. destruct (scan r a (S s)); f_equal. lia.
Qed.

Lemma scan_insert_other a b x arr s :
  a <> b -> scan (insert a x arr) b s = scan arr b s.
Proof.
  intros Hab. revert s; induction arr as [|e r IH]; intros s; simpl.
  - replace (a =? b)%string with false; auto.
    symmetry. apply String.eqb_neq. exact Hab.
  - destruct (addresses e =? a)%string eqn:E; simpl.
    + apply String.eqb_eq in E. rewrite E. reflexivity.
    + rewrite IH. reflexivity.
Qed.

Lemma insert_length a x arr :
  List.length (insert a x arr) =
    if existsb (String.eqb a) (map addresses arr)
    then List.length arr else S (List.length arr).
Proof.
  pose proof (f_equal (@List.length string) (insert_addresses a x arr)) as H.
  rewrite length_map in H. rewrite H.
  destruct (existsb (String.eqb a) (map addresses arr));
    rewrite ?length_app, length_map; simpl; lia.
Qed.

Lemma insert_nth_new a x arr :
  scan arr a 0 = None ->
  nth_error (insert a x arr) (List.length arr) = Some (mkEntry a x).
Proof.
  intros H. pose proof (scan_first arr a 0) as Hs. rewrite H in Hs.
  clear H. induction arr as [|e r IH]; simpl; auto.
  destruct (addresses e =? a)%string eqn:E.
  - apply String.eqb_eq in E. exfalso. apply (Hs e); simpl; auto.
  - simpl. apply IH. intros e' He'. apply Hs. simpl. auto.
Qed.

Lemma insert_nth_old a x arr i e :
  scan arr a 0 = Some i -> nth_error arr i = Some e ->
  nth_error (insert a x arr) i = Some (mkEntry a (Num.add (amount e) x)).
Proof.
  revert i. induction arr as [|y r IH]; intros i; simpl; [discriminate|].
  destruct (addresses y =? a)%string eqn:E.
  - intros [= <-] [= <-]. simpl. apply String.eqb_eq in E. rewrite E. reflexivity.
  - rewrite scan_shift. destruct (scan r a 0) as [j|] eqn:Hj; [|discriminate].
    intros [= <-] Hn. simpl in *. apply (IH j eq_refl Hn).
Qed.

(** X2: after [accumulate], [is_unique] finds the address: at the index
    it had, with the amount added to the old one, or at the end of the
    array, with the amount given; the array grows by one entry in the
    second case only, and the answers for the other addresses stay the
    same. *)
Theorem accumulate_then_is_unique :
  forall (a : string) (x : Num.number) (arr : list entry),
    (forall i e,
       is_unique arr a = (false, Some i) -> nth_error arr i = Some e ->
       is_unique (accumulate a x arr) a = (false, Some i) /\
       nth_error (accumulate a x arr) i = Some (mkEntry a (Num.add (amount e) x)) /\
       List.length (accumulate a x arr) = List.length arr) /\
    (is_unique arr a = (true, None) ->
     is_unique (accumulate a x arr) a = (false, Some (List.length arr)) /\
     nth_error (accumulate a x arr) (List.length arr) = Some (mkEntry a x) /\
     List.length (accumulate a x arr) = S (List.length arr)) /\
    (forall b, b <> a -> is_unique (accumulate a x arr) b = is_unique arr b).
Proof.
  intros a x arr. rewrite accumulate_insert. unfold is_unique.
  rewrite scan_insert_same.
  assert (Hex : existsb (String.eqb a) (map addresses arr) =
                match scan arr a 0 with Some _ => true | None => false end).
  { pose proof (scan_first arr a 0) as H.
    destruct (scan arr a 0) as [i|].
    - destruct H as (_ & (e & H1 & H2) & _).
      apply ResolveFacts.existsb_eqb_In. rewrite <- H2. apply in_map.
      eapply nth_error_In; eauto.
    - destruct (existsb (String.eqb a) (map addresses arr)) eqn:E; auto.
      apply ResolveFacts.existsb_eqb_In in E. apply in_map_iff in E.
      destruct E as (e & He1 & He2). exfalso. apply (H e He2 He1). }
  split; [|split].
  - intros i e Hu Hn. destruct (scan arr a 0) as [i0|] eqn:Hs; [|discriminate].
    injection Hu as <-. split; [reflexivity|]. split.
    + apply insert_nth_old; assumption.
    + rewrite insert_length, Hex. reflexivity.
  - intros Hu. destruct (scan arr a 0) as [i0|] eqn:Hs; [discriminate|].
    split; [reflexivity|]. split.
    + apply insert_nth_new. exact Hs.
    + rewrite insert_length, Hex. reflexivity.
  - intros b Hb. rewrite scan_insert_other by congruence. reflexivity.
Qed.

Lemma accumulate_then_is_unique_witness :
  is_unique [mkEntry "A" (Num.of_Z 1)] "A" = (false, Some 0%nat) /\
  is_unique (accumulate "A" (Num.of_Z 2) [mkEntry "A" (Num.of_Z 1)]) "A"
  = (false, Some 0%nat).
Proof.
  assert (H : is_unique [mkEntry "A" (Num.of_Z 1)] "A" = (false, Some 0%nat))
    by reflexivity.
  split; [exact H|].
  apply (proj1 (accumulate_then_is_unique "A" (Num.of_Z 2) [mkEntry "A" (Num.of_Z 1)])
           0%nat (mkEntry "A" (Num.of_Z 1)) H eq_refl).
Defined.

End EntryProperties.

(** ** prepare_vout *)

Module VoutProperties.
Import Loop Heap Vout ResolveSpec.

Lemma read_app_at (h : heap) (a : list entry) t :
  read (List.length h) (h ++ a :: t) = a.
Proof.
  unfold read. rewrite app_nth2 by lia. rewrite Nat.sub_diag. reflexivity.
Qed.

Lemma read_app_next (h : heap) (a b : list entry) t :
  read (S (List.length h)) (h ++ a :: b :: t) = b.
Proof.
  unfold read. rewrite app_nth2 by lia.
  replace (S (List.length h) - List.length h)%nat with 1%nat by lia. reflexivity.
Qed.

(** X3: [prepare_vout] always calls back, and works on arrays of its
    own: every array that existed before the call reads the same
    afterwards, the output set is a new array, and so is the input set
    whenever [vout] is an array. Only when [vout] is not an array is the
    caller's own [vin] handed on, with an empty output set. *)
Theorem prepare_vout_frame :
  forall (h : heap) (vout : option (list (option RawOutput))) (vin : option ref),
    match vin with Some r => (r < List.length h)%nat | None => True end ->
    exists h' arr_vout arr_vin,
      prepare_vout h vout vin = Some (h', arr_vout, arr_vin) /\
      (forall r, (r < List.length h)%nat -> read r h' = read r h) /\
      (List.length h <= arr_vout)%nat /\
      arr_vout <> arr_vin /\
      match vout, vin with
      | None, Some r => arr_vin = r /\ read arr_vout h' = []
      | None, None => (List.length h <= arr_vin)%nat /\
                      read arr_vout h' = [] /\ read arr_vin h' = []
      | Some _, _ => (List.length h <= arr_vin)%nat
      end.
Proof.
  intros h [outputs|] vin Hvin.
  - pose proof (VoutFacts.prepare_vout_spec h outputs vin) as H.
    cbv zeta in H. rewrite H. do 3 eexists. split; [reflexivity|].
    split; [|split; [|split]]; try lia.
    intros r Hr. apply HeapFacts.read_app_old. exact Hr.
  - destruct vin as [r|]; simpl.
    + do 3 eexists. split; [reflexivity|].
      split; [|split; [|split; [|split]]]; try lia; auto.
      * intros r' Hr'. apply HeapFacts.read_app_old. exact Hr'.
      * apply read_app_at.
    + rewrite length_app. simpl. rewrite <- app_assoc. simpl.
      do 3 eexists. split; [reflexivity|].
      split; [|split; [|split; [|split; [|split]]]]; try lia.
      * intros r' Hr'. apply HeapFacts.read_app_old. exact Hr'.
      * apply read_app_at.
      * replace (List.length h + 1)%nat with (S (List.length h)) by lia.
        apply read_app_next.
Qed.

Lemma prepare_vout_frame_witness :
  exists h' arr_vout arr_vin,
    prepare_vout [[mkEntry "A" (Num.of_Z 5)]] None (Some 0%nat)
    = Some (h', arr_vout, arr_vin) /\ arr_vin = 0%nat.
Proof.
  destruct (prepare_vout_frame [[mkEntry "A" (Num.of_Z 5)]] None (Some 0%nat))
    as (h' & ro & ri & H & _ & _ & _ & Hri & _).
  - simpl. lia.
  - exists h', ro, ri. split; [exact H | exact Hri].
Defined.

(** The addresses of the outputs that are not skipped. *)
Lemma contributions_In vout a :
  In a (map fst (contributions vout)) <->
  exists o v, In o vout /\ resolve_output o = Some (a, v).
Proof.
  unfold contributions. rewrite in_map_iff. split.
  - intros ((a', x) & <- & Hin). apply in_flat_map in Hin.
    destruct Hin as (o & Ho & Hx).
    destruct (resolve_output o) as [[a0 v]|] eqn:E; simpl in Hx; [|contradiction].
    destruct Hx as [[= <- <-]|[]]. exists o, v. auto.
  - intros (o & v & Ho & E). exists (a, to_satoshi v). split; auto.
    apply in_flat_map. exists o. split; auto. rewrite E. simpl. auto.
Qed.

Lemma first_seen_In l : forall acc a,
  In a (fold_left (fun acc a => if existsb (String.eqb a) acc then acc else acc ++ [a])
          l acc) <-> In a acc \/ In a l.
Proof.
  induction l as [|b l IH]; intros acc a; simpl.
  - tauto.
  - rewrite IH. destruct (existsb (String.eqb b) acc) eqn:E.
    + apply ResolveFacts.existsb_eqb_In in E.
      split; [tauto|]. intros [H|[<-|H]]; auto.
    + rewrite in_app_iff. simpl. tauto.
Qed.

Lemma first_seen_length l : forall acc,
  (List.length (fold_left (fun acc a => if existsb (String.eqb a) acc then acc
                                        else acc ++ [a]) l acc)
   <= List.length acc + List.length l)%nat.
Proof.
  induction l as [|b l IH]; intros acc; simpl; [lia|].
  specialize (IH (if existsb (String.eqb b) acc then acc else acc ++ [b])).
  destruct (existsb (String.eqb b) acc); rewrite ?length_app in IH; simpl in IH; lia.
Qed.

Lemma contributions_length vout :
  (List.length (contributions vout) <= List.length vout)%nat.
Proof.
  unfold contributions. induction vout as [|o r IH]; simpl; [lia|].
  rewrite length_app. destruct (resolve_output o) as [[a v]|]; simpl; lia.
Qed.

Lemma resolve_output_Some output a v :
  resolve_output output = Some (a, v) <->
  exists o spk, output = Some o /\ scriptPubKey o = Some spk /\
                type_ spk <> "nonstandard" /\ type_ spk <> "nulldata" /\
                primary_address spk a /\ v = value o.
Proof.
  unfold resolve_output, primary_address, address_list. split.
  - destruct output as [o|]; [|discriminate].
    destruct (scriptPubKey o) as [spk|] eqn:Hs; [|discriminate].
    destruct (type_ spk =? "nonstandard")%string eqn:E1; [discriminate|].
    destruct (type_ spk =? "nulldata")%string eqn:E2; [discriminate|].
    apply String.eqb_neq in E1, E2. simpl.
    intros H. exists o, spk. split; [reflexivity|]. split; [exact Hs|].
    split; [exact E1|]. split; [exact E2|].
    destruct (spk_addresses spk) as [[|a0 l]|].
    + destruct (spk_address spk) as [a1|]; [|discriminate].
      destruct (a1 =? "")%string eqn:E3; [discriminate|].
      apply String.eqb_neq in E3. injection H as <- <-. auto.
    + injection H as <- <-. auto.
    + destruct (spk_address spk) as [a1|]; [|discriminate].
      destruct (a1 =? "")%string eqn:E3; [discriminate|].
      apply String.eqb_neq in E3. injection H as <- <-. auto.
  - intros (o & spk & -> & Hs & E1 & E2 & Hp & ->). rewrite Hs.
    apply String.eqb_neq in E1, E2. rewrite E1, E2. simpl.
    destruct (spk_addresses spk) as [[|a0 l]|].
    + destruct Hp as (-> & Hne). apply String.eqb_neq in Hne. rewrite Hne. reflexivity.
    + subst a. reflexivity.
    + destruct Hp as (-> & Hne). apply String.eqb_neq in Hne. rewrite Hne. reflexivity.
Qed.

(** X4: the addresses of the output set [prepare_vout] hands on are
    exactly the primary addresses of the outputs whose type is neither
    nonstandard nor nulldata; so the set has at most one entry per
    output, and none when every output is skipped. *)
Theorem prepare_vout_address_set :
  forall (h : heap) (vout : list (option RawOutput)) (vin : option ref),
    exists h' arr_vout arr_vin,
      prepare_vout h (Some vout) vin = Some (h', arr_vout, arr_vin) /\
      (forall a,
         In a (map addresses (read arr_vout h')) <->
         exists o spk,
           In (Some o) vout /\ scriptPubKey o = Some spk /\
           type_ spk <> "nonstandard" /\ type_ spk <> "nulldata" /\
           primary_address spk a) /\
      (List.length (read arr_vout h') <= List.length vout)%nat /\
      ((forall o, In o vout -> resolve_output o = None) ->
       read arr_vout h' = []).
Proof.
  intros h vout vin.
  pose proof (VoutFacts.prepare_vout_spec h vout vin) as H. cbv zeta in H.
  rewrite H. do 3 eexists. split; [reflexivity|].
  rewrite read_app_at.
  set (ins := match vin with Some r => read r (h ++ [[]]) | None => [] end).
  assert (Hadd : map addresses (fst (adjust vout (resolve_all vout) ins)) =
                 fold_left (fun acc a => if existsb (String.eqb a) acc then acc
                                         else acc ++ [a])
                   (map fst (contributions vout)) []).
  { rewrite ResolveFacts.adjust_addresses, ResolveFacts.resolve_all_insert_all.
    apply ResolveFacts.insert_all_addresses. }
  split; [|split].
  - intros a. rewrite Hadd, first_seen_In, contributions_In. split.
    + intros [[]|(o & v & Ho & E)].
      apply resolve_output_Some in E.
      destruct E as (o' & spk & -> & Hs & E1 & E2 & Hp & _).
      exists o', spk. auto.
    + intros (o & spk & Ho & Hs & E1 & E2 & Hp). right.
      exists (Some o), (value o). split; [exact Ho|].
      apply resolve_output_Some. exists o, spk. auto 10.
  - rewrite <- (length_map addresses), Hadd.
    pose proof (first_seen_length (map fst (contributions vout)) []) as H1.
    pose proof (contributions_length vout) as H2.
    rewrite length_map in H1. simpl in H1. lia.
  - intros Hall.
    assert (Hc : contributions vout = []).
    { unfold contributions. clear - Hall.
      induction vout as [|o r IH]; simpl; auto.
      rewrite (Hall o) by (simpl; auto). simpl. apply IH.
      intros o' Ho'. apply Hall. simpl. auto. }
    apply (f_equal (@List.length string)) in Hadd. rewrite Hc in Hadd.
    simpl in Hadd. rewrite length_map in Hadd.
    destruct (fst (adjust vout (resolve_all vout) ins)); [reflexivity|discriminate].
Qed.

End VoutProperties.

(** ** get_input_addresses and prepare_vin *)

Module VinProperties.
Import Loop Vin VinSpec VinSourceSpec.
Section WithDataSource.

Variable get_rawtransaction : option string -> option (list RawOutput).

Abbreviation get_input_addresses := (get_input_addresses get_rawtransaction).
Abbreviation prepare_vin := (prepare_vin get_rawtransaction).
Abbreviation sources := (sources get_rawtransaction).
Abbreviation vin_step := (vin_step get_rawtransaction).

Lemma find_n_first outs k pre o post :
  outs = pre ++ o :: post ->
  (forall o', In o' pre -> n o' <> k) -> n o = k ->
  find_n outs (Some k) = Some o.
Proof.
  intros -> Hpre Ho. induction pre as [|p pre IH]; simpl.
  - rewrite Ho, Z.eqb_refl. reflexivity.
  - destruct (n p =? k) eqn:E.
    + apply Z.eqb_eq in E. exfalso. apply (Hpre p); simpl; auto.
    + apply IH. intros o' Ho'. apply Hpre. simpl. auto.
Qed.

Lemma find_n_none outs k :
  (forall o k', In o outs -> k = Some k' -> n o <> k') ->
  find_n outs k = None.
Proof.
  intros H. induction outs as [|o outs IH]; simpl; auto.
  destruct k as [k'|].
  - destruct (n o =? k') eqn:E.
    + apply Z.eqb_eq in E. exfalso. apply (H o k'); simpl; auto.
    + apply IH. intros o' k'' Ho'. apply H. simpl. auto.
  - apply IH. intros o' k'' Ho'. apply H. simpl. auto.
Qed.

(** X5: [get_input_addresses] always calls back, with at most one
    source. A missing input gives none. A coinbase input gives the one
    source "coinbase" whatever the data source answers. For any other
    input the callback comes from a later task; the source is read off
    the first output of the previous transaction whose [n] is the
    input's [vout], and from that output alone: when it carries no
    address, or the transaction cannot be fetched, or no output has that
    [n], there is no source. *)
Theorem get_input_addresses_cases :
  forall (input : option RawInput) (vout : list (option RawOutput)),
    exists later addrs,
      get_input_addresses input vout = Some (later, addrs) /\
      (List.length addrs <= 1)%nat /\
      (input = None -> addrs = []) /\
      (forall inp, input = Some inp -> coinbase inp = true ->
         exists x, addrs = [mkSource "coinbase" (PNum x)]) /\
      (forall inp, input = Some inp -> coinbase inp = false ->
         later = true /\
         (get_rawtransaction (txid inp) = None -> addrs = []) /\
         (forall outs,
            get_rawtransaction (txid inp) = Some outs ->
            (forall o k, In o outs -> vout_n inp = Some k -> n o <> k) ->
            addrs = []) /\
         (forall outs k pre o post,
            get_rawtransaction (txid inp) = Some outs ->
            vout_n inp = Some k ->
            outs = pre ++ o :: post ->
            (forall o', In o' pre -> n o' <> k) -> n o = k ->
            addrs = match output_addresses o with
                    | a :: _ => [mkSource a (value o)]
                    | [] => []
                    end)).
Proof.
  intros input vout.
  destruct (VinFacts.get_input_addresses_spec get_rawtransaction input vout)
    as (later & H).
  exists later, (sources input vout). split; [exact H|].
  destruct input as [inp|]; simpl.
  - destruct (coinbase inp) eqn:Hc.
    + split; [simpl; lia|]. split; [discriminate|]. split.
      * intros inp' [= <-] _. eexists. reflexivity.
      * intros inp' [= <-]. congruence.
    + assert (Hl : later = true).
      { unfold Vin.get_input_addresses in H. rewrite Hc in H. congruence. }
      split; [|split; [discriminate|split]].
      * destruct (get_rawtransaction (txid inp)) as [outs|]; simpl; [|lia].
        destruct (find_n outs (vout_n inp)) as [o|]; simpl; [|lia].
        destruct (match scriptPubKey o with Some spk => address_list spk | None => [] end);
          simpl; lia.
      * intros inp' [= <-]. congruence.
      * intros inp' [= <-] _. split; [exact Hl|]. split; [|split].
        -- intros ->. reflexivity.
        -- intros outs -> Hn. rewrite find_n_none; [reflexivity|].
           intros o k' Ho Hk. apply Hn; assumption.
        -- intros outs k pre o post -> -> Ho Hpre Hk.
           rewrite (find_n_first outs k pre o post Ho Hpre Hk). reflexivity.
  - split; [simpl; lia|]. split; [reflexivity|]. split; intros inp; discriminate.
Qed.

Lemma resolves_sources vout input :
  resolves get_rawtransaction vout input =
    match sources input vout with [] => false | _ :: _ => true end.
Proof.
  unfold resolves.
  destruct (VinFacts.get_input_addresses_spec get_rawtransaction input vout)
    as (later & ->). reflexivity.
Qed.

Lemma fold_vin_filter vout inputs : forall arr,
  fold_left (vin_step vout) (filter (resolves get_rawtransaction vout) inputs) arr =
  fold_left (vin_step vout) inputs arr.
Proof.
  induction inputs as [|i r IH]; intros arr; simpl; auto.
  rewrite resolves_sources.
  destruct (sources i vout) as [|s l] eqn:E; simpl.
  - rewrite IH. unfold VinSpec.vin_step at 3. rewrite E. reflexivity.
  - apply IH.
Qed.

(** X6: an input that resolves to no source (missing, previous
    transaction not found, no matching output, no address) is skipped and
    the others are still resolved: [prepare_vin] gives the same set as
    on the transaction without those inputs, and the empty set when no
    input resolves. Without a transaction, or when its [vin] is not an
    array, the set is empty. *)
Theorem prepare_vin_skips_unresolved :
  (forall (tx : RawTransaction) (inputs : list (option RawInput)),
     vin tx = Some inputs ->
     prepare_vin (Some tx) =
       prepare_vin (Some (mkTx (Some (filter (resolves get_rawtransaction (vout tx))
                                        inputs))
                               (vout tx))) /\
     ((forall i, In i inputs -> resolves get_rawtransaction (vout tx) i = false) ->
      prepare_vin (Some tx) = Some [])) /\
  prepare_vin None = Some [] /\
  (forall outs, prepare_vin (Some (mkTx None outs)) = Some []).
Proof.
  split; [|split; [reflexivity|reflexivity]].
  intros tx inputs Hvin.
  rewrite (VinFacts.prepare_vin_spec get_rawtransaction tx inputs Hvin).
  split.
  - rewrite (VinFacts.prepare_vin_spec get_rawtransaction
               (mkTx (Some (filter (resolves get_rawtransaction (vout tx)) inputs))
                     (vout tx))
               (filter (resolves get_rawtransaction (vout tx)) inputs) eq_refl).
    simpl. rewrite fold_vin_filter. reflexivity.
  - intros Hall. rewrite <- fold_vin_filter.
    replace (filter (resolves get_rawtransaction (vout tx)) inputs) with
      (@nil (option RawInput)); [reflexivity|].
    symmetry. clear Hvin. induction inputs as [|i r IH]; simpl; auto.
    rewrite (Hall i) by (simpl; auto). apply IH.
    intros j Hj. apply Hall. simpl. auto.
Qed.

Lemma vin_step_addresses vout arr input a :
  In a (map addresses (vin_step vout arr input)) <->
  In a (map addresses arr) \/
  exists s l, sources input vout = s :: l /\ a = hash s.
Proof.
  unfold VinSpec.vin_step. destruct (sources input vout) as [|s l].
  - split; [auto|]. intros [H|(s & l & H & _)]; [exact H|discriminate].
  - rewrite EntryFacts.accumulate_insert, EntryFacts.insert_addresses.
    destruct (existsb (String.eqb (hash s)) (map addresses arr)) eqn:E.
    + apply ResolveFacts.existsb_eqb_In in E. split; [auto|].
      intros [H|(s' & l' & [= <- <-] & ->)]; auto.
    + rewrite in_app_iff. simpl. split.
      * intros [H|[<-|[]]]; [auto|]. right. exists s, l. auto.
      * intros [H|(s' & l' & [= <- <-] & ->)]; auto.
Qed.

Lemma vin_step_length vout arr input :
  (List.length (vin_step vout arr input) <= S (List.length arr))%nat.
Proof.
  unfold VinSpec.vin_step. destruct (sources input vout) as [|s l]; [lia|].
  rewrite EntryFacts.accumulate_insert.
  pose proof (f_equal (@List.length string)
                (EntryFacts.insert_addresses (hash s)
                   (to_satoshi (src_amount s)) arr)) as H.
  rewrite length_map in H. rewrite H.
  destruct (existsb (String.eqb (hash s)) (map addresses arr));
    rewrite ?length_app, length_map; simpl; lia.
Qed.

Lemma fold_vin_addresses vout inputs : forall arr a,
  In a (map addresses (fold_left (vin_step vout) inputs arr)) <->
  In a (map addresses arr) \/
  exists i s l, In i inputs /\ sources i vout = s :: l /\ a = hash s.
Proof.
  induction inputs as [|i r IH]; intros arr a; simpl.
  - split; [auto|]. intros [H|(i & s & l & [] & _)]; exact H.
  - rewrite IH, vin_step_addresses. split.
    + intros [[H|(s & l & H1 & H2)]|(j & s & l & H1 & H2)]; auto.
      * right. exists i, s, l. auto.
      * right. exists j, s, l. auto.
    + intros [H|(j & s & l & [<-|H1] & H2)]; auto.
      * left. right. exists s, l. exact H2.
      * right. exists j, s, l. auto.
Qed.

Lemma fold_vin_length vout inputs : forall arr,
  (List.length (fold_left (vin_step vout) inputs arr)
   <= List.length arr + List.length inputs)%nat.
Proof.
  induction inputs as [|i r IH]; intros arr; simpl; [lia|].
  specialize (IH (vin_step vout arr i)).
  pose proof (vin_step_length vout arr i). lia.
Qed.

(** X7: the set [prepare_vin] hands on has one entry per distinct
    source address: no address occurs twice, there are at most as many
    entries as inputs, and an address is in the set exactly when it is
    the [hash] of the source of one of the inputs. *)
Theorem prepare_vin_address_set :
  forall (tx : RawTransaction) (inputs : list (option RawInput)),
    vin tx = Some inputs ->
    exists arr,
      prepare_vin (Some tx) = Some arr /\
      NoDup (map addresses arr) /\
      (List.length arr <= List.length inputs)%nat /\
      (forall a,
         In a (map addresses arr) <->
         exists i later s l,
           In i inputs /\
           get_input_addresses i (vout tx) = Some (later, s :: l) /\
           a = hash s).
Proof.
  intros tx inputs Hvin.
  rewrite (VinFacts.prepare_vin_spec get_rawtransaction tx inputs Hvin).
  eexists. split; [reflexivity|]. split; [|split].
  - apply VinFacts.fold_vin_NoDup. constructor.
  - apply (fold_vin_length (vout tx) inputs []).
  - intros a. rewrite fold_vin_addresses. simpl. split.
    + intros [[]|(i & s & l & Hi & Hs & ->)].
      destruct (VinFacts.get_input_addresses_spec get_rawtransaction i (vout tx))
        as (later & H).
      exists i, later, s, l. rewrite H, Hs. auto.
    + intros (i & later & s & l & Hi & H & ->). right.
      destruct (VinFacts.get_input_addresses_spec get_rawtransaction i (vout tx))
        as (later' & H'). rewrite H' in H. injection H as _ Hs.
      exists i, s, l. auto.
Qed.

End WithDataSource.

Lemma prepare_vin_address_set_witness :
  exists arr,
    Vin.prepare_vin prev_tx
      (Some (mkTx (Some [Some (mkIn (Some "t") (Some 0) false)]) [])) = Some arr /\
    NoDup (map addresses arr).
Proof.
  destruct (prepare_vin_address_set prev_tx
              (mkTx (Some [Some (mkIn (Some "t") (Some 0) false)]) [])
              [Some (mkIn (Some "t") (Some 0) false)] eq_refl)
    as (arr & H1 & H2 & _).
  exists arr. split; assumption.
Defined.

End VinProperties.

(** ** syncLoop: break, stall, double exit *)

Module LoopEndFacts.
Import Loop LoopSpec LoopFacts LoopEndSpec.
Section Facts.

Context {U : Type}.
Variable iterations : Z.
Variable process : Z -> list (action U).
Variable exit : U -> U.

Abbreviation next := (next iterations process (Some exit)).
Abbreviation drain := (drain iterations process (Some exit)).
Abbreviation reaches := (reaches iterations process (Some exit)).
Abbreviation body_reaches := (body_reaches iterations process (Some exit)).
Abbreviation terminal := (terminal iterations process (Some exit)).

(** An outcome [Normal] of the event loop means that nothing is pending. *)
Lemma drain_normal_idle F tasks : forall (w w' : world U),
  drain F tasks w = (Normal, w') -> queue w' = [].
Proof.
  induction tasks as [|tasks IH]; intros w w'; simpl.
  - destruct (queue w) eqn:E; [|discriminate]. intros [= <-]. exact E.
  - destruct (queue w) as [|t q] eqn:E; [intros [= <-]; exact E|].
    destruct (run_task iterations process (Some exit) F t (set_queue q w))
      as [[| |] w1]; try discriminate. apply IH.
Qed.

Lemma run_normal_idle fuel u (w : world U) :
  run iterations process (Some exit) fuel u = (Normal, w) -> queue w = [].
Proof.
  unfold run.
  destruct (syncLoop iterations process (Some exit) fuel u) as [[| |] w1];
    try discriminate.
  apply drain_normal_idle.
Qed.

(** After [loop.break(true)], every further [loop.next()] calls [exit]. *)
Lemma after_break_true post :
  Forall calm post ->
  forall f F tasks w,
    done w = true -> shouldExit w = true -> queue w = [] ->
    (1 <= f)%nat -> (1 <= F)%nat -> (yields post <= tasks)%nat ->
    body_reaches f F tasks post w Normal (repeat Exit (nexts post))
      (effect_with exit post (user w)).
Proof.
  induction 1 as [|x post Hx Hpost IH]; intros f F tasks w Hd Hs Hq Hf HF Ht.
  - exists w, w. simpl. rewrite app_nil_r. auto using drain_empty.
  - destruct x; simpl in Hx; try contradiction.
    + destruct (IH f F tasks (set_user (f0 (user w)) w) Hd Hs Hq Hf HF
                  ltac:(simpl in Ht; lia)) as (w1 & w2 & H1 & H2 & H3 & H4).
      exists w1, w2. simpl. auto.
    + destruct (IH f F tasks (call_exit (Some exit) w) Hd Hs Hq Hf HF
                  ltac:(simpl in Ht; lia)) as (w1 & w2 & H1 & H2 & H3 & H4).
      exists w1, w2. destruct f as [|f]; [lia|].
      simpl. simpl in H1. rewrite Hd, Hs.
      split; [exact H1|]. split; [exact H2|]. split.
      * rewrite H3. simpl. rewrite <- app_assoc. reflexivity.
      * exact H4.
    + simpl in Ht. destruct tasks as [|tasks]; [lia|].
      destruct (IH F F tasks (set_queue [] (enqueue (Continue post) w)) Hd Hs
                  eq_refl HF HF ltac:(lia)) as (w1 & w2 & H1 & H2 & H3 & H4).
      exists (enqueue (Continue post) w), w2.
      split; [reflexivity|].
      rewrite (drain_cons _ _ _ F tasks (Continue post))
        by (simpl; rewrite Hq; reflexivity).
      simpl run_task. simpl in H1. simpl. rewrite H1. auto.
Qed.

Lemma break_true_body pre post :
  Forall quiet pre -> Forall calm post ->
  forall f F tasks w,
    queue w = [] -> (1 <= f)%nat -> (1 <= F)%nat ->
    (yields (pre ++ CallBreak true :: post) <= tasks)%nat ->
    body_reaches f F tasks (pre ++ CallBreak true :: post) w Normal
      (repeat Exit (nexts post))
      (effect_with exit post (effect pre (user w))).
Proof.
  intros Hpre Hpost.
  induction Hpre as [|x pre Hx Hpre IH]; intros f F tasks w Hq Hf HF Ht.
  - simpl app. simpl in Ht.
    destruct (after_break_true post Hpost f F tasks
                (set_shouldExit true (set_done true w)) eq_refl eq_refl Hq
                Hf HF Ht) as (w1 & w2 & H1 & H2 & H3 & H4).
    exists w1, w2. simpl. auto.
  - destruct x; simpl in Hx; try contradiction.
    + destruct (IH f F tasks (set_user (f0 (user w)) w) Hq Hf HF
                  ltac:(simpl in Ht; lia)) as (w1 & w2 & H1 & H2 & H3 & H4).
      exists w1, w2. simpl. auto.
    + simpl in Ht. destruct tasks as [|tasks]; [lia|].
      destruct (IH F F tasks
                  (set_queue [] (enqueue (Continue (pre ++ CallBreak true :: post)) w))
                  eq_refl HF HF ltac:(lia)) as (w1 & w2 & H1 & H2 & H3 & H4).
      exists (enqueue (Continue (pre ++ CallBreak true :: post)) w), w2.
      split; [reflexivity|].
      rewrite (drain_cons _ _ _ F tasks (Continue (pre ++ CallBreak true :: post)))
        by (simpl; rewrite Hq; reflexivity).
      simpl run_task. simpl in H1. simpl. rewrite H1. auto.
Qed.

(** A body of state updates and hand-overs only: it returns, and nothing
    goes on. *)
Lemma quiet_body body :
  Forall quiet body ->
  forall f F tasks w,
    queue w = [] -> (yields body <= tasks)%nat ->
    body_reaches f F tasks body w Normal [] (effect body (user w)).
Proof.
  induction 1 as [|x body Hx Hbody IH]; intros f F tasks w Hq Ht.
  - exists w, w. simpl. rewrite app_nil_r. auto using drain_empty.
  - destruct x; simpl in Hx; try contradiction.
    + destruct (IH f F tasks (set_user (f0 (user w)) w) Hq
                  ltac:(simpl in Ht; lia)) as (w1 & w2 & H1 & H2 & H3 & H4).
      exists w1, w2. simpl. auto.
    + simpl in Ht. destruct tasks as [|tasks]; [lia|].
      destruct (IH F F tasks (set_queue [] (enqueue (Continue body) w))
                  eq_refl ltac:(lia)) as (w1 & w2 & H1 & H2 & H3 & H4).
      exists (enqueue (Continue body) w), w2.
      split; [reflexivity|].
      rewrite (drain_cons _ _ _ F tasks (Continue body))
        by (simpl; rewrite Hq; reflexivity).
      simpl run_task. simpl in H1. simpl. rewrite H1. auto.
Qed.

(** An iteration [k] whose body is run by [body_reaches] whatever the
    depth: the same from the timer and from [next]. *)
Lemma terminal_of_body k T g :
  k < iterations ->
  (forall f F tasks w,
     queue w = [] -> (1 <= f)%nat -> (1 <= F)%nat ->
     (yields (process k) <= tasks)%nat ->
     body_reaches f F tasks (process k) w Normal T (g (user w))) ->
  terminal k 2 (1 + yields (process k)) Normal (Process k :: T) g.
Proof.
  intros Hk Hbody f F tasks w Hi Hd Hq Hf HF Ht.
  destruct f as [|f]; [lia|].
  unfold LoopSpec.reaches. simpl Loop.next. rewrite Hd.
  replace (index w <? iterations) with true by (symmetry; apply Z.ltb_lt; lia).
  set (w1 := set_index (index w + 1) w).
  destruct (index w mod 100 =? 0) eqn:Hmod.
  - destruct tasks as [|tasks]; [lia|].
    destruct (Hbody F F tasks
                (log (Process k) (set_queue [] (enqueue TimerProcess w1)))
                eq_refl ltac:(lia) ltac:(lia) ltac:(lia))
      as (w2 & w3 & H1 & H2 & H3 & H4).
    exists (enqueue TimerProcess w1), w3.
    split; [reflexivity|].
    rewrite (drain_cons _ _ _ F tasks TimerProcess) by (simpl; rewrite Hq; reflexivity).
    unfold run_task, call_process. simpl index.
    replace (index w + 1 - 1) with k by lia.
    simpl in H1. simpl. rewrite H1.
    split; [exact H2|]. split.
    + rewrite H3. simpl. rewrite <- app_assoc. reflexivity.
    + exact H4.
  - destruct (Hbody f F tasks (log (Process k) w1)
                Hq ltac:(lia) ltac:(lia) ltac:(lia))
      as (w2 & w3 & H1 & H2 & H3 & H4).
    exists w2, w3. unfold call_process. simpl index.
    replace (index w + 1 - 1) with k by lia.
    rewrite H1.
    split; [reflexivity|]. split; [exact H2|]. split.
    + rewrite H3. simpl. rewrite <- app_assoc. reflexivity.
    + exact H4.
Qed.

(** The last iteration calls [loop.next()] and throws afterwards, inside
    the [try] block. *)
Lemma terminal_next_then_throw k pre mid rest :
  k + 1 = iterations -> k mod 100 <> 0 ->
  process k = pre ++ CallNext :: mid ++ Throw :: rest ->
  Forall pure_update pre -> Forall pure_update mid ->
  terminal k 2 0 Normal [Process k; Exit; Caught; Exit]
    (fun u => exit (effect mid (exit (effect pre u)))).
Proof.
  intros Hk Hmod Hbody Hpre Hmid f F tasks w Hi Hd Hq Hf HF Ht.
  destruct f as [|[|f]]; try lia.
  unfold LoopSpec.reaches. cbn [Loop.next]. rewrite Hd.
  replace (index w <? iterations) with true by (symmetry; apply Z.ltb_lt; lia).
  replace (index w mod 100 =? 0) with false
    by (symmetry; apply Z.eqb_neq; congruence).
  unfold call_process. simpl index.
  replace (index w + 1 - 1) with k by lia.
  rewrite Hbody, run_updates by assumption.
  cbn [Loop.run_body Loop.next]. simpl done. rewrite Hd. simpl index.
  replace (index w + 1 <? iterations) with false
    by (symmetry; apply Z.ltb_ge; lia).
  rewrite run_updates by assumption. cbn [Loop.run_body].
  eexists _, _. split; [reflexivity|]. split.
  - apply drain_empty. simpl. exact Hq.
  - simpl. rewrite <- !app_assoc. simpl. auto.
Qed.

End Facts.
End LoopEndFacts.

Module LoopProperties.
Import Loop LoopSpec LoopFacts LoopEndSpec LoopEndFacts.

Lemma trace_upto {U} (w : world U) k T :
  0 <= k -> trace w = seg_trace 0 (Z.to_nat k) ++ Process k :: T ->
  trace w = processes (S (Z.to_nat k)) ++ T.
Proof.
  intros Hk ->.
  rewrite seg_trace_processes, LoopClaims.processes_S, Z2Nat.id by lia.
  rewrite <- app_assoc. reflexivity.
Qed.

(** X8: [loop.break(true)] does not call [exit] by itself: after it,
    [exit] is entered once for every [loop.next()] the same body still
    calls, so not at all if it calls none and twice if it calls two; no
    further iteration is entered. *)
Theorem syncLoop_break_true_exits_per_next :
  forall (U : Type) (n : Z) (process : Z -> list (action U)) (exit : U -> U)
         (u : U) (k : Z) (pre post : list (action U)),
    0 <= k < n ->
    (forall i, 0 <= i < k -> steady (process i)) ->
    process k = pre ++ CallBreak true :: post ->
    Forall quiet pre -> Forall calm post ->
    exists fuel0, forall fuel, (fuel0 <= fuel)%nat ->
    exists w,
      run n process (Some exit) fuel u = (Normal, w) /\
      trace w = processes (S (Z.to_nat k)) ++ repeat Exit (nexts post).
Proof.
  intros U n process exit u k pre post Hk Hsteady Hbody Hpre Hpost.
  exists (2 + yields (process k) + Z.to_nat k
          + seg_yields process 0 (Z.to_nat k))%nat.
  intros fuel Hfuel.
  assert (Hterm : terminal n process (Some exit) k 2 (1 + yields (process k))
                    Normal (Process k :: repeat Exit (nexts post))
                    (fun u => effect_with exit post (effect pre u))).
  { apply terminal_of_body; [lia|]. rewrite Hbody.
    apply break_true_body; assumption. }
  destruct (run_reaches n process (Some exit) k 2 (1 + yields (process k))
              Normal _ _ ltac:(lia) ltac:(lia) Hterm
              Hsteady fuel u ltac:(lia) ltac:(lia)) as (w & H1 & H2 & _).
  exists w. split; [exact H1|]. apply trace_upto; [lia | exact H2].
Qed.

Lemma syncLoop_break_true_exits_per_next_witness :
  exists fuel0, forall fuel, (fuel0 <= fuel)%nat ->
  exists w,
    run 5 (fun _ => [CallBreak true; CallNext; CallNext])
      (Some (fun u : unit => u)) fuel tt = (Normal, w) /\
    trace w = processes 1 ++ [Exit; Exit].
Proof.
  apply (syncLoop_break_true_exits_per_next unit 5
           (fun _ => [CallBreak true; CallNext; CallNext]) (fun u => u) tt 0
           [] [CallNext; CallNext]); try lia; try reflexivity.
  - constructor.
  - repeat constructor.
Defined.

(** X9: a callback that returns without calling [loop.next()] or
    [loop.break()] and without throwing stalls the loop: no further
    iteration is entered, [exit] is never called, and nothing is left
    pending that could call it. *)
Theorem syncLoop_stalls_without_next :
  forall (U : Type) (n : Z) (process : Z -> list (action U)) (exit : U -> U)
         (u : U) (k : Z),
    0 <= k < n ->
    (forall i, 0 <= i < k -> steady (process i)) ->
    Forall quiet (process k) ->
    exists fuel0, forall fuel, (fuel0 <= fuel)%nat ->
    exists w,
      run n process (Some exit) fuel u = (Normal, w) /\
      trace w = processes (S (Z.to_nat k)) /\
      ~ In Exit (trace w) /\
      queue w = [].
Proof.
  intros U n process exit u k Hk Hsteady Hquiet.
  exists (2 + yields (process k) + Z.to_nat k
          + seg_yields process 0 (Z.to_nat k))%nat.
  intros fuel Hfuel.
  assert (Hterm : terminal n process (Some exit) k 2 (1 + yields (process k))
                    Normal [Process k] (effect (process k))).
  { apply terminal_of_body; [lia|]. intros f F tasks w Hq _ _ Ht.
    apply quiet_body; assumption. }
  destruct (run_reaches n process (Some exit) k 2 (1 + yields (process k))
              Normal _ _ ltac:(lia) ltac:(lia) Hterm
              Hsteady fuel u ltac:(lia) ltac:(lia)) as (w & H1 & H2 & _).
  exists w. split; [exact H1|].
  assert (Ht : trace w = processes (S (Z.to_nat k))).
  { rewrite (trace_upto w k []), app_nil_r; [reflexivity | lia | exact H2]. }
  split; [exact Ht|]. split.
  - rewrite Ht. intros Hin. apply LoopClaims.In_processes in Hin.
    destruct Hin as (j & ? & _). discriminate.
  - apply (run_normal_idle n process exit fuel u w H1).
Qed.

Lemma syncLoop_stalls_without_next_witness :
  exists fuel0, forall fuel, (fuel0 <= fuel)%nat ->
  exists w,
    run 2 (fun i => if i =? 1 then [] else [CallNext])
      (Some (fun u : unit => u)) fuel tt = (Normal, w) /\
    trace w = processes 2 /\ ~ In Exit (trace w) /\ queue w = [].
Proof.
  apply (syncLoop_stalls_without_next unit 2
           (fun i => if i =? 1 then [] else [CallNext]) (fun u => u) tt 1);
    try lia.
  - intros i Hi. replace (i =? 1) with false by (symmetry; apply Z.eqb_neq; lia).
    constructor.
  - constructor.
Defined.

(** X10: [exit] can be entered twice. When the callback of the last
    iteration calls [loop.next()], which reaches the end and calls
    [exit], and throws afterwards, the [catch] block calls [exit] again;
    this needs the call to come from [next] itself, not from the timer. *)
Theorem syncLoop_exit_twice_on_throw_after_next :
  forall (U : Type) (n : Z) (process : Z -> list (action U)) (exit : U -> U)
         (u : U) (pre mid rest : list (action U)),
    1 <= n -> (n - 1) mod 100 <> 0 ->
    (forall i, 0 <= i < n - 1 -> steady (process i)) ->
    process (n - 1) = pre ++ CallNext :: mid ++ Throw :: rest ->
    Forall pure_update pre -> Forall pure_update mid ->
    exists fuel0, forall fuel, (fuel0 <= fuel)%nat ->
    exists w,
      run n process (Some exit) fuel u = (Normal, w) /\
      trace w = processes (Z.to_nat n) ++ [Exit; Caught; Exit].
Proof.
  intros U n process exit u pre mid rest Hn Hmod Hsteady Hbody Hpre Hmid.
  exists (2 + Z.to_nat (n - 1) + seg_yields process 0 (Z.to_nat (n - 1)))%nat.
  intros fuel Hfuel.
  destruct (run_reaches n process (Some exit) (n - 1) 2 0 Normal _ _
              ltac:(lia) ltac:(lia)
              (terminal_next_then_throw n process exit (n - 1) pre mid rest
                 ltac:(lia) Hmod Hbody Hpre Hmid)
              Hsteady fuel u ltac:(lia) ltac:(lia)) as (w & H1 & H2 & _).
  exists w. split; [exact H1|].
  rewrite (trace_upto w (n - 1) [Exit; Caught; Exit]); [|lia|exact H2].
  repeat f_equal. lia.
Qed.

Lemma syncLoop_exit_twice_on_throw_after_next_witness :
  exists fuel0, forall fuel, (fuel0 <= fuel)%nat ->
  exists w,
    run 2 (fun i => if i =? 1 then [CallNext; Throw] else [CallNext])
      (Some (fun u : unit => u)) fuel tt = (Normal, w) /\
    trace w = processes 2 ++ [Exit; Caught; Exit].
Proof.
  apply (syncLoop_exit_twice_on_throw_after_next unit 2
           (fun i => if i =? 1 then [CallNext; Throw] else [CallNext])
           (fun u => u) tt [] [] []); try lia; try reflexivity.
  - discriminate.
  - intros i Hi. replace (i =? 1) with false by (symmetry; apply Z.eqb_neq; lia).
    constructor.
  - constructor.
  - constructor.
Defined.

(** X11: for [n >= 1], [syncLoop] returns before the callback has run
    even once: the first iteration is handed to a timer, whatever the
    callback does, so neither [process] nor [exit] is entered
    synchronously. *)
Theorem syncLoop_first_iteration_is_deferred :
  forall (U : Type) (n : Z) (process : Z -> list (action U))
         (exit : option (U -> U)) (fuel : nat) (u : U),
    1 <= n -> (1 <= fuel)%nat ->
    exists w,
      syncLoop n process exit fuel u = (Normal, w) /\
      trace w = [] /\ queue w = [TimerProcess] /\ user w = u /\ done w = false.
Proof.
  intros U n process exit fuel u Hn Hfuel. unfold syncLoop.
  replace (n <=? 0) with false by (symmetry; apply Z.leb_gt; lia).
  destruct fuel as [|fuel]; [lia|]. simpl.
  replace (0 <? n) with true by (symmetry; apply Z.ltb_lt; lia).
  eexists. split; [reflexivity|]. auto.
Qed.

Lemma syncLoop_first_iteration_is_deferred_witness :
  exists w,
    syncLoop 1 (fun _ => [Throw]) (Some (fun u : unit => u)) 1 tt = (Normal, w) /\
    trace w = [] /\ queue w = [TimerProcess] /\ user w = tt /\ done w = false.
Proof.
  apply (syncLoop_first_iteration_is_deferred unit 1 (fun _ => [Throw])
           (Some (fun u => u)) 1 tt); lia.
Defined.

End LoopProperties.

(** ** syncLoop: the depth of the recursion *)

Module LoopDepthFacts.
Import Loop LoopSpec LoopFacts LoopDepthSpec.
Section Facts.

Context {U : Type}.
Variable iterations : Z.
Variable process : Z -> list (action U).
Variable exit : option (U -> U).

Abbreviation next := (next iterations process exit).
Abbreviation drain := (drain iterations process exit).
Abbreviation reaches := (reaches iterations process exit).
Abbreviation body_reaches := (body_reaches iterations process exit).

Lemma depth_from_bounds i : (1 <= depth_from i <= 100)%nat.
Proof.
  unfold depth_from. destruct (i mod 100 =? 0) eqn:E; [lia|].
  apply Z.eqb_neq in E. pose proof (Z.mod_pos_bound i 100 ltac:(lia)). lia.
Qed.

Lemma depth_from_step i :
  i mod 100 <> 0 -> (S (depth_from (i + 1)) <= depth_from i)%nat.
Proof.
  intros Hi. unfold depth_from.
  replace (i mod 100 =? 0) with false by (symmetry; apply Z.eqb_neq; exact Hi).
  pose proof (Z.mod_pos_bound i 100 ltac:(lia)).
  destruct ((i + 1) mod 100 =? 0) eqn:E; [lia|].
  apply Z.eqb_neq in E.
  assert ((i + 1) mod 100 = i mod 100 + 1).
  { rewrite Z.add_mod by lia. change (1 mod 100) with 1.
    destruct (Z.eq_dec (i mod 100) 99) as [H99|H99].
    - exfalso. apply E. rewrite Z.add_mod by lia. rewrite H99. reflexivity.
    - apply Z.mod_small. lia. }
  lia.
Qed.

(** A steady body whose last [loop.next()] finds the loop at [j]; the
    depth left for the timer tasks is accounted for apart. *)
Lemma steady_body_depth (j : Z) (T' : list event) (g' : U -> U) (c C d : nat) :
  (c <= C)%nat ->
  (forall f F tasks w,
      index w = j -> done w = false -> queue w = [] ->
      (c <= f)%nat -> (C <= F)%nat -> (d <= tasks)%nat ->
      reaches f F tasks w Normal T' (g' (user w))) ->
  forall body, steady body ->
  forall f F tasks w,
    index w = j -> done w = false -> queue w = [] ->
    (c <= f)%nat -> (C <= F)%nat -> (d + yields body <= tasks)%nat ->
    body_reaches f F tasks body w Normal T' (g' (effect body (user w))).
Proof.
  intros HcC Hnext body Hbody.
  induction Hbody as [|u0 k Hk IH|k Hk IH]; intros f F tasks w Hi Hd Hq Hf HF Ht.
  - destruct (Hnext f F tasks w Hi Hd Hq Hf HF ltac:(simpl in Ht; lia))
      as (w1 & w2 & H1 & H2 & H3 & H4).
    exists w1, w2. simpl. rewrite H1. auto.
  - destruct (IH f F tasks (set_user (u0 (user w)) w) Hi Hd Hq Hf HF
                ltac:(simpl in Ht; lia)) as (w1 & w2 & H1 & H2 & H3 & H4).
    exists w1, w2. simpl. auto.
  - simpl in Ht. destruct tasks as [|tasks]; [lia|].
    destruct (IH F F tasks (set_queue [] (enqueue (Continue k) w)) Hi Hd eq_refl
                ltac:(lia) HF ltac:(lia)) as (w1 & w2 & H1 & H2 & H3 & H4).
    exists (enqueue (Continue k) w), w2. simpl Loop.run_body.
    split; [reflexivity|].
    rewrite (drain_cons _ _ _ F tasks (Continue k)) by (simpl; rewrite Hq; reflexivity).
    simpl run_task. simpl in H1. simpl. rewrite H1. auto.
Qed.

Lemma segment_depth (k : nat) :
  forall i, i = iterations - Z.of_nat k -> 0 <= i ->
  (forall j, i <= j < iterations -> steady (process j)) ->
  forall f F tasks w,
    index w = i -> done w = false -> queue w = [] ->
    (depth_from i <= f)%nat -> (100 <= F)%nat ->
    (k + seg_yields process i k <= tasks)%nat ->
    reaches f F tasks w Normal (seg_trace i k ++ exit_trace exit)
      (exit_fun exit (seg_user process i k (user w))).
Proof.
  induction k as [|k IH]; intros i Hi Hi0 Hsteady f F tasks w Hw Hd Hq Hf HF Ht.
  - simpl. pose proof (depth_from_bounds i).
    apply (terminal_end iterations process exit); auto; lia.
  - assert (Hlt : i < iterations) by lia.
    pose proof (depth_from_bounds i) as Hb.
    pose proof (depth_from_bounds (i + 1)) as Hb1.
    destruct f as [|f]; [lia|].
    assert (IH' := IH (i + 1) ltac:(lia) ltac:(lia)
                     (fun j Hj => Hsteady j ltac:(lia))).
    assert (Hbody := steady_body_depth (i + 1)
              (seg_trace (i + 1) k ++ exit_trace exit)
              (fun u => exit_fun exit (seg_user process (i + 1) k u))
              (depth_from (i + 1)) 100%nat
              (k + seg_yields process (i + 1) k)%nat ltac:(lia)).
    specialize (Hbody ltac:(intros; apply IH'; auto)).
    specialize (Hbody (process i) (Hsteady i ltac:(lia))).
    cbn [LoopSpec.seg_trace LoopSpec.seg_user]. cbn [LoopSpec.seg_yields] in Ht.
    unfold LoopSpec.reaches. simpl Loop.next. rewrite Hd.
    replace (index w <? iterations) with true by (symmetry; apply Z.ltb_lt; lia).
    destruct (index w mod 100 =? 0) eqn:Hmod.
    + destruct tasks as [|tasks]; [lia|].
      set (w1 := set_index (index w + 1) w).
      destruct (Hbody F F tasks (log (Process i) (set_queue [] (enqueue TimerProcess w1))))
        as (w2 & w3 & H1 & H2 & H3 & H4);
        try (simpl; auto; lia).
      exists (enqueue TimerProcess w1), w3.
      split; [reflexivity|].
      rewrite (drain_cons _ _ _ F tasks TimerProcess)
        by (simpl; rewrite Hq; reflexivity).
      unfold run_task, call_process.
      simpl index. replace (index w + 1 - 1) with i by lia.
      simpl in H1. simpl. rewrite H1.
      split; [exact H2|]. split; [|exact H4].
      rewrite H3. simpl. rewrite <- app_assoc. reflexivity.
    + set (w1 := set_index (index w + 1) w).
      apply Z.eqb_neq in Hmod. rewrite Hw in Hmod.
      pose proof (depth_from_step i Hmod) as Hstep.
      destruct (Hbody f F tasks (log (Process i) w1))
        as (w2 & w3 & H1 & H2 & H3 & H4);
        try (simpl; auto; lia).
      exists w2, w3.
      unfold call_process. simpl index.
      replace (index w + 1 - 1) with i by lia.
      rewrite H1.
      split; [reflexivity|]. split; [exact H2|]. split; [|exact H4].
      rewrite H3. simpl. rewrite <- app_assoc. reflexivity.
Qed.

End Facts.
End LoopDepthFacts.

Module LoopDepth.
Import Loop LoopSpec LoopFacts LoopDepthSpec LoopDepthFacts.

(** X12: the timer at every 100th index bounds the recursion: with
    callbacks that advance the loop once, 100 nested calls of [next] are
    enough for a loop of any length, which then enters [process] for
    0, ..., n-1 in order and [exit] once. *)
Theorem syncLoop_depth_at_most_100 :
  forall (U : Type) (n : Z) (process : Z -> list (action U)) (exit : U -> U)
         (u : U) (tasks : nat),
    1 <= n ->
    (forall i, 0 <= i < n -> steady (process i)) ->
    (Z.to_nat n + seg_yields process 0 (Z.to_nat n) <= tasks)%nat ->
    exists w1 w2,
      syncLoop n process (Some exit) 100 u = (Normal, w1) /\
      drain n process (Some exit) 100 tasks w1 = (Normal, w2) /\
      trace w2 = processes (Z.to_nat n) ++ [Exit].
Proof.
  intros U n process exit u tasks Hn Hsteady Ht.
  destruct (segment_depth n process (Some exit) (Z.to_nat n) 0 ltac:(lia)
              ltac:(lia) Hsteady 100%nat 100%nat tasks (initial u)
              eq_refl eq_refl eq_refl)
    as (w1 & w2 & H1 & H2 & H3 & _).
  - pose proof (depth_from_bounds 0). lia.
  - lia.
  - exact Ht.
  - exists w1, w2. unfold syncLoop.
    replace (n <=? 0) with false by (symmetry; apply Z.leb_gt; lia).
    split; [exact H1|]. split; [exact H2|].
    rewrite H3, seg_trace_processes. reflexivity.
Qed.

Lemma syncLoop_depth_at_most_100_witness :
  exists w1 w2,
    syncLoop 250 (fun _ => [CallNext]) (Some (fun u : unit => u)) 100 tt
    = (Normal, w1) /\
    drain 250 (fun _ => [CallNext]) (Some (fun u : unit => u)) 100 250 w1
    = (Normal, w2) /\
    trace w2 = processes 250 ++ [Exit].
Proof.
  apply (syncLoop_depth_at_most_100 unit 250 (fun _ => [CallNext])
           (fun u => u) tt 250%nat).
  - lia.
  - intros i _. constructor.
  - vm_compute. lia.
Defined.

End LoopDepth.

(** ** calculate_total *)

Module TotalFacts.
Import Loop LoopSpec LoopFacts Total TotalSpec.

Lemma process_readable l i :
  readable (nth (Z.to_nat i) l (JPrim PUndefined)) ->
  steady (process l i) /\ yields (process l i) = 0%nat /\
  forall u, effect (process l i) u = add_amount u (nth (Z.to_nat i) l (JPrim PUndefined)).
Proof.
  unfold readable, process, add_amount.
  destruct (nth (Z.to_nat i) l (JPrim PUndefined)) as [[| | | |]|fields]; simpl;
    intros H; try (exfalso; apply H; reflexivity);
    (split; [repeat constructor|]; split; reflexivity).
Qed.

Lemma seg_yields_zero {U} (process : Z -> list (action U)) : forall k i,
  (forall j, i <= j < i + Z.of_nat k -> yields (process j) = 0%nat) ->
  seg_yields process i k = 0%nat.
Proof.
  induction k as [|k IH]; intros i H; cbn [seg_yields]; auto.
  rewrite (H i) by lia. rewrite IH; auto. intros j Hj. apply H. lia.
Qed.

Lemma skipn_cons {A} (d : A) : forall i l v rest,
  skipn i l = v :: rest -> nth i l d = v /\ skipn (S i) l = rest.
Proof.
  induction i as [|i IH]; intros [|x l] v rest H; simpl in H; try discriminate.
  - injection H as -> ->. auto.
  - apply IH in H. exact H.
Qed.

Lemma seg_user_prefix l : forall k i u,
  (i + k <= List.length l)%nat ->
  Forall readable (firstn k (skipn i l)) ->
  seg_user (process l) (Z.of_nat i) k u = fold_left add_amount (firstn k (skipn i l)) u.
Proof.
  induction k as [|k IH]; intros i u Hlen Hr; cbn [seg_user]; auto.
  destruct (skipn i l) as [|v rest] eqn:E.
  { apply (f_equal (@List.length jsval)) in E. rewrite length_skipn in E.
    simpl in E. lia. }
  destruct (skipn_cons (JPrim PUndefined) i l v rest E) as (Hnth & Hrest).
  simpl in Hr. inversion Hr as [|? ? Hv Hr']; subst.
  destruct (process_readable l (Z.of_nat i)) as (_ & _ & He).
  { rewrite Nat2Z.id. exact Hv. }
  rewrite He, Nat2Z.id.
  replace (Z.of_nat i + 1) with (Z.of_nat (S i)) by lia.
  rewrite IH; [reflexivity|lia|exact Hr'].
Qed.

End TotalFacts.

Module TotalProperties.
Import Loop LoopSpec LoopFacts Total TotalSpec TotalFacts.

Lemma readable_prefix l k :
  (k <= List.length l)%nat -> Forall readable (firstn k l) ->
  (forall j, 0 <= j < Z.of_nat k -> steady (process l j)) /\
  seg_yields (process l) 0 k = 0%nat.
Proof.
  intros Hk Hr.
  assert (H : forall j, 0 <= j < Z.of_nat k ->
                        readable (nth (Z.to_nat j) l (JPrim PUndefined))).
  { intros j Hj. rewrite Forall_forall in Hr. apply Hr.
    rewrite <- (firstn_skipn k l) at 1. rewrite app_nth1.
    - apply nth_In. rewrite length_firstn. lia.
    - rewrite length_firstn. lia. }
  split.
  - intros j Hj. apply process_readable. auto.
  - apply seg_yields_zero. intros j Hj. apply process_readable. apply H. lia.
Qed.

(** X13: when [vout] is not an array [calculate_total] hands on 0; when
    every element can be read it hands on, once, the Number sum of the
    elements' amounts, added left to right from 0, each amount read as
    [parseFloat(amount || 0)]. *)
Theorem calculate_total_sums :
  calculate_total None = Some Num.pzero /\
  forall l,
    Forall readable l ->
    calculate_total (Some l) = Some (fold_left add_amount l Num.pzero).
Proof.
  split; [reflexivity|]. intros l Hl. unfold calculate_total.
  destruct l as [|v0 l0] eqn:El.
  { reflexivity. }
  rewrite <- El in *. assert (Hpos : (0 < List.length l)%nat) by (subst; simpl; lia).
  clear El.
  destruct (readable_prefix l (List.length l) ltac:(lia)
              ltac:(rewrite firstn_all; exact Hl)) as (Hsteady & Hy).
  set (n := Z.of_nat (List.length l)).
  destruct (run_reaches n (process l) (Some (fun t => t)) n 1 0 Normal
              _ _ ltac:(lia) ltac:(lia)
              (terminal_end n (process l) (Some (fun t => t)))
              ltac:(unfold n; exact Hsteady) (fuel_for l) Num.pzero)
    as (w & H1 & H2 & H3).
  - unfold fuel_for, n. lia.
  - unfold fuel_for, n. rewrite Nat2Z.id, Hy. lia.
  - rewrite H1, (exited_snoc w _ H2), H3. simpl. unfold n.
    rewrite Nat2Z.id.
    pose proof (seg_user_prefix l (List.length l) 0 Num.pzero ltac:(lia)) as Hs.
    cbn [Z.of_nat skipn] in Hs. rewrite firstn_all in Hs.
    rewrite (Hs Hl). reflexivity.
Qed.

(** X14: an element that is [undefined] or [null] makes the callback
    throw. At an index that is not a multiple of 100 the loop catches it
    and [calculate_total] hands on the sum of the elements before it, as
    if the array ended there; at an index that is a multiple of 100, so
    also at the first element, the exception is uncaught and the
    callback is never called. *)
Theorem calculate_total_unreadable_element :
  forall (before after : list jsval) (v : jsval),
    Forall readable before -> ~ readable v ->
    calculate_total (Some (before ++ v :: after)) =
      if Z.of_nat (List.length before) mod 100 =? 0 then None
      else Some (fold_left add_amount before Num.pzero).
Proof.
  intros before after v Hb Hv. unfold calculate_total.
  set (l := before ++ v :: after). set (k := List.length before).
  assert (Hlen : List.length l = (k + S (List.length after))%nat).
  { unfold l, k. rewrite length_app. reflexivity. }
  assert (Hfirst : firstn k l = before).
  { unfold l, k. rewrite firstn_app, Nat.sub_diag, firstn_all. simpl.
    apply app_nil_r. }
  destruct (readable_prefix l k ltac:(lia) ltac:(rewrite Hfirst; exact Hb))
    as (Hsteady & Hy).
  assert (Hthrow : process l (Z.of_nat k) = [] ++ Throw :: []).
  { unfold process. rewrite Nat2Z.id. unfold l, k.
    rewrite app_nth2, Nat.sub_diag by lia. simpl.
    unfold readable in Hv. destruct (amount_of v); [exfalso; apply Hv; discriminate|].
    reflexivity. }
  set (n := Z.of_nat (List.length l)).
  assert (Hkn : Z.of_nat k < n) by (unfold n; lia).
  destruct (Z.of_nat k mod 100 =? 0) eqn:Hmod.
  - apply Z.eqb_eq in Hmod.
    destruct (run_reaches n (process l) (Some (fun t => t)) (Z.of_nat k) 1 1 Thrown
                _ _ ltac:(lia) ltac:(lia)
                (terminal_throw_uncaught n (process l) (Some (fun t => t))
                   (Z.of_nat k) [] [] Hkn Hmod Hthrow ltac:(constructor))
                Hsteady (fuel_for l) Num.pzero)
      as (w & H1 & _).
    + unfold fuel_for. rewrite Nat2Z.id. lia.
    + unfold fuel_for. rewrite Nat2Z.id, Hy. lia.
    + fold n. rewrite H1. reflexivity.
  - apply Z.eqb_neq in Hmod.
    destruct (run_reaches n (process l) (Some (fun t => t)) (Z.of_nat k) 1 0 Normal
                _ _ ltac:(lia) ltac:(lia)
                (terminal_throw_caught n (process l) (Some (fun t => t))
                   (Z.of_nat k) [] [] Hkn Hmod Hthrow ltac:(constructor))
                Hsteady (fuel_for l) Num.pzero)
      as (w & H1 & H2 & H3).
    + unfold fuel_for. rewrite Nat2Z.id. lia.
    + unfold fuel_for. rewrite Nat2Z.id, Hy. lia.
    + fold n. rewrite H1.
      rewrite (exited_snoc w (seg_trace 0 (Z.to_nat (Z.of_nat k)) ++ [Process (Z.of_nat k); Caught])).
      * rewrite H3. simpl. rewrite Nat2Z.id.
        pose proof (seg_user_prefix l k 0 Num.pzero ltac:(lia)) as Hs.
        cbn [Z.of_nat skipn] in Hs. rewrite Hfirst in Hs.
        rewrite (Hs Hb). reflexivity.
      * rewrite H2. simpl. rewrite <- app_assoc. reflexivity.
Qed.

Lemma calculate_total_unreadable_element_witness :
  calculate_total
    (Some ([JObj [("amount", PNum (Num.of_Z 2))]] ++ JPrim PNull :: []))
  = Some (Num.of_Z 2).
Proof.
  apply (calculate_total_unreadable_element
           [JObj [("amount", PNum (Num.of_Z 2))]] [] (JPrim PNull)).
  - repeat constructor. discriminate.
  - intros H. apply H. reflexivity.
Defined.

End TotalProperties.

(** ** rpcCommand and the daemon getters *)

Module DaemonFacts.
Import Supply Daemon DaemonSpec.
Section WithSources.

Variable client_command : string -> list prim -> rpc_reply.
Variable request : string -> http_reply.

Abbreviation rpcCommand := (rpcCommand client_command).
Abbreviation http_get := (http_get request).

Lemma rpcCommand_cases params :
  rpc_message (rpcCommand params) \/
  exists call rest,
    params = Some (call :: rest) /\
    rpc_result (client_command (method call)
                  (match parameters call with Some p => p | None => [] end))
    = Some (rpcCommand params) /\
    truthy_val (rpcCommand params) = true /\
    get_prop (rpcCommand params) "name" <> PStr "RpcError".
Proof.
  unfold rpc_message, Daemon.rpcCommand.
  destruct params as [[|call rest]|]; auto.
  destruct (client_command (method call)
              (match parameters call with Some p => p | None => [] end))
    as [|[[|r0 l]|]] eqn:E; auto.
  destruct (truthy_val r0) eqn:Ht; simpl; auto.
  assert (Hkeep : forall v, get_prop r0 "name" <> PStr "RpcError" -> v = r0 ->
                  exists call0 rest0,
                    Some (call :: rest) = Some (call0 :: rest0) /\
                    rpc_result
                      (client_command (method call0)
                         (match parameters call0 with Some p => p | None => [] end))
                    = Some v /\
                    truthy_val v = true /\
                    get_prop v "name" <> PStr "RpcError").
  { intros v Hn ->. exists call, rest. rewrite E. auto. }
  destruct (get_prop r0 "name") as [| |b|x|name] eqn:En;
    try (right; apply Hkeep; [discriminate | reflexivity]).
  destruct (name =? "RpcError")%string eqn:Ename; auto.
  right. apply Hkeep; [|reflexivity]. intros [= ->]. discriminate.
Qed.

Lemma rpcCommand_truthy params : truthy_val (rpcCommand params) = true.
Proof.
  destruct (rpcCommand_cases params) as [[H|[H|H]]|(c & r & _ & _ & H & _)];
    try rewrite H; auto.
Qed.

Lemma http_get_truthy path failure :
  failure <> "" -> truthy_val (http_get path failure) = true.
Proof.
  intros Hf. unfold Daemon.http_get.
  assert (Hs : truthy_val (JPrim (PStr failure)) = true).
  { simpl. apply negb_true_iff. apply String.eqb_neq. exact Hf. }
  destruct (request path) as [|body]; auto.
  destruct (truthy_val body) eqn:E; auto.
Qed.

Lemma rpcCommand_zero call rest v :
  rpc_result (client_command (method call)
                (match parameters call with Some p => p | None => [] end)) = Some v ->
  truthy_val v = false ->
  rpcCommand (Some (call :: rest)) = JPrim (PStr "Invalid RPC response").
Proof.
  unfold rpc_result, Daemon.rpcCommand.
  destruct (client_command (method call)
              (match parameters call with Some p => p | None => [] end))
    as [|[[|r0 l]|]]; try discriminate.
  intros [= ->] ->. reflexivity.
Qed.

Lemma http_get_zero path failure v :
  request path = HttpBody v -> truthy_val v = false ->
  http_get path failure = JPrim (PStr failure).
Proof. unfold Daemon.http_get. intros -> ->. reflexivity. Qed.

End WithSources.
End DaemonFacts.

Module DaemonProperties.
Import Supply Daemon DaemonSpec DaemonFacts.
Section WithSources.

Variable client_command : string -> list prim -> rpc_reply.
Variable request : string -> http_reply.

Abbreviation rpcCommand := (rpcCommand client_command).

(** X15: [rpcCommand] hands on either one of its three messages or the
    first element of the daemon's response; what it hands on is never
    falsy and never an object named RpcError. Missing or empty [params]
    give 'Invalid parameters' without the daemon being asked; and the
    call with parameters [[]] is the one [get_supply] makes. *)
Theorem rpcCommand_result_or_message :
  (forall params,
     rpc_message (rpcCommand params) \/
     exists call rest,
       params = Some (call :: rest) /\
       rpc_result (client_command (method call)
                     (match parameters call with Some p => p | None => [] end))
       = Some (rpcCommand params) /\
       truthy_val (rpcCommand params) = true /\
       get_prop (rpcCommand params) "name" <> PStr "RpcError") /\
  rpcCommand None = JPrim (PStr "Invalid parameters") /\
  rpcCommand (Some []) = JPrim (PStr "Invalid parameters") /\
  (forall m p,
     rpcCommand (Some [mkCall m p]) =
     Supply.rpcCommand
       (fun m' => client_command m' (match p with Some q => q | None => [] end)) m).
Proof.
  split; [exact (rpcCommand_cases client_command)|].
  split; [reflexivity|]. split; [reflexivity|].
  intros m p. reflexivity.
Qed.

(** X16: whatever the daemon answers, each of the six getters hands on
    a truthy value: failures come in-band, as a message string in the
    place of the result. *)
Theorem getters_never_falsy :
  forall (settings : Settings) (height hash : string),
    truthy_val (get_difficulty client_command request settings) = true /\
    truthy_val (get_connectioncount client_command request settings) = true /\
    truthy_val (get_blockcount client_command request settings) = true /\
    truthy_val (get_blockhash client_command request settings height) = true /\
    truthy_val (get_block client_command request settings hash) = true /\
    truthy_val (get_rawtransaction client_command request settings hash) = true.
Proof.
  intros settings height hash.
  unfold get_difficulty, get_connectioncount, get_blockcount, get_blockhash,
    get_block, get_rawtransaction.
  destruct (use_rpc settings);
    repeat split;
    try apply rpcCommand_truthy; apply http_get_truthy; discriminate.
Qed.

(** X17: a count of zero cannot be told from a failure: when the daemon
    answers 0 to getconnectioncount, getblockcount or getdifficulty, the
    getter hands on 'Invalid RPC response' over RPC and its own error
    message over HTTP. *)
Theorem zero_answer_is_reported_as_error :
  forall (settings : Settings) (v : jsval),
    zero_answer v ->
    (use_rpc settings = true ->
     (rpc_result (client_command "getconnectioncount" []) = Some v ->
      get_connectioncount client_command request settings
      = JPrim (PStr "Invalid RPC response")) /\
     (rpc_result (client_command "getblockcount" []) = Some v ->
      get_blockcount client_command request settings
      = JPrim (PStr "Invalid RPC response")) /\
     (rpc_result (client_command "getdifficulty" []) = Some v ->
      get_difficulty client_command request settings
      = JPrim (PStr "Invalid RPC response"))) /\
    (use_rpc settings = false ->
     (request "getconnectioncount" = HttpBody v ->
      get_connectioncount client_command request settings
      = JPrim (PStr "Error getting connection count")) /\
     (request "getblockcount" = HttpBody v ->
      get_blockcount client_command request settings
      = JPrim (PStr "Error getting block count")) /\
     (request "getdifficulty" = HttpBody v ->
      get_difficulty client_command request settings
      = JPrim (PStr "Error getting difficulty"))).
Proof.
  intros settings v (s & ->).
  unfold get_difficulty, get_connectioncount, get_blockcount.
  split; intros ->.
  - repeat split; intros H;
      (eapply (rpcCommand_zero client_command (mkCall _ (Some [])));
       [exact H | reflexivity]).
  - repeat split; intros H;
      apply (http_get_zero request _ _ _ H); reflexivity.
Qed.

End WithSources.

Lemma zero_answer_is_reported_as_error_witness :
  get_connectioncount
    (fun _ _ => RpcResponse (Some [JPrim (PNum Num.pzero)]))
    (fun _ => HttpError) (mkSettings None true)
  = JPrim (PStr "Invalid RPC response").
Proof.
  apply (zero_answer_is_reported_as_error
           (fun _ _ => RpcResponse (Some [JPrim (PNum Num.pzero)]))
           (fun _ => HttpError) (mkSettings None true) (JPrim (PNum Num.pzero)));
    [exists false; reflexivity | reflexivity | reflexivity].
Defined.

End DaemonProperties.

(** ** get_supply: sources and answers *)

Module SupplySources.
Import Supply SupplySourceSpec.

(** X18: [get_supply] consults one source only. For HEAVY, GETINFO and
    TXOUTSET the balance store is not read, and of the daemon's two
    interfaces only the one selected by [use_rpc] is asked; for every
    other setting (none, BALANCES, COINBASE, an unknown name) the daemon
    is not asked at all and [use_rpc] makes no difference. *)
Theorem get_supply_single_source :
  forall (client_command client_command' : string -> rpc_reply)
         (request request' : string -> http_reply)
         (Address_findOne Address_findOne' : find_one_reply)
         (Address_find Address_find' : find_reply)
         (settings : Settings),
    (daemon_strategy (supply settings) ->
     get_supply client_command request Address_findOne Address_find settings =
     get_supply client_command request Address_findOne' Address_find' settings /\
     (use_rpc settings = true ->
      get_supply client_command request Address_findOne Address_find settings =
      get_supply client_command request' Address_findOne Address_find settings) /\
     (use_rpc settings = false ->
      get_supply client_command request Address_findOne Address_find settings =
      get_supply client_command' request Address_findOne Address_find settings)) /\
    (~ daemon_strategy (supply settings) ->
     forall b,
       get_supply client_command request Address_findOne Address_find settings =
       get_supply client_command' request' Address_findOne Address_find
         (mkSettings (supply settings) b)).
Proof.
  intros c c' r r' fo fo' f f' [sup rpc]. unfold daemon_strategy, get_supply.
  simpl supply. simpl use_rpc. split.
  - intros [ -> | [ -> | -> ] ]; simpl; destruct rpc;
      repeat split; intros; try reflexivity; discriminate.
  - intros Hn b. destruct sup as [strategy|]; [|reflexivity].
    destruct (strategy =? "")%string; [reflexivity|].
    destruct (strategy =? "HEAVY")%string eqn:E1.
    { apply String.eqb_eq in E1. subst. exfalso. apply Hn. auto. }
    destruct (strategy =? "GETINFO")%string eqn:E2.
    { apply String.eqb_eq in E2. subst. exfalso. apply Hn. auto. }
    destruct (strategy =? "TXOUTSET")%string eqn:E3.
    { apply String.eqb_eq in E3. subst. exfalso. apply Hn. auto. }
    destruct rpc, b; reflexivity.
Qed.

End SupplySources.

Module SupplyAnswers.
Import Num Supply SupplyAnswerSpec.
Section WithSources.

Variable client_command : string -> rpc_reply.
Variable request : string -> http_reply.
Variable Address_findOne : find_one_reply.
Variable Address_find : find_reply.

Abbreviation get_supply :=
  (get_supply client_command request Address_findOne Address_find).
Abbreviation daemon_answer := (daemon_answer client_command request).

Lemma handleSupply_of_number x :
  truthy (PNum x) = true -> handleSupply (JPrim (PNum x)) = x.
Proof. destruct x; simpl; try discriminate; reflexivity. Qed.

(** X24: when the daemon answers with a Number that is neither 0 nor
    NaN, [get_supply] hands on that Number, over RPC and over HTTP
    alike: the answer itself for HEAVY, its field [moneysupply] for
    GETINFO, its field [total_amount] for TXOUTSET. *)
Theorem get_supply_hands_on_daemon_number :
  forall (settings : Settings) (x : number),
    truthy (PNum x) = true ->
    (supply settings = Some "HEAVY" ->
     daemon_answer settings "getsupply" = Some (JPrim (PNum x)) ->
     get_supply settings = x) /\
    (forall v, supply settings = Some "GETINFO" ->
     daemon_answer settings "getinfo" = Some v -> reports "moneysupply" x v ->
     get_supply settings = x) /\
    (forall v, supply settings = Some "TXOUTSET" ->
     daemon_answer settings "gettxoutsetinfo" = Some v ->
     reports "total_amount" x v ->
     get_supply settings = x).
Proof.
  intros [sup rpc] x Hx. unfold SupplyAnswerSpec.daemon_answer, Supply.get_supply.
  simpl supply. simpl use_rpc.
  assert (Hrpc : forall m v, DaemonSpec.rpc_result (client_command m) = Some v ->
                   truthy_val v = true ->
                   get_prop v "name" <> PStr "RpcError" ->
                   rpcCommand client_command m = v).
  { intros m v Hm Hv Hn. unfold rpcCommand, DaemonSpec.rpc_result in *.
    destruct (client_command m) as [|[[|r0 l]|]]; try discriminate.
    injection Hm as ->. rewrite Hv. simpl.
    destruct (get_prop v "name") as [| |b|y|name]; try reflexivity.
    destruct (name =? "RpcError")%string eqn:E; [|reflexivity].
    apply String.eqb_eq in E. subst. exfalso. apply Hn. reflexivity. }
  assert (Hhttp : forall m v k,
                   match request m with HttpBody body => Some body | HttpError => None end
                   = Some v ->
                   http_value (request m) k =
                   match k with Some k' => and_prop v k' | None => v end).
  { intros m v k Hm. destruct (request m); [discriminate|].
    injection Hm as ->. reflexivity. }
  split; [|split].
  - intros -> Ha. simpl. destruct rpc.
    + rewrite (Hrpc "getsupply" _ Ha Hx) by discriminate.
      apply handleSupply_of_number, Hx.
    + rewrite (Hhttp "getsupply" _ None Ha). apply handleSupply_of_number, Hx.
  - intros v -> Ha (fields & -> & Hk & Hn). simpl. destruct rpc.
    + rewrite (Hrpc "getinfo" _ Ha eq_refl Hn). unfold and_prop. simpl.
      rewrite Hk. apply handleSupply_of_number, Hx.
    + rewrite (Hhttp "getinfo" _ (Some "moneysupply") Ha). unfold and_prop. simpl.
      rewrite Hk. apply handleSupply_of_number, Hx.
  - intros v -> Ha (fields & -> & Hk & Hn). simpl. destruct rpc.
    + rewrite (Hrpc "gettxoutsetinfo" _ Ha eq_refl Hn). unfold and_prop. simpl.
      rewrite Hk. apply handleSupply_of_number, Hx.
    + rewrite (Hhttp "gettxoutsetinfo" _ (Some "total_amount") Ha).
      unfold and_prop. simpl. rewrite Hk. apply handleSupply_of_number, Hx.
Qed.

End WithSources.

Lemma get_supply_hands_on_daemon_number_witness :
  Supply.get_supply
    (fun _ => RpcResponse (Some [JPrim (PNum (of_Z 21000000))]))
    (fun _ => HttpError) FindNone (FindDocs [])
    (mkSettings (Some "HEAVY") true)
  = of_Z 21000000.
Proof.
  apply (get_supply_hands_on_daemon_number
           (fun _ => RpcResponse (Some [JPrim (PNum (of_Z 21000000))]))
           (fun _ => HttpError) FindNone (FindDocs [])
           (mkSettings (Some "HEAVY") true) (of_Z 21000000));
    reflexivity.
Defined.

End SupplyAnswers.

(** ** convert_to_satoshi: NaN and integers *)

Module ConvertProperties.
Import Num Digits Builtins ConvertSpec IntegerSpec DigitFacts.

Lemma round_Q_not_nan neg p q : isNaN (round_Q neg p q) = false.
Proof.
  unfold round_Q, finite.
  destruct (p =? 0); [reflexivity|]. cbv zeta.
  destruct (_ =? 0); [reflexivity|].
  destruct (_ =? 2 ^ 53); destruct (971 <? _); reflexivity.
Qed.

Lemma remove_first_dot_digit d rest :
  isdigit d ->
  remove_first_dot (String (digit_char d) rest) =
  String (digit_char d) (remove_first_dot rest).
Proof. intros Hd. simpl. rewrite digit_char_not_dot by exact Hd. reflexivity. Qed.

(** A string that starts with a digit reads as an integer, with and
    without a sign before it. *)
Lemma parseInt10_leading_digit d rest :
  isdigit d ->
  exists k, 0 <= k /\
    parseInt10 (String (digit_char d) rest) = round_Q false k 1 /\
    parseInt10 (String "-" (String (digit_char d) rest)) = round_Q true k 1.
Proof.
  intros Hd.
  pose proof (ConvertClaims.span_digits_isdigit (String (digit_char d) rest)) as Hall.
  assert (Hspan : exists ds rest',
             span_digits (String (digit_char d) rest) = (d :: ds, rest')).
  { simpl. rewrite digit_of_char by exact Hd.
    destruct (span_digits rest) as [ds rest']. eauto. }
  destruct Hspan as (ds & rest' & Hspan). rewrite Hspan in Hall. simpl in Hall.
  exists (value_of (d :: ds)). split; [apply ConvertClaims.value_of_nonneg; exact Hall|].
  unfold parseInt10. split.
  - cbn [trim_start]. rewrite digit_char_not_ws by exact Hd.
    rewrite read_sign_digit by exact Hd. rewrite Hspan. reflexivity.
  - cbn [trim_start]. change (is_ws "-") with false. cbv iota.
    change (read_sign (String "-" (String (digit_char d) rest)))
      with (true, String (digit_char d) rest).
    cbv iota beta. rewrite Hspan. reflexivity.
Qed.

Lemma Forall_drop_zeros ds : Forall isdigit ds -> Forall isdigit (drop_zeros ds).
Proof.
  induction 1 as [|d ds Hd Hds IH]; simpl; [constructor|].
  destruct d; try (constructor; assumption). exact IH.
Qed.

Lemma Forall_strip ds :
  Forall isdigit ds -> Forall isdigit (strip_trailing_zeros ds).
Proof.
  intros H. unfold strip_trailing_zeros.
  apply Forall_rev, Forall_drop_zeros, Forall_rev. exact H.
Qed.

Lemma shortest_from_nonneg fuel : forall k nd X x,
  0 <= X -> 0 <= shortest_from fuel k nd X x.
Proof.
  induction fuel as [|fuel IH]; intros k nd X x HX; simpl; [exact HX|].
  assert (HP : 0 <= 10 ^ (nd - k)) by (apply Z.pow_nonneg; lia).
  assert (Hlo : 0 <= X / 10 ^ (nd - k) * 10 ^ (nd - k)).
  { apply Z.mul_nonneg_nonneg; [|exact HP].
    destruct (Z.eq_dec (10 ^ (nd - k)) 0) as [->|Hne].
    - rewrite Z.div_0_r. lia.
    - apply Z.div_pos; lia. }
  repeat match goal with |- context [if ?c then _ else _] => destruct c end;
    auto; lia.
Qed.

Lemma to_string_large_leading_digit X :
  0 <= X -> exists d rest, isdigit d /\ to_string_large X = String (digit_char d) rest.
Proof.
  intros HX. unfold to_string_large. cbv zeta.
  set (c := shortest_from 17 1 _ X (of_Z X)).
  assert (Hc : 0 <= c) by (apply shortest_from_nonneg; exact HX).
  destruct (digits_of_spec c Hc) as (Hds & _ & _).
  apply Forall_strip in Hds.
  destruct (strip_trailing_zeros (digits_of c)) as [|d [|d' r]].
  - exists 0, "". split; [unfold isdigit; lia | reflexivity].
  - inversion Hds; subst. eexists d, _. split; [assumption | reflexivity].
  - inversion Hds; subst. eexists d, _. split; [assumption | reflexivity].
Qed.

Lemma fixed_string_leading_digit n :
  0 <= n -> exists d rest, isdigit d /\ fixed_string n = String (digit_char d) rest.
Proof.
  intros Hn. unfold fixed_string. cbv zeta.
  destruct (digits_of_spec n Hn) as (Hds & _ & Hne).
  set (m := if (List.length (digits_of n) <=? 8)%nat
            then repeat 0 (9 - List.length (digits_of n)) ++ digits_of n
            else digits_of n).
  assert (Hm : Forall isdigit m /\ (9 <= List.length m)%nat).
  { unfold m. destruct (List.length (digits_of n) <=? 8)%nat eqn:E.
    - apply Nat.leb_le in E. split.
      + apply Forall_app. split; [|exact Hds].
        apply Forall_forall. intros x Hx. apply repeat_spec in Hx. subst.
        unfold isdigit. lia.
      + rewrite length_app, repeat_length. lia.
    - apply Nat.leb_gt in E. split; [exact Hds | lia]. }
  destruct Hm as (Hm1 & Hm2).
  destruct m as [|d m']; [simpl in Hm2; lia|].
  replace (List.length (d :: m') - 8)%nat with (S (List.length m' - 8))
    by (simpl in *; lia).
  inversion Hm1; subst. simpl. eexists d, _. split; [assumption | reflexivity].
Qed.

(** X19: [convert_to_satoshi] hands on NaN exactly when the amount
    parses to an infinity ("Infinity", "1e999", the Number Infinity);
    every other result is a Number rounded from an integer, so never a
    fraction. *)
Theorem convert_to_satoshi_nan_only_for_infinity :
  forall amount : prim,
    (isNaN (convert_to_satoshi amount) = true <->
     exists s, parseFloat amount = S754_infinity s) /\
    (isNaN (convert_to_satoshi amount) = false ->
     from_integer (convert_to_satoshi amount)).
Proof.
  intros amount. unfold convert_to_satoshi, from_integer.
  destruct (parseFloat amount) as [s|s| |s m e] eqn:Hp; cbn [isNaN].
  - (* zero *)
    cbn [toFixed8]. rewrite (proj1 (parseInt10_fixed 0 ltac:(lia))). split.
    + split; [discriminate | intros (s' & H); discriminate].
    + intros _. exists false, 0. split; [lia | reflexivity].
  - (* infinity *)
    assert (Hnan : parseInt10 (remove_first_dot (toFixed8 (S754_infinity s))) = NaN)
      by (destruct s; reflexivity).
    rewrite Hnan. split.
    + split; [intros _; exists s; reflexivity | reflexivity].
    + discriminate.
  - (* NaN *)
    split.
    + split; [discriminate | intros (s' & H); discriminate].
    + intros _. exists false, 0. split; [lia | reflexivity].
  - (* finite *)
    assert (Hbody : exists d rest, isdigit d /\
              (if 10 ^ 21 * 2 ^ Z.max (- e) 0 <=? Z.pos m * 2 ^ Z.max e 0
               then to_string_large (Z.pos m * 2 ^ Z.max e 0 / 2 ^ Z.max (- e) 0)
               else fixed_string ((2 * (Z.pos m * 2 ^ Z.max e 0) * 10 ^ 8
                                   + 2 ^ Z.max (- e) 0) / (2 * 2 ^ Z.max (- e) 0)))
              = String (digit_char d) rest).
    { assert (Hnum : 0 <= Z.pos m * 2 ^ Z.max e 0)
        by (apply Z.mul_nonneg_nonneg; [lia | apply Z.pow_nonneg; lia]).
      assert (Hden : 0 < 2 ^ Z.max (- e) 0) by (apply Z.pow_pos_nonneg; lia).
      destruct (_ <=? _).
      - apply to_string_large_leading_digit. apply Z.div_pos; lia.
      - apply fixed_string_leading_digit. apply Z.div_pos; lia. }
    destruct Hbody as (d & rest & Hd & Hbody).
    cbn [toFixed8]. cbv zeta. rewrite Hbody.
    destruct (parseInt10_leading_digit d (remove_first_dot rest) Hd)
      as (k & Hk & H1 & H2).
    assert (Hres : parseInt10
                     (remove_first_dot
                        (if s then String "-" (String (digit_char d) rest)
                         else String (digit_char d) rest)) = round_Q s k 1).
    { destruct s.
      - change (remove_first_dot (String "-" (String (digit_char d) rest)))
          with (String "-" (remove_first_dot (String (digit_char d) rest))).
        rewrite remove_first_dot_digit by exact Hd. exact H2.
      - rewrite remove_first_dot_digit by exact Hd. exact H1. }
    rewrite Hres, round_Q_not_nan. split.
    + split; [discriminate | intros (s' & H); discriminate].
    + intros _. exists s, k. auto.
Qed.

End ConvertProperties.

Module WrapperProperties.
Import Num Builtins.

Lemma convert_to_satoshi_of_parsed v :
  convert_to_satoshi (PNum (parseFloat v)) = convert_to_satoshi v.
Proof.
  unfold convert_to_satoshi.
  destruct (parseFloat v) as [s|s| |s m e] eqn:E; reflexivity.
Qed.

(** X23: the wrapper both resolvers put around the amount,
    [convert_to_satoshi(parseFloat(v || 0), ...)], changes nothing: it
    gives what [convert_to_satoshi(v, ...)] gives, for every primitive
    [v]; in particular a missing, falsy or non-numeric amount counts as
    0. *)
Theorem to_satoshi_is_convert_to_satoshi :
  forall v : prim,
    to_satoshi v = convert_to_satoshi v /\
    (truthy v = false \/ isNaN (parseFloat v) = true -> to_satoshi v = pzero).
Proof.
  intros v.
  assert (H : to_satoshi v = convert_to_satoshi v).
  { unfold to_satoshi, js_or. destruct (truthy v) eqn:Ht.
    - apply convert_to_satoshi_of_parsed.
    - rewrite convert_to_satoshi_of_parsed.
      destruct v as [| |b|x|s]; simpl in Ht; try reflexivity.
      + destruct x; try discriminate; reflexivity.
      + apply negb_false_iff, String.eqb_eq in Ht. subst. reflexivity. }
  split; [exact H|]. rewrite H. intros [Ht|Hn].
  - destruct v as [| |b|x|s]; simpl in Ht; try reflexivity.
    + destruct x; try discriminate; reflexivity.
    + apply negb_false_iff, String.eqb_eq in Ht. subst. reflexivity.
  - unfold convert_to_satoshi. rewrite Hn. reflexivity.
Qed.

End WrapperProperties.

(** ** The limit of /top-holder *)

Module ApiFacts.
Import Num Digits Builtins Api ApiSpec.

Lemma same_eq x y : same x y = true -> x = y.
Proof.
  destruct x as [a|a| |a m e], y as [b|b| |b m' e']; simpl; try discriminate;
    try (intros H; apply eqb_prop in H; congruence); auto.
  intros H. apply andb_true_iff in H. destruct H as [H He].
  apply andb_true_iff in H. destruct H as [Hs Hm].
  apply eqb_prop in Hs. apply Pos.eqb_eq in Hm. apply Z.eqb_eq in He. congruence.
Qed.

Lemma hex_digit_nonneg c d : hex_digit_of c = Some d -> 0 <= d.
Proof.
  unfold hex_digit_of.
  repeat match goal with
         | |- context [if ?c then _ else _] => destruct c eqn:?
         end; try discriminate; intros [= <-];
    repeat match goal with
           | H : (_ && _) = true |- _ => apply andb_true_iff in H; destruct H
           | H : (_ <=? _) = true |- _ => apply Z.leb_le in H
           end; lia.
Qed.

Lemma span_hex_nonneg s : Forall (fun d => 0 <= d) (span_hex s).
Proof.
  induction s as [|c s IH]; simpl; [constructor|].
  destruct (hex_digit_of c) as [d|] eqn:E; constructor; auto.
  eapply hex_digit_nonneg; eassumption.
Qed.

Lemma hex_value_nonneg ds : Forall (fun d => 0 <= d) ds -> 0 <= hex_value ds.
Proof.
  unfold hex_value. intros Hds.
  assert (H : forall a, 0 <= a -> 0 <= fold_left (fun a d => 16 * a + d) ds a).
  { induction Hds as [|d ds Hd Hds IH]; intros a Ha; cbn [fold_left]; [exact Ha|].
    apply IH. lia. }
  apply H. lia.
Qed.

Lemma int_literal_nonneg s neg v : int_literal s = Some (neg, v) -> 0 <= v.
Proof.
  unfold int_literal. destruct (read_sign (trim_start s)) as [ng s1].
  destruct (match s1 with
            | String "0" (String x r) =>
                if Ascii.eqb x "x" || Ascii.eqb x "X" then Some r else None
            | _ => None
            end) as [r|].
  - pose proof (span_hex_nonneg r) as H.
    destruct (span_hex r) as [|d ds]; [discriminate|].
    intros [= _ <-]. apply hex_value_nonneg. exact H.
  - pose proof (ConvertClaims.span_digits_isdigit s1) as H.
    destruct (span_digits s1) as [[|d ds] rest]; [discriminate|].
    intros [= _ <-]. apply ConvertClaims.value_of_nonneg. exact H.
Qed.

(** The requests below 1024, by evaluation. *)
Lemma clamp_limit_small_all :
  forallb (fun k => same (clamp_limit (round_Q false (Z.of_nat k) 1))
                      (of_Z (clamp (Some (Z.of_nat k)))))
          (seq 0 1024) = true.
Proof. vm_compute. reflexivity. Qed.

Lemma clamp_limit_small v :
  0 <= v < 1024 ->
  clamp_limit (round_Q false v 1) = of_Z (clamp (Some v)).
Proof.
  intros Hv. pose proof clamp_limit_small_all as H.
  rewrite forallb_forall in H. specialize (H (Z.to_nat v)).
  rewrite Z2Nat.id in H by lia. apply same_eq, H. apply in_seq. lia.
Qed.

Lemma binade_integer v : 0 < v -> binade v 1 = Z.log2 v.
Proof.
  intros Hv. unfold binade. change (Z.log2 1) with 0. rewrite Z.sub_0_r. cbv zeta.
  pose proof (Z.log2_nonneg v) as Hl.
  rewrite Z.max_l by lia. rewrite Z.max_r by lia.
  change (2 ^ 0) with 1.
  destruct (Z.log2_spec v Hv) as [H1 _].
  replace (1 * 2 ^ Z.log2 v <=? v * 1) with true; [reflexivity|].
  symmetry. apply Z.leb_le. lia.
Qed.

(** A Number rounded from an integer from 1024 on has an exponent above
    that of 1000. *)
Lemma round_Q_from_1024 v :
  1024 <= v ->
  round_Q false v 1 = S754_infinity false \/
  exists m e, round_Q false v 1 = S754_finite false m e /\ -42 <= e.
Proof.
  intros Hv. unfold round_Q.
  replace (v =? 0) with false by (symmetry; apply Z.eqb_neq; lia).
  rewrite binade_integer by lia. cbv zeta.
  assert (Hlog : 10 <= Z.log2 v).
  { change 10 with (Z.log2 1024). apply Z.log2_le_mono. exact Hv. }
  set (e := Z.max (Z.log2 v - 52) (-1074)).
  assert (He : -42 <= e) by (unfold e; lia).
  set (num := v * 2 ^ Z.max (- e) 0). set (den := 1 * 2 ^ Z.max e 0).
  assert (Hden : 0 < den) by (unfold den; apply Z.mul_pos_pos; [lia|apply Z.pow_pos_nonneg; lia]).
  assert (Hge : den <= num).
  { unfold num, den. destruct (Z.le_ge_cases e 0) as [He0|He0].
    - rewrite (Z.max_r e 0), (Z.max_l (- e) 0) by lia. change (2 ^ 0) with 1.
      assert (0 < 2 ^ (- e)) by (apply Z.pow_pos_nonneg; lia). nia.
    - rewrite (Z.max_l e 0), (Z.max_r (- e) 0) by lia. change (2 ^ 0) with 1.
      destruct (Z.log2_spec v ltac:(lia)) as [H1 _].
      assert (2 ^ e <= 2 ^ Z.log2 v) by (apply Z.pow_le_mono_r; unfold e; lia).
      lia. }
  destruct (RoundFacts.div_nearest_even_spec num den Hden) as [_ Hm].
  assert (Hq : 1 <= num / den) by (apply Z.div_le_lower_bound; lia).
  set (m := div_nearest_even num den) in *.
  replace (m =? 0) with false by (symmetry; apply Z.eqb_neq; lia).
  unfold finite.
  destruct (m =? 2 ^ 53).
  - destruct (971 <? e + 1); [auto|]. right. eexists _, _. split; [reflexivity|lia].
  - destruct (971 <? e); [auto|]. right. eexists _, _. split; [reflexivity|lia].
Qed.

Lemma clamp_limit_large v :
  1024 <= v -> clamp_limit (round_Q false v 1) = of_Z 1000.
Proof.
  intros Hv. unfold clamp_limit.
  destruct (round_Q_from_1024 v Hv) as [->|(m & e & -> & He)]; [reflexivity|].
  cbn [truthy]. unfold Math_min. cbn [isNaN orb].
  change (of_Z 1000) with (S754_finite false 8796093022208000 (-43)).
  unfold SFltb, SFcompare.
  assert (Hc : (e ?= -43) = Gt) by (apply Z.compare_gt_iff; lia).
  assert (Hc' : (-43 ?= e) = Lt) by (apply Z.compare_lt_iff; lia).
  rewrite Hc, Hc'. reflexivity.
Qed.

(** A negative request. *)
Lemma clamp_limit_negative v :
  0 < v -> clamp_limit (round_Q true v 1) = of_Z 1.
Proof.
  intros Hv. unfold clamp_limit.
  assert (H : round_Q true v 1 = S754_infinity true \/
              exists m e, round_Q true v 1 = S754_finite true m e).
  { unfold round_Q. replace (v =? 0) with false by (symmetry; apply Z.eqb_neq; lia).
    rewrite binade_integer by lia. cbv zeta.
    set (e := Z.max (Z.log2 v - 52) (-1074)).
    set (num := v * 2 ^ Z.max (- e) 0). set (den := 1 * 2 ^ Z.max e 0).
    assert (Hden : 0 < den)
      by (unfold den; apply Z.mul_pos_pos; [lia|apply Z.pow_pos_nonneg; lia]).
    assert (Hge : den <= num).
    { unfold num, den. destruct (Z.le_ge_cases e 0) as [He0|He0].
      - rewrite (Z.max_r e 0), (Z.max_l (- e) 0) by lia. change (2 ^ 0) with 1.
        assert (0 < 2 ^ (- e)) by (apply Z.pow_pos_nonneg; lia). nia.
      - rewrite (Z.max_l e 0), (Z.max_r (- e) 0) by lia. change (2 ^ 0) with 1.
        destruct (Z.log2_spec v ltac:(lia)) as [H1 _].
        assert (2 ^ e <= 2 ^ Z.log2 v) by (apply Z.pow_le_mono_r; unfold e; lia).
        lia. }
    destruct (RoundFacts.div_nearest_even_spec num den Hden) as [_ Hm].
    assert (Hq : 1 <= num / den) by (apply Z.div_le_lower_bound; lia).
    set (m := div_nearest_even num den) in *.
    replace (m =? 0) with false by (symmetry; apply Z.eqb_neq; lia).
    unfold finite.
    destruct (m =? 2 ^ 53).
    - destruct (971 <? e + 1); [auto|]. right. eexists _, _. reflexivity.
    - destruct (971 <? e); [auto|]. right. eexists _, _. reflexivity. }
  destruct H as [->|(m & e & ->)]; reflexivity.
Qed.

End ApiFacts.

Module ApiProperties.
Import Num Api ApiSpec ApiFacts.

(** X20: the [limit] of /top-holder is always an integer from 1 to
    1000: the integer the query reads as (decimal, or hexadecimal after
    0x), raised to 1 or lowered to 1000 where it lies outside, and 100
    when the parameter is missing, has no leading integer, or reads as
    0. *)
Theorem top_holder_limit_clamped :
  forall query_limit : option string,
    limit query_limit = of_Z (clamp (requested query_limit)) /\
    1 <= clamp (requested query_limit) <= 1000.
Proof.
  intros q. split.
  - unfold limit, requested, parseInt.
    destruct q as [s|]; [|reflexivity].
    destruct (int_literal s) as [[neg v]|] eqn:E; [|reflexivity].
    pose proof (int_literal_nonneg s neg v E) as Hv.
    destruct (Z.eq_dec v 0) as [->|Hnz].
    { destruct neg; reflexivity. }
    destruct neg.
    + rewrite clamp_limit_negative by lia. simpl cond_Zopp.
      unfold clamp. destruct (- v) eqn:Ev; try lia. reflexivity.
    + simpl cond_Zopp. destruct (Z.lt_ge_cases v 1024) as [Hs|Hl].
      * apply clamp_limit_small. lia.
      * rewrite clamp_limit_large by lia. unfold clamp.
        destruct v; try lia. f_equal. lia.
  - unfold clamp. destruct (requested q) as [[|p|p]|]; lia.
Qed.

End ApiProperties.

(** ** IEEE arithmetic, get_hashrate and balance_supply *)

Module FloatFacts.
Import Num Hashrate FloatSpec.

Lemma shr_1_nonneg mrs : 0 <= shr_m mrs -> 0 <= shr_m (shr_1 mrs).
Proof.
  destruct mrs as [m r s]. simpl. destruct m as [|p|p]; [simpl; lia| |lia].
  intros _. destruct p; simpl; lia.
Qed.

Lemma iter_pos_nonneg p : forall mrs,
  0 <= shr_m mrs -> 0 <= shr_m (iter_pos shr_1 p mrs).
Proof.
  induction p as [p IH|p IH|]; intros mrs H; simpl.
  - apply IH, IH, shr_1_nonneg, H.
  - apply IH, IH, H.
  - apply shr_1_nonneg, H.
Qed.

Lemma shr_fexp_nonneg prec emax m e l :
  0 <= m -> 0 <= shr_m (fst (shr_fexp prec emax m e l)).
Proof.
  intros Hm. unfold shr_fexp, shr.
  assert (H0 : 0 <= shr_m (shr_record_of_loc m l)).
  { destruct l as [|[| |]]; simpl; exact Hm. }
  destruct (fexp prec emax (Zdigits2 m + e) - e); simpl; auto.
  apply iter_pos_nonneg. exact H0.
Qed.

Lemma round_nearest_even_nonneg m l : 0 <= m -> 0 <= round_nearest_even m l.
Proof.
  intros Hm. unfold round_nearest_even.
  destruct l as [|[| |]]; try lia. destruct (IntDef.Z.even m); lia.
Qed.

Lemma binary_round_aux_signed prec emax sx mx ex lx :
  0 <= mx -> signed sx (binary_round_aux prec emax sx mx ex lx).
Proof.
  intros Hm. unfold binary_round_aux.
  pose proof (shr_fexp_nonneg prec emax mx ex lx Hm) as H1.
  destruct (shr_fexp prec emax mx ex lx) as [mrs' e']. simpl in H1.
  pose proof (shr_fexp_nonneg prec emax
                (round_nearest_even (shr_m mrs') (loc_of_shr_record mrs')) e'
                loc_Exact (round_nearest_even_nonneg _ _ H1)) as H2.
  destruct (shr_fexp prec emax _ e' loc_Exact) as [mrs'' e'']. simpl in H2.
  destruct (shr_m mrs'') as [|p|p]; simpl; [reflexivity| |lia].
  destruct (e'' <=? emax - prec); reflexivity.
Qed.

Lemma mul_finite_not_nan x y :
  isNaN x = false -> finite_nonzero y = true -> isNaN (mul x y) = false.
Proof.
  destruct y as [s|s| |s m e]; try discriminate. intros Hx _.
  destruct x as [sx|sx| |sx mx ex]; simpl in *; auto.
  pose proof (binary_round_aux_signed prec emax (xorb sx s) (Z.pos (mx * m))
                (ex + e) loc_Exact ltac:(lia)) as H.
  destruct (binary_round_aux prec emax (xorb sx s) (Z.pos (mx * m)) (ex + e) loc_Exact);
    simpl in *; auto. contradiction.
Qed.

Lemma div_finite_not_nan x y :
  isNaN x = false -> finite_nonzero y = true -> isNaN (div x y) = false.
Proof.
  destruct y as [s|s| |s m e]; try discriminate. intros Hx _.
  destruct x as [sx|sx| |sx mx ex]; simpl in *; auto.
  unfold SFdiv_core_binary. cbv zeta.
  set (e' := IntDef.Z.min _ _). set (m' := match ex - e - e' with
                                           | 0 => Z.pos mx
                                           | Z.pos _ => IntDef.Z.shiftl (Z.pos mx) (ex - e - e')
                                           | Z.neg _ => 0
                                           end).
  assert (Hm' : 0 <= m').
  { unfold m'. destruct (ex - e - e') eqn:E; try lia.
    change IntDef.Z.shiftl with Z.shiftl. apply Z.shiftl_nonneg. lia. }
  change IntDef.Z.div_eucl with Z.div_eucl.
  pose proof (Z_div_mod m' (Z.pos m) ltac:(lia)) as Hdm.
  destruct (Z.div_eucl m' (Z.pos m)) as [q r].
  assert (Hq : 0 <= q) by nia.
  pose proof (binary_round_aux_signed prec emax (xorb sx s) q e'
                (new_location (Z.pos m) r) Hq) as H.
  destruct (binary_round_aux prec emax (xorb sx s) q e' (new_location (Z.pos m) r));
    simpl in *; auto. contradiction.
Qed.

(** The sum of two Numbers that are not negative is not negative, and a
    Number. *)
Lemma add_nonneg x y :
  signed false x -> signed false y -> signed false (add x y).
Proof.
  destruct x as [sx|sx| |sx mx ex], y as [sy|sy| |sy my ey]; simpl;
    try contradiction; intros -> ->; simpl; auto.
  unfold binary_round.
  destruct (shl_align _ _ _) as [mz ez].
  apply binary_round_aux_signed. lia.
Qed.

End FloatFacts.

Module HashrateFacts.
Import Num Digits Builtins Supply Daemon Hashrate ConvertSpec DigitFacts FloatSpec FloatFacts.

Lemma fixed_string_n_leading_digit f n :
  0 <= n ->
  exists d rest, isdigit d /\ fixed_string_n f n = String (digit_char d) rest.
Proof.
  intros Hn. unfold fixed_string_n. cbv zeta.
  destruct (digits_of_spec n Hn) as (Hds & _ & Hne).
  set (m := if (List.length (digits_of n) <=? f)%nat
            then repeat 0 (S f - List.length (digits_of n)) ++ digits_of n
            else digits_of n).
  assert (Hm : Forall isdigit m /\ (S f <= List.length m)%nat).
  { unfold m. destruct (List.length (digits_of n) <=? f)%nat eqn:E.
    - apply Nat.leb_le in E. split.
      + apply Forall_app. split; [|exact Hds].
        apply Forall_forall. intros x Hx. apply repeat_spec in Hx. subst.
        unfold isdigit. lia.
      + rewrite length_app, repeat_length. lia.
    - apply Nat.leb_gt in E. split; [exact Hds | lia]. }
  destruct Hm as (Hm1 & Hm2).
  destruct m as [|d m']; [simpl in Hm2; lia|].
  replace (List.length (d :: m') - f)%nat with (S (List.length m' - f))
    by (cbn [List.length] in *; lia).
  inversion Hm1; subst. simpl. eexists d, _. split; [assumption | reflexivity].
Qed.

Lemma digit_char_not_minus d : isdigit d -> digit_char d <> "-"%char.
Proof.
  unfold isdigit. intros Hd.
  assert (H : d = 0 \/ d = 1 \/ d = 2 \/ d = 3 \/ d = 4 \/ d = 5 \/ d = 6 \/
              d = 7 \/ d = 8 \/ d = 9) by lia.
  repeat (destruct H as [->|H]; [discriminate|]). subst. discriminate.
Qed.

(** [toFixed] never prints a lone minus sign. *)
Lemma toFixed_not_dash f x : toFixed f x <> "-".
Proof.
  destruct x as [s|s| |s m e]; cbn [toFixed].
  - destruct (fixed_string_n_leading_digit f 0 ltac:(lia)) as (d & rest & Hd & ->).
    intros [= H _]. exact (digit_char_not_minus d Hd H).
  - destruct s; discriminate.
  - discriminate.
  - cbv zeta.
    assert (Hbody : exists d rest, isdigit d /\
              (if 10 ^ 21 * 2 ^ Z.max (- e) 0 <=? Z.pos m * 2 ^ Z.max e 0
               then to_string_large (Z.pos m * 2 ^ Z.max e 0 / 2 ^ Z.max (- e) 0)
               else fixed_string_n f
                      ((2 * (Z.pos m * 2 ^ Z.max e 0) * 10 ^ Z.of_nat f
                        + 2 ^ Z.max (- e) 0) / (2 * 2 ^ Z.max (- e) 0)))
              = String (digit_char d) rest).
    { assert (Hnum : 0 <= Z.pos m * 2 ^ Z.max e 0)
        by (apply Z.mul_nonneg_nonneg; [lia | apply Z.pow_nonneg; lia]).
      assert (Hden : 0 < 2 ^ Z.max (- e) 0) by (apply Z.pow_pos_nonneg; lia).
      assert (Hf : 0 <= 10 ^ Z.of_nat f) by (apply Z.pow_nonneg; lia).
      destruct (_ <=? _).
      - apply ConvertProperties.to_string_large_leading_digit. apply Z.div_pos; lia.
      - apply fixed_string_n_leading_digit. apply Z.div_pos; nia. }
    destruct Hbody as (d & rest & Hd & ->).
    destruct s; [discriminate|].
    intros [= H _]. exact (digit_char_not_minus d Hd H).
Qed.

Lemma toFixed_8 x : toFixed 8 x = toFixed8 x.
Proof. destruct x; reflexivity. Qed.

Lemma calculateHashrate_dash display value :
  calculateHashrate display value = "-" <-> isNaN (parseFloat_val value) = true.
Proof.
  unfold calculateHashrate. cbv zeta.
  destruct (isNaN (parseFloat_val value)) eqn:E; [tauto|].
  split; [|discriminate].
  repeat match goal with
         | |- context [if ?c then _ else _] => destruct c
         end; intros H; exfalso; exact (toFixed_not_dash _ _ H).
Qed.

End HashrateFacts.

Module HashrateProperties.
Import Num Builtins Supply Daemon DaemonSpec Hashrate FloatSpec FloatFacts HashrateFacts.
Section WithSources.

Variable client_command : string -> list prim -> rpc_reply.
Variable request : string -> http_reply.

(** X21: [get_hashrate] hands on '-' exactly when the display is
    switched off, the HTTP request fails or has no body, or what the
    daemon answered does not read as a number; in every other case it
    hands on a Number printed with four fraction digits. A failed RPC
    call is among the former: its message does not read as a number. *)
Theorem get_hashrate_dash :
  forall (display : Display) (settings : Settings),
    (get_hashrate client_command request display settings = "-" <->
     show_hashrate display = PBool false \/
     hashrate_value client_command request display settings = None \/
     exists value,
       hashrate_value client_command request display settings = Some value /\
       isNaN (parseFloat_val value) = true) /\
    (get_hashrate client_command request display settings = "-" \/
     exists x, isNaN x = false /\
       get_hashrate client_command request display settings = toFixed 4 x) /\
    (use_rpc settings = true ->
     rpc_result (client_command
                   (if (nethash display =? "netmhashps")%string
                    then "getmininginfo" else "getnetworkhashps") []) = None ->
     get_hashrate client_command request display settings = "-").
Proof.
  intros display settings. split; [|split].
  - unfold get_hashrate.
    destruct (hashrate_value client_command request display settings) as [value|].
    + pose proof (calculateHashrate_dash display value) as Hc.
      destruct (show_hashrate display) as [| |[|]| |]; split;
        try (intros H; right; right; exists value; split; [reflexivity|];
             apply Hc; exact H);
        try (intros [H|[H|(v & [= <-] & H)]]; try discriminate; apply Hc; exact H);
        auto.
    + destruct (show_hashrate display) as [| |[|]| |]; split; auto.
  - unfold get_hashrate.
    destruct (show_hashrate display) as [| |[|]| |]; auto;
      (destruct (hashrate_value client_command request display settings)
         as [value|]; [|auto]);
      unfold calculateHashrate; cbv zeta;
      (destruct (isNaN (parseFloat_val value)) eqn:E; [auto|]);
      right;
      repeat match goal with
             | |- context [if ?c then _ else _] => destruct c
             end;
      eexists; (split; [|reflexivity]);
      lazymatch goal with
      | |- isNaN (mul _ _) = false =>
          apply mul_finite_not_nan; [exact E | vm_compute; reflexivity]
      | |- isNaN (div _ _) = false =>
          apply div_finite_not_nan; [exact E | vm_compute; reflexivity]
      | |- _ => exact E
      end.
  - intros Hrpc Hnone. unfold get_hashrate, hashrate_value. rewrite Hrpc. cbv zeta.
    set (endpoint := if (nethash display =? "netmhashps")%string
                     then "getmininginfo" else "getnetworkhashps") in *.
    assert (Hmsg : rpc_message
                     (rpcCommand client_command (Some [mkCall endpoint (Some [])]))).
    { destruct (DaemonFacts.rpcCommand_cases client_command
                  (Some [mkCall endpoint (Some [])]))
        as [H|(call & rest & [= <- <-] & H & _)]; [exact H|].
      simpl in H. rewrite Hnone in H. discriminate. }
    assert (Hnan : forall v, rpc_message v ->
                     isNaN (parseFloat_val v) = true /\
                     isNaN (parseFloat_val (and_prop v "netmhashps")) = true).
    { intros v [ -> | [ -> | -> ] ]; split; reflexivity. }
    destruct (Hnan _ Hmsg) as [H1 H2].
    destruct (show_hashrate display) as [| |[|]| |]; try reflexivity;
      destruct (nethash display =? "netmhashps")%string;
      apply calculateHashrate_dash; assumption.
Qed.

End WithSources.

Lemma get_hashrate_dash_witness :
  get_hashrate (fun _ _ => RpcError) (fun _ => HttpError)
    (mkDisplay (PBool true) "G" "netmhashps") (mkSettings None true) = "-".
Proof.
  apply (get_hashrate_dash (fun _ _ => RpcError) (fun _ => HttpError)
           (mkDisplay (PBool true) "G" "netmhashps") (mkSettings None true));
    reflexivity.
Defined.

End HashrateProperties.

Module BalanceProperties.
Import Num Supply FloatSpec FloatFacts.

(** X22: [balance_supply] hands on 0 when the store fails or has no
    documents; for balances none of which is negative it hands on a
    Number that is not negative and not NaN, a balance that is NaN or
    zero counting as 0. *)
Theorem balance_supply_not_negative :
  balance_supply FindAllError = pzero /\
  balance_supply (FindDocs []) = pzero /\
  forall docs,
    Forall (fun balance => isNaN balance = true \/ signed false balance \/
                           balance = S754_zero true) docs ->
    signed false (balance_supply (FindDocs docs)).
Proof.
  split; [reflexivity|]. split; [reflexivity|].
  intros docs Hdocs. unfold balance_supply.
  assert (H : forall total, signed false total ->
            signed false
              (fold_left (fun total balance =>
                            add total (if truthy (PNum balance) then balance else pzero))
                         docs total)).
  { induction Hdocs as [|b docs Hb Hdocs IH]; intros total Ht; cbn [fold_left];
      [exact Ht|].
    apply IH. apply add_nonneg; [exact Ht|].
    destruct Hb as [Hb | [Hb | -> ] ]; [| |reflexivity].
    - destruct b; try discriminate. reflexivity.
    - destruct b; simpl in *; auto. }
  apply H. reflexivity.
Qed.

End BalanceProperties.
